(** * mcp-shim: the stdio-to-HTTP forwarding shim of lib/mcp-shim.js

    A shallow embedding of the shim's configuration, log filter, cache, rate
    limiter, path security, forwarder and line handler, the properties of
    its specification, and further properties of the code.

    Conventions of the embedding.
    - A JavaScript value that [JSON.parse] can produce, or that the shim
      builds from such values, is a [value].  An object is the list of its own
      properties in enumeration order.  Its numbers are the integer-valued
      ones.
    - A string is a Rocq [string], one character per UTF-16 code unit, for
      code units below 256.
    - The backoff delay is a double, a [Number.t]; [Math.random()] answers
      with the rational that its double is.
    - [Date.now], [Math.random], [fetch], the body readers of a response,
      [setTimeout] waits, [JSON.parse] of an input line and [console.log] are
      events of a free monad [prog]; a [handler] answers them.
    - The shared mutable objects [cache.entries] and [rateLimit.requests]
      form the [Store] that every operation threads.
    - Calls to [logger] only write to stderr and to the log file; they are
      left out of the runs, except where evaluating their arguments can
      throw, as [args.paths.join(', ')] can in the warning of
      [pathSecurity.processRequest] ([logger.log] itself is followed by
      [logger.log], as the sinks an entry is written to).
    - A call is followed on its own, from its first statement to its return:
      what the handlers of other lines do to the store while it awaits is not
      part of its run. *)

From Stdlib Require Import ZArith QArith Qminmax Qround Qpower Lqa String Ascii List Lia.
From Stdlib Require Import DecimalString.
From Stdlib Require DecimalPos SpecFloat.
From stdpp Require Import strings gmap.
Import ListNotations.

#[local] Set Warnings "-register-all".
Local Open Scope string_scope.
Local Open Scope Z_scope.

(* ===================================================================== *)
(** ** JavaScript values *)
(* ===================================================================== *)

Module JS.

Inductive value : Type :=
| VUndefined
| VNull
| VBool (b : bool)
| VNum (n : Z)
| VStr (s : string)
| VArr (items : list value)
| VObj (props : list (string * value)).

(** [ToBoolean]. *)
Definition truthy (v : value) : bool :=
  match v with
  | VUndefined | VNull => false
  | VBool b => b
  | VNum n => negb (n =? 0)
  | VStr s => negb (String.eqb s "")
  | VArr _ | VObj _ => true
  end.

(** [a || b]. *)
Definition or_else (a b : value) : value := if truthy a then a else b.

(** [typeof v]. *)
Definition typeof (v : value) : string :=
  match v with
  | VUndefined => "undefined"
  | VNull | VArr _ | VObj _ => "object"
  | VBool _ => "boolean"
  | VNum _ => "number"
  | VStr _ => "string"
  end.

Definition nullish (v : value) : bool :=
  match v with VUndefined | VNull => true | _ => false end.

Fixpoint assoc (k : string) (ps : list (string * value)) : value :=
  match ps with
  | [] => VUndefined
  | (k', v) :: ps' => if String.eqb k k' then v else assoc k ps'
  end.

(** [v.k] and [v?.k] for the property names the shim reads ([method],
    [params], [id], [name], [arguments], [path], [paths], [source],
    [destination], [error], [__securityViolation], [__errorMessage]): none of
    them is an own or inherited property of a string, an array, a number or a
    boolean, so only objects answer.  On [null] and [undefined], [v.k] throws;
    the callers below test [nullish] at the two places where that can happen. *)
Definition prop (v : value) (k : string) : value :=
  match v with
  | VObj ps => assoc k ps
  | _ => VUndefined
  end.

(** [o.k = v] on the property list of an object: an existing property keeps
    its place, a new one (with a name that is not an array index) goes last. *)
Fixpoint assoc_set (ps : list (string * value)) (k : string) (v : value)
  : list (string * value) :=
  match ps with
  | [] => [(k, v)]
  | (k', v') :: ps' =>
      if String.eqb k k' then (k', v) :: ps' else (k', v') :: assoc_set ps' k v
  end.

Definition set_prop (o : value) (k : string) (v : value) : value :=
  match o with
  | VObj ps => VObj (assoc_set ps k v)
  | _ => o
  end.

(** [v === 'text']. *)
Definition is_string (v : value) (text : string) : bool :=
  match v with
  | VStr s => String.eqb s text
  | _ => false
  end.

Definition has_key (k : string) (ps : list (string * value)) : bool :=
  existsb (fun kv => String.eqb k (fst kv)) ps.

(** Decimal text of an integer-valued number (below 10^21 in size). *)
Definition num_to_string (n : Z) : string := NilZero.string_of_int (Z.to_int n).

Definition nat_to_string (n : nat) : string := NilZero.string_of_uint (Nat.to_uint n).

Fixpoint indexed {A B} (f : A -> B) (i : nat) (xs : list A) : list (string * B) :=
  match xs with
  | [] => []
  | x :: xs' => (nat_to_string i, f x) :: indexed f (S i) xs'
  end.

Definition char_value (c : ascii) : value := VStr (String c "").

(** The own enumerable properties copied by [{...v}]. *)
Definition spread (v : value) : list (string * value) :=
  match v with
  | VObj ps => ps
  | VArr xs => indexed (fun x => x) 0 xs
  | VStr s => indexed char_value 0 (list_ascii_of_string s)
  | _ => []
  end.

(** An [Error] object, as far as the shim looks at it. *)
Record error : Type := Error { name : string; message : string }.

Definition TypeError (m : string) : error := Error "TypeError" m.

(** The completion of a call: a value or a thrown error. *)
Inductive completion (A : Type) : Type :=
| Normal (a : A)
| Throw (e : error).
Arguments Normal {A} a.
Arguments Throw {A} e.

(** *** Strings *)

(** [hay.startsWith(needle)]. *)
Definition startsWith (hay needle : string) : bool := String.prefix needle hay.

(** [hay.includes(needle)]. *)
Fixpoint includes (hay needle : string) : bool :=
  if String.prefix needle hay then true
  else match hay with
       | EmptyString => false
       | String _ hay' => includes hay' needle
       end.

Fixpoint join (sep : string) (xs : list string) : string :=
  match xs with
  | [] => ""
  | [x] => x
  | x :: xs' => x +:+ sep +:+ join sep xs'
  end.

(** [s.length], in code units. *)
Definition strlen (s : string) : Z := Z.of_nat (String.length s).

(** [Buffer.byteLength(s, 'utf8')]: a code unit below 128 takes one byte, one
    from 128 to 255 takes two. *)
Fixpoint byteLength (s : string) : Z :=
  match s with
  | EmptyString => 0
  | String c s' => (if (nat_of_ascii c <? 128)%nat then 1 else 2) + byteLength s'
  end.

(** *** JSON.stringify *)

Definition hex_digit (n : nat) : ascii :=
  match n with
  | 0 => "0" | 1 => "1" | 2 => "2" | 3 => "3" | 4 => "4" | 5 => "5" | 6 => "6"
  | 7 => "7" | 8 => "8" | 9 => "9" | 10 => "a" | 11 => "b" | 12 => "c"
  | 13 => "d" | 14 => "e" | _ => "f"
  end%nat%char.

Definition escape_char (c : ascii) : string :=
  let n := nat_of_ascii c in
  if (n =? 34)%nat then "\" +:+ String c ""
  else if (n =? 92)%nat then "\\"
  else if (n =? 8)%nat then "\b"
  else if (n =? 12)%nat then "\f"
  else if (n =? 10)%nat then "\n"
  else if (n =? 13)%nat then "\r"
  else if (n =? 9)%nat then "\t"
  else if (n <? 32)%nat then
    "\u00" +:+ String (hex_digit (n / 16)) (String (hex_digit (n mod 16)) "")
  else String c "".

Fixpoint escape (s : string) : string :=
  match s with
  | EmptyString => ""
  | String c s' => escape_char c +:+ escape s'
  end.

Definition quote (s : string) : string :=
  String (ascii_of_nat 34) (escape s) +:+ String (ascii_of_nat 34) "".

(** [JSON.stringify(v)]; [None] is [undefined].  In an array an
    [undefined] item prints as [null], in an object a property whose value is
    [undefined] is left out. *)
Fixpoint stringify (v : value) : option string :=
  match v with
  | VUndefined => None
  | VNull => Some "null"
  | VBool true => Some "true"
  | VBool false => Some "false"
  | VNum n => Some (num_to_string n)
  | VStr s => Some (quote s)
  | VArr xs =>
      Some ("[" +:+
            join "," ((fix items (l : list value) : list string :=
                         match l with
                         | [] => []
                         | x :: l' =>
                             match stringify x with
                             | Some t => t
                             | None => "null"
                             end :: items l'
                         end) xs) +:+ "]")
  | VObj ps =>
      Some ("{" +:+
            join "," ((fix members (l : list (string * value)) : list string :=
                         match l with
                         | [] => []
                         | (k, x) :: l' =>
                             match stringify x with
                             | Some t => (quote k +:+ ":" +:+ t) :: members l'
                             | None => members l'
                             end
                         end) ps) +:+ "}")
  end.

(** Examples write a JSON text with apostrophes for its quotation marks. *)
Definition json_text (s : string) : string :=
  string_of_list_ascii
    (List.map (fun c => if (nat_of_ascii c =? 39)%nat then ascii_of_nat 34 else c)
              (list_ascii_of_string s)).

(** [ToString(v)], as a template literal applies it; [None] when it throws a
    [TypeError].  An object prints through [Object.prototype.toString] unless
    it has an own property [toString], which, coming from JSON, is not
    callable, and then neither it nor [valueOf] yields a primitive. *)
Fixpoint toString (v : value) : option string :=
  match v with
  | VUndefined => Some "undefined"
  | VNull => Some "null"
  | VBool true => Some "true"
  | VBool false => Some "false"
  | VNum n => Some (num_to_string n)
  | VStr s => Some s
  | VArr xs =>
      option_map (join ",")
        ((fix items (l : list value) : option (list string) :=
            match l with
            | [] => Some []
            | x :: l' =>
                match (if nullish x then Some EmptyString else toString x), items l' with
                | Some t, Some ts => Some (t :: ts)
                | _, _ => None
                end
            end) xs)
  | VObj ps => if has_key "toString" ps then None else Some "[object Object]"
  end.

(** [`${o}`] for the result of [JSON.stringify]. *)
Definition template (o : option string) : string :=
  match o with Some s => s | None => "undefined" end.

End JS.

Import JS.


(* ===================================================================== *)
(** ** The runtime's [path] module (POSIX) *)
(* ===================================================================== *)

Module Path.

Definition sep : string := "/".

Definition slash : ascii := "/"%char.

(** [path.isAbsolute(p)]. *)
Definition isAbsolute (p : string) : bool :=
  match p with
  | String c _ => Ascii.eqb c slash
  | EmptyString => false
  end.

Fixpoint endsWithSlash (p : string) : bool :=
  match p with
  | EmptyString => false
  | String c EmptyString => Ascii.eqb c slash
  | String _ p' => endsWithSlash p'
  end.

(** The segments between the separators. *)
Fixpoint split (p : string) : list string :=
  match p with
  | EmptyString => [EmptyString]
  | String c p' =>
      if Ascii.eqb c slash then EmptyString :: split p'
      else match split p' with
           | s :: rest => String c s :: rest
           | [] => [String c EmptyString]
           end
  end.

(** One segment of [normalizeString]; [stack] holds the kept segments, last
    one first.  An empty segment and [.] are dropped; [..] removes the last
    kept segment, unless there is none or it is [..] itself, in which
    case it is kept when the path may climb above its start. *)
Definition step (allowAboveRoot : bool) (stack : list string) (seg : string)
  : list string :=
  if String.eqb seg "" || String.eqb seg "." then stack
  else if String.eqb seg ".." then
    match stack with
    | top :: rest =>
        if String.eqb top ".." then
          (if allowAboveRoot then seg :: stack else stack)
        else rest
    | [] => if allowAboveRoot then [seg] else []
    end
  else seg :: stack.

Definition normalizeString (p : string) (allowAboveRoot : bool) : string :=
  join sep (rev (fold_left (step allowAboveRoot) (split p) [])).

(** [path.normalize(p)]. *)
Definition normalize (p : string) : string :=
  if String.eqb p "" then "."
  else
    let isAbs := isAbsolute p in
    let trailingSeparator := endsWithSlash p in
    let q := normalizeString p (negb isAbs) in
    if String.eqb q "" then
      (if isAbs then "/" else if trailingSeparator then "./" else ".")
    else
      let q := if trailingSeparator then q +:+ "/" else q in
      if isAbs then "/" +:+ q else q.

End Path.

(* ===================================================================== *)
(** ** Numbers that are no integers *)
(* ===================================================================== *)

(** A JavaScript number as the backoff delay is one: an IEEE 754 double.
    [Finite q] is the double whose value is the rational [q]; the sign of a
    zero is not kept (the shim computes no negative zero).  An operation is
    the exact one on the rationals followed by rounding to the nearest
    double, ties to the even mantissa. *)
Module Number.

Local Open Scope Q_scope.

Inductive t : Type :=
| NaN
| Infinity (negative : bool)
| Finite (q : Q).

(** The integer [k] with [2^k <= q < 2^(k+1)], for a positive [q]. *)
Definition ilog2 (q : Q) : Z :=
  let k := (Z.log2 (Qnum q) - Z.log2 (Zpos (Qden q)))%Z in
  if Qle_bool (2 ^ k) q then k else (k - 1)%Z.

(** The nearest integer, the even one of two that are equally near. *)
Definition roundEven (x : Q) : Z :=
  let f := Qfloor x in
  match (x - inject_Z f ?= 1 # 2)%Q with
  | Lt => f
  | Gt => (f + 1)%Z
  | Eq => if Z.even f then f else (f + 1)%Z
  end.

(** The exponent of the last bit of the doubles of the size of [q]: 53 bits
    of mantissa, and no exponent below -1074 (the subnormal doubles). *)
Definition exponent (q : Q) : Z := Z.max (ilog2 q - 52) (-1074).

(** The multiple of [2^exponent] nearest to a positive [q]. *)
Definition nearest (q : Q) : Q :=
  inject_Z (roundEven (q / 2 ^ exponent q)) * 2 ^ exponent q.

(** The double nearest to [q]; from [2^1024] on it is an infinity. *)
Definition round (q : Q) : t :=
  match Qnum q with
  | Z0 => Finite 0
  | Zpos _ =>
      let v := nearest q in
      if Qle_bool (2 ^ 1024) v then Infinity false else Finite (Qred v)
  | Zneg _ =>
      let v := nearest (- q) in
      if Qle_bool (2 ^ 1024) v then Infinity true else Finite (Qred (- v))
  end.

Definition isZero (q : Q) : bool := Qeq_bool q 0.

Definition isNegative (q : Q) : bool :=
  match Qnum q with Zneg _ => true | _ => false end.

(** [x * y]. *)
Definition mul (x y : t) : t :=
  match x, y with
  | NaN, _ | _, NaN => NaN
  | Infinity s, Infinity s' => Infinity (xorb s s')
  | Infinity s, Finite q | Finite q, Infinity s =>
      if isZero q then NaN else Infinity (xorb s (isNegative q))
  | Finite p, Finite q => round (p * q)
  end.

(** [x + y]. *)
Definition add (x y : t) : t :=
  match x, y with
  | NaN, _ | _, NaN => NaN
  | Infinity s, Infinity s' => if Bool.eqb s s' then Infinity s else NaN
  | Infinity s, Finite _ | Finite _, Infinity s => Infinity s
  | Finite p, Finite q => round (p + q)
  end.

(** [Math.min(x, y)]. *)
Definition min (x y : t) : t :=
  match x, y with
  | NaN, _ | _, NaN => NaN
  | Infinity true, _ | _, Infinity true => Infinity true
  | Infinity false, z | z, Infinity false => z
  | Finite p, Finite q => if Qle_bool p q then x else y
  end.

(** [x <= y]. *)
Definition leb (x y : t) : bool :=
  match x, y with
  | NaN, _ | _, NaN => false
  | Infinity true, _ | _, Infinity false => true
  | Infinity false, _ | _, Infinity true => false
  | Finite p, Finite q => Qle_bool p q
  end.

(** The positive [q] is the value of a double: a multiple of the last bit
    of the doubles of its size. *)
Definition binary64 (q : Q) : Prop :=
  exists M : Z, q == inject_Z M * 2 ^ exponent q.

(** [Math.pow(2, n)] for an integer [n]. *)
Definition pow2 (n : Z) : t := round (2 ^ n).

(** The integer [n] as a number. *)
Definition ofZ (n : Z) : t := round (inject_Z n).

(** The decimal literal that denotes [q]. *)
Definition literal (q : Q) : t := round q.

(** The same double in the representation of the Standard Library. *)
Definition ofSpecFloat (f : SpecFloat.spec_float) : t :=
  match f with
  | SpecFloat.S754_zero _ => Finite 0
  | SpecFloat.S754_infinity s => Infinity s
  | SpecFloat.S754_nan => NaN
  | SpecFloat.S754_finite s m e =>
      Finite (Qred ((if s then - inject_Z (Zpos m) else inject_Z (Zpos m)) * 2 ^ e))
  end.

End Number.

#[global] Arguments Number.round : simpl never.
#[global] Arguments Number.mul : simpl never.
#[global] Arguments Number.add : simpl never.
#[global] Arguments Number.min : simpl never.
#[global] Arguments Number.pow2 : simpl never.
#[global] Arguments Number.ofZ : simpl never.
#[global] Arguments Number.literal : simpl never.

(* ===================================================================== *)
(** ** Configuration *)
(* ===================================================================== *)

(** [CONFIG], without its logging settings. *)
Record Config : Type := {
  proxyUrl : string;
  serverName : string;
  apiKey : string;
  maxRequestSize : Z;
  rateLimitPerMinute : Z;
  allowedPaths : list string;
  responseCache : bool;
  cacheTTLMs : Z;
  timeout : Z;
  maxRetries : Z;
  retryInitialDelayMs : Z;
  retryMaxDelayMs : Z
}.

(** The values [CONFIG] takes when no environment variable is set. *)
Definition defaults : Config := {|
  proxyUrl := "http://localhost:9876";
  serverName := "filesystem";
  apiKey := "";
  maxRequestSize := 5 * 1024 * 1024;
  rateLimitPerMinute := 60;
  allowedPaths := [];
  responseCache := true;
  cacheTTLMs := 5 * 60 * 1000;
  timeout := 30000;
  maxRetries := 3;
  retryInitialDelayMs := 100;
  retryMaxDelayMs := 5000
|}.

Definition with_allowedPaths (c : Config) (ps : list string) : Config := {|
  proxyUrl := proxyUrl c;
  serverName := serverName c;
  apiKey := apiKey c;
  maxRequestSize := maxRequestSize c;
  rateLimitPerMinute := rateLimitPerMinute c;
  allowedPaths := ps;
  responseCache := responseCache c;
  cacheTTLMs := cacheTTLMs c;
  timeout := timeout c;
  maxRetries := maxRetries c;
  retryInitialDelayMs := retryInitialDelayMs c;
  retryMaxDelayMs := retryMaxDelayMs c
|}.

(** "Sanitize allowed paths", run once at start-up. *)
Definition normalizeAllowedPaths (c : Config) : Config :=
  if (0 <? Z.of_nat (List.length (allowedPaths c)))
  then with_allowedPaths c (List.map Path.normalize (allowedPaths c))
  else c.

(** *** Reading the environment *)

(** The white space that [parseInt] skips, among the code units below 256. *)
Definition isWhiteSpace (c : ascii) : bool :=
  let n := nat_of_ascii c in
  (n =? 9)%nat || (n =? 10)%nat || (n =? 11)%nat || (n =? 12)%nat || (n =? 13)%nat
  || (n =? 32)%nat || (n =? 160)%nat.

Fixpoint trimStart (s : string) : string :=
  match s with
  | EmptyString => s
  | String c s' => if isWhiteSpace c then trimStart s' else s
  end.

Definition isDigit (c : ascii) : bool :=
  (48 <=? nat_of_ascii c)%nat && (nat_of_ascii c <=? 57)%nat.

(** The longest prefix of decimal digits. *)
Fixpoint digitPrefix (s : string) : string :=
  match s with
  | EmptyString => s
  | String c s' => if isDigit c then String c (digitPrefix s') else EmptyString
  end.

(** [parseInt(s, 10)] on a string; [None] is [NaN].  White space is skipped,
    then a sign is read, then the longest run of digits; the value is exact
    (for the integers that a double holds). *)
Definition parseInt10 (s : string) : option Z :=
  let t := trimStart s in
  let '(negative, body) :=
    match t with
    | String c r =>
        if Ascii.eqb c "-" then (true, r)
        else if Ascii.eqb c "+" then (false, r)
        else (false, t)
    | EmptyString => (false, t)
    end in
  match NilZero.uint_of_string (digitPrefix body) with
  | Some d => Some (if (negative : bool) then - Z.of_uint d else Z.of_uint d)
  | None => None
  end.

(** [process.env.X || dflt]: an unset variable is [undefined], and the empty
    string is falsy as well. *)
Definition text_or (v : option string) (dflt : string) : string :=
  match v with
  | Some s => if String.eqb s "" then dflt else s
  | None => dflt
  end.

(** [parseInt(process.env.X, 10) || dflt]: [NaN] (also the result for an
    unset variable) and 0 are falsy. *)
Definition int_or (v : option string) (dflt : Z) : Z :=
  match v with
  | Some s =>
      match parseInt10 s with
      | Some n => if n =? 0 then dflt else n
      | None => dflt
      end
  | None => dflt
  end.

(** [s.split(c)] for a separator of one character. *)
Fixpoint splitOn (c : ascii) (s : string) : list string :=
  match s with
  | EmptyString => [EmptyString]
  | String d s' =>
      if Ascii.eqb d c then EmptyString :: splitOn c s'
      else match splitOn c s' with
           | x :: rest => String d x :: rest
           | [] => [String d EmptyString]
           end
  end.

(** [CONFIG], without its logging settings, for the environment [env]. *)
Definition CONFIG (env : gmap string string) : Config := {|
  proxyUrl := text_or (env !! "MCP_PROXY_URL") "http://localhost:9876";
  serverName := text_or (env !! "MCP_SERVER_NAME") "filesystem";
  apiKey := text_or (env !! "MCP_API_KEY") "";
  maxRequestSize := int_or (env !! "MCP_MAX_REQUEST_SIZE") (5 * 1024 * 1024);
  rateLimitPerMinute := int_or (env !! "MCP_RATE_LIMIT") 60;
  allowedPaths :=
    List.filter (fun entry => negb (String.eqb entry ""))
                (splitOn "," (text_or (env !! "MCP_ALLOWED_PATHS") ""));
  responseCache :=
    match env !! "MCP_CACHE" with
    | Some s => negb (String.eqb s "false")
    | None => true
    end;
  cacheTTLMs := int_or (env !! "MCP_CACHE_TTL_MS") (5 * 60 * 1000);
  timeout := int_or (env !! "MCP_TIMEOUT_MS") 30000;
  maxRetries := int_or (env !! "MCP_MAX_RETRIES") 3;
  retryInitialDelayMs := int_or (env !! "MCP_RETRY_INITIAL_DELAY_MS") 100;
  retryMaxDelayMs := int_or (env !! "MCP_RETRY_MAX_DELAY_MS") 5000
|}.

(* ===================================================================== *)
(** ** Logging System *)
(* ===================================================================== *)

(** [LOG_LEVELS[name]] as a number; [None] when the name is none of the
    five levels (the value is then [undefined], or a member of
    [Object.prototype], neither of which is a number). *)
Definition LOG_LEVELS (name : string) : option Z :=
  if String.eqb name "trace" then Some 0
  else if String.eqb name "debug" then Some 1
  else if String.eqb name "info" then Some 2
  else if String.eqb name "warn" then Some 3
  else if String.eqb name "error" then Some 4
  else None.

(** Where an entry is written. *)
Inductive sink : Type :=
| Stderr
| LogFile.

Module logger.

(** [LOG_LEVELS[level] < LOG_LEVELS[CONFIG.logLevel]]: a comparison with
    something that is no number is false. *)
Definition belowLevel (logLevel level : string) : bool :=
  match LOG_LEVELS level, LOG_LEVELS logLevel with
  | Some l, Some configured => l <? configured
  | _, _ => false
  end.

(** [logger.log(level, message, data)]: the sinks the entry is written to,
    for the settings [CONFIG.logLevel] and [CONFIG.logToFile]. *)
Definition log (logLevel : string) (logToFile : bool) (level : string) : list sink :=
  if belowLevel logLevel level then []
  else
    (if String.eqb level "error" || String.eqb level "warn"
        || String.eqb logLevel "debug" || String.eqb logLevel "trace"
     then [Stderr] else [])
    ++ (if logToFile then [LogFile] else []).

End logger.

(** [CONFIG.logLevel] and [CONFIG.logToFile] for the environment [env]. *)
Definition logLevel (env : gmap string string) : string :=
  text_or (env !! "MCP_LOG_LEVEL") "info".

Definition logToFile (env : gmap string string) : bool :=
  match env !! "MCP_LOG_FILE" with
  | Some s => String.eqb s "true"
  | None => false
  end.

(* ===================================================================== *)
(** ** Effects *)
(* ===================================================================== *)

(** What the shim reads of a [fetch] response before its body. *)
Record response : Type := Response { status : Z }.

(** [response.ok]. *)
Definition ok (r : response) : bool := (200 <=? status r) && (status r <? 300).

Inductive event : Type -> Type :=
| DateNow : event Z
| MathRandom : event Q
| Fetch (url : string) (headers : list (string * string)) (body : string)
        (abortAfterMs : Z) : event (error + response)
| ResponseText (r : response) : event (error + string)
| ResponseJson (r : response) : event (error + value)
| SetTimeout (ms : Number.t) : event unit
| JSONParse (text : string) : event (error + value)
| ConsoleLog (text : string) : event unit.

Inductive prog (A : Type) : Type :=
| Ret (a : A)
| Vis {X : Type} (e : event X) (k : X -> prog A).
Arguments Ret {A} a.
Arguments Vis {A X} e k.

Fixpoint bind {A B : Type} (p : prog A) (f : A -> prog B) : prog B :=
  match p with
  | Ret a => f a
  | Vis e k => Vis e (fun x => bind (k x) f)
  end.

Definition trigger {X : Type} (e : event X) : prog X := Vis e Ret.

Notation "'let*' x ':=' p 'in' q" := (bind p (fun x => q))
  (at level 10, x pattern, p at level 200, q at level 200).

(** One event with its answer. *)
Inductive obs : Type :=
| ONow (t : Z)
| ORandom (r : Q)
| OFetch (url : string) (headers : list (string * string)) (body : string)
         (abortAfterMs : Z) (answer : error + response)
| OText (r : response) (answer : error + string)
| OJson (r : response) (answer : error + value)
| OWait (ms : Number.t)
| OParse (text : string) (answer : error + value)
| OPrint (text : string).

Definition observe {X : Type} (e : event X) : X -> obs :=
  match e with
  | DateNow => ONow
  | MathRandom => ORandom
  | Fetch url headers body ms => OFetch url headers body ms
  | ResponseText r => OText r
  | ResponseJson r => OJson r
  | SetTimeout ms => fun _ => OWait ms
  | JSONParse text => OParse text
  | ConsoleLog text => fun _ => OPrint text
  end.

(** The environment: it answers every event from a state [W] of its own. *)
Definition handler (W : Type) : Type := forall X : Type, event X -> W -> X * W.

(** A run of [p] against [h]: the events in order, the result and the
    environment left. *)
Fixpoint exec {W A : Type} (h : handler W) (p : prog A) (w : W)
  : list obs * A * W :=
  match p with
  | Ret a => ([], a, w)
  | Vis e k =>
      let '(x, w1) := h _ e w in
      let '(t, a, w2) := exec h (k x) w1 in
      (observe e x :: t, a, w2)
  end.

Definition trace_of {W A : Type} (r : list obs * A * W) : list obs := fst (fst r).
Definition result_of {W A : Type} (r : list obs * A * W) : A := snd (fst r).

(* ===================================================================== *)
(** ** Shared state *)
(* ===================================================================== *)

Record CacheEntry : Type := { entry_value : value; expiry : Z }.

(** [cache.entries] and [rateLimit.requests]. *)
Record Store : Type := {
  entries : gmap string CacheEntry;
  requests : list Z
}.

Definition with_entries (st : Store) (m : gmap string CacheEntry) : Store :=
  {| entries := m; requests := requests st |}.

Definition with_requests (st : Store) (l : list Z) : Store :=
  {| entries := entries st; requests := l |}.

Definition empty_store : Store := {| entries := ∅; requests := [] |}.

(* ===================================================================== *)
(** ** Cache System *)
(* ===================================================================== *)

Module cache.

(** [cache.get(key)]; [VUndefined] when there is no valid entry. *)
Definition get (cfg : Config) (key : string) (st : Store) : prog (value * Store) :=
  if negb (responseCache cfg) then Ret (VUndefined, st)
  else
    match entries st !! key with
    | None => Ret (VUndefined, st)
    | Some entry =>
        let* now := trigger DateNow in
        if expiry entry <? now
        then Ret (VUndefined, with_entries st (delete key (entries st)))
        else Ret (entry_value entry, st)
    end.

(** [cache.set(key, value)]. *)
Definition set (cfg : Config) (key : string) (v : value) (st : Store) : prog Store :=
  if negb (responseCache cfg) then Ret st
  else
    let* now := trigger DateNow in
    Ret (with_entries st
           (<[key := {| entry_value := v; expiry := now + cacheTTLMs cfg |}]> (entries st))).

Definition writeOperations : list string :=
  [ "write_file"; "edit_file"; "create_directory"; "move_file"; "delete";
    "create_entities"; "delete_entities"; "create_relations"; "delete_relations";
    "add_observations"; "delete_observations" ].

(** [cache.isUncacheable(request)]. *)
Definition isUncacheable (request : value) : bool :=
  if is_string (prop request "method") "tools/call"
     && String.eqb (typeof (prop (prop request "params") "name")) "string"
  then
    match prop (prop request "params") "name" with
    | VStr name => existsb (fun op => includes name op) writeOperations
    | _ => false
    end
  else false.

(** [cache.createKey(request)]; [None] is [null].  The template literal
    throws when [request.method] has no string form. *)
Definition createKey (request : value) : completion (option string) :=
  if isUncacheable request then Normal None
  else
    match toString (prop request "method") with
    | Some m => Normal (Some (m +:+ ":" +:+ template (stringify (prop request "params"))))
    | None => Throw (TypeError "Cannot convert object to primitive value")
    end.

End cache.

(* ===================================================================== *)
(** ** Rate Limiting *)
(* ===================================================================== *)

Module rateLimit.

(** The timestamps [isLimitExceeded] keeps at time [now]. *)
Definition recent (now : Z) (l : list Z) : list Z :=
  List.filter (fun time => now - time <? 60000) l.

(** [rateLimit.isLimitExceeded()]. *)
Definition isLimitExceeded (cfg : Config) (st : Store) : prog (bool * Store) :=
  let* now := trigger DateNow in
  let kept := recent now (requests st) in
  Ret (rateLimitPerMinute cfg <=? Z.of_nat (List.length kept), with_requests st kept).

(** [rateLimit.addRequest()]. *)
Definition addRequest (st : Store) : prog Store :=
  let* now := trigger DateNow in
  Ret (with_requests st (requests st ++ [now])%list).

End rateLimit.

(* ===================================================================== *)
(** ** Path Security *)
(* ===================================================================== *)

(** Whether [args.paths.join(', ')] can be evaluated: [join] takes the
    string form of every entry but [null] and [undefined], and throws when
    an entry has none.  Anything that is no array passes. *)
Definition joinable (paths : value) : bool :=
  match paths with
  | VArr _ => match toString paths with Some _ => true | None => false end
  | _ => true
  end.

Module pathSecurity.

(** Whether some allowed path covers [normalizedPath]. *)
Definition isAllowed (cfg : Config) (normalizedPath : string) : bool :=
  existsb (fun allowedPath =>
             String.eqb normalizedPath allowedPath
             || startsWith normalizedPath (allowedPath +:+ Path.sep))
          (allowedPaths cfg).

(** [pathSecurity.sanitizePath(filePath)]; [None] is [null]. *)
Definition sanitizePath (cfg : Config) (filePath : value) : option string :=
  if negb (truthy filePath) || negb (String.eqb (typeof filePath) "string") then None
  else
    match filePath with
    | VStr s =>
        let normalizedPath := Path.normalize s in
        if Path.isAbsolute normalizedPath then
          if (0 <? Z.of_nat (List.length (allowedPaths cfg)))
             && negb (isAllowed cfg normalizedPath)
          then None
          else Some normalizedPath
        else None
    | _ => None
    end.

(** The loop over [args.paths]: it stops at the first entry that fails. *)
Fixpoint sanitizePaths (cfg : Config) (paths : list value) : option (list string) :=
  match paths with
  | [] => Some []
  | p :: rest =>
      match sanitizePath cfg p with
      | None => None
      | Some sanitized =>
          match sanitizePaths cfg rest with
          | Some l => Some (sanitized :: l)
          | None => None
          end
      end
  end.

(** One check of [processRequest] on the object [args]: the object as the
    check leaves it, and the message of the violation it returns with. *)
Definition check : Type := value -> value * option string.

Definition and_then (c1 c2 : check) : check :=
  fun args =>
    let '(args1, violation) := c1 args in
    match violation with
    | Some _ => (args1, violation)
    | None => c2 args1
    end.

Definition checkPath (cfg : Config) : check := fun args =>
  match prop args "path" with
  | VStr path =>
      match sanitizePath cfg (VStr path) with
      | None => (args, Some ("Access denied to path: " +:+ path))
      | Some sanitizedPath => (set_prop args "path" (VStr sanitizedPath), None)
      end
  | _ => (args, None)
  end.

Definition checkPaths (cfg : Config) : check := fun args =>
  match prop args "paths" with
  | VArr paths =>
      match sanitizePaths cfg paths with
      | None => (args, Some "Access denied to one or more requested paths")
      | Some sanitizedPaths =>
          (set_prop args "paths" (VArr (List.map VStr sanitizedPaths)), None)
      end
  | _ => (args, None)
  end.

(** [args.source] and [args.destination] are assigned before they are tested. *)
Definition checkEndpoint (cfg : Config) (field message : string) : check := fun args =>
  match prop args field with
  | VStr path =>
      match sanitizePath cfg (VStr path) with
      | None => (set_prop args field VNull, Some message)
      | Some sanitized => (set_prop args field (VStr sanitized), None)
      end
  | _ => (args, None)
  end.

(** The four checks in a row, up to the first that fails. *)
Definition checkArguments (cfg : Config) : check :=
  and_then (checkPath cfg)
    (and_then (checkPaths cfg)
       (and_then (checkEndpoint cfg "source" "Access denied to source path")
                 (checkEndpoint cfg "destination" "Access denied to destination path"))).

(** [request] once the object [request.params.arguments] has become [args]:
    the assignments to [args] go through the one object that the request, and
    every shallow copy of it, reaches as [params.arguments]. *)
Definition with_arguments (request args : value) : value :=
  set_prop request "params" (set_prop (prop request "params") "arguments" args).

(** [{...request, __securityViolation: true, __errorMessage: message}]. *)
Definition violation (request : value) (message : string) : value :=
  VObj (assoc_set (assoc_set (spread request) "__securityViolation" (VBool true))
                  "__errorMessage" (VStr message)).

(** [pathSecurity.processRequest(request)].  On [null], reading
    [request.method] throws inside the [try]; the [catch] logs and the request
    is returned as it is.  The warning that is logged before a [paths] array
    is rejected has [args.paths.join(', ')] for its argument: when that
    throws, the [catch] returns the request, without a marker, as the check
    of [path] has left it. *)
Definition processRequest (cfg : Config) (request : value) : value :=
  if negb (String.eqb (serverName cfg) "filesystem") then request
  else if nullish request then request
  else if is_string (prop request "method") "tools/call"
          && String.eqb (typeof (prop (prop request "params") "arguments")) "object"
  then
    let '(args1, found1) := checkPath cfg (prop (prop request "params") "arguments") in
    match found1 with
    | Some message => violation (with_arguments request args1) message
    | None =>
        let '(args2, found2) := checkPaths cfg args1 in
        match found2 with
        | Some message =>
            if joinable (prop args1 "paths")
            then violation (with_arguments request args2) message
            else with_arguments request args1
        | None =>
            let '(args, found) :=
              and_then (checkEndpoint cfg "source" "Access denied to source path")
                       (checkEndpoint cfg "destination"
                                      "Access denied to destination path") args2 in
            match found with
            | Some message => violation (with_arguments request args) message
            | None => with_arguments request args
            end
        end
    end
  else request.

End pathSecurity.

(** *** The function without its warning *)

(** What [pathSecurity.processRequest] would return if the warning about
    [paths] were not logged (or could not throw): the four checks in a row,
    and the marker whenever one of them fails.  It is not a function of the
    shim; statements use it to say what the warning changes. *)
Definition processRequestUnlogged (cfg : Config) (request : value) : value :=
  if negb (String.eqb (serverName cfg) "filesystem") then request
  else if nullish request then request
  else if is_string (prop request "method") "tools/call"
          && String.eqb (typeof (prop (prop request "params") "arguments")) "object"
  then
    let '(args, found) :=
      pathSecurity.checkArguments cfg (prop (prop request "params") "arguments") in
    match found with
    | Some message => pathSecurity.violation (pathSecurity.with_arguments request args) message
    | None => pathSecurity.with_arguments request args
    end
  else request.

(* ===================================================================== *)
(** ** MCP Request Processing *)
(* ===================================================================== *)

(** [createErrorResponse(id, code, message)]. *)
Definition createErrorResponse (id : value) (code : Z) (message : value) : value :=
  VObj [ ("jsonrpc", VStr "2.0");
         ("id", id);
         ("error", VObj [ ("code", VNum code); ("message", message) ]) ].

(** [if (cacheKey)]: [null] and the empty string are falsy. *)
Definition usable (cacheKey : option string) : option string :=
  match cacheKey with
  | Some key => if String.eqb key "" then None else Some key
  | None => None
  end.

Section Forwarder.

Variable cfg : Config.

Definition proxyEndpoint : string := proxyUrl cfg +:+ "/" +:+ serverName cfg.

Definition headers : list (string * string) :=
  ("Content-Type", "application/json")
  :: (if String.eqb (apiKey cfg) "" then []
      else [("Authorization", "Bearer " +:+ apiKey cfg)]).

(** The backoff delay after a failed [attempt],
    [Math.min(CONFIG.retryMaxDelayMs,
              CONFIG.retryInitialDelayMs * Math.pow(2, attempt)
              * (0.9 + Math.random() * 0.2))],
    [random] being the value of [Math.random()]. *)
Definition backoffDelay (attempt : Z) (random : Q) : Number.t :=
  Number.min
    (Number.ofZ (retryMaxDelayMs cfg))
    (Number.mul
       (Number.mul (Number.ofZ (retryInitialDelayMs cfg)) (Number.pow2 attempt))
       (Number.add (Number.literal (9 # 10))
                   (Number.mul (Number.Finite random) (Number.literal (2 # 10))))).

(** [new Error(`HTTP error ${response.status}: ${errorText}`)]. *)
Definition httpError (r : response) (errorText : string) : error :=
  Error "Error" ("HTTP error " +:+ num_to_string (status r) +:+ ": " +:+ errorText).

(** The response once the retry loop is left without success. *)
Definition unreachable (request : value) (lastError : option error) : value :=
  createErrorResponse (prop request "id") (-32003)
    (VStr ("Failed to communicate with MCP proxy: " +:+
           match lastError with
           | Some e => if String.eqb (message e) "" then "Unknown error" else message e
           | None => "Unknown error"
           end)).

Definition timedOut (request : value) : value :=
  createErrorResponse (prop request "id") (-32000)
    (VStr ("Request timed out after " +:+ num_to_string (timeout cfg) +:+ "ms")).

(** The [try] block of one attempt up to [responseData]: the error it throws
    or the parsed body.  Reading [responseData.id] for the debug log throws on
    [null]. *)
Definition attemptOnce (body : string) : prog (error + value) :=
  let* fetched := trigger (Fetch proxyEndpoint headers body (timeout cfg)) in
  match fetched with
  | inl e => Ret (inl e)
  | inr response =>
      if negb (ok response) then
        let* text := trigger (ResponseText response) in
        match text with
        | inl e => Ret (inl e)
        | inr errorText => Ret (inl (httpError response errorText))
        end
      else
        let* parsed := trigger (ResponseJson response) in
        match parsed with
        | inl e => Ret (inl e)
        | inr responseData =>
            if nullish responseData
            then Ret (inl (TypeError "Cannot read properties of null (reading 'id')"))
            else Ret (inr responseData)
        end
  end.

(** The retry loop, [remaining] iterations before [attempt <= maxRetries]
    fails: it is entered with [attempt = 0] and
    [remaining = maxRetries + 1] (none when that is negative). *)
Fixpoint retryLoop (request : value) (body : string) (cacheKey : option string)
         (remaining : nat) (attempt : Z) (lastError : option error) (st : Store)
  : prog (completion value * Store) :=
  match remaining with
  | O => Ret (Normal (unreachable request lastError), st)
  | S remaining' =>
      let* outcome := attemptOnce body in
      match outcome with
      | inr responseData =>
          match (if truthy (prop responseData "error") then None else usable cacheKey) with
          | Some key =>
              let* st' := cache.set cfg key responseData st in
              Ret (Normal responseData, st')
          | None => Ret (Normal responseData, st)
          end
      | inl error =>
          if String.eqb (name error) "AbortError" then
            Ret (Normal (timedOut request), st)
          else if maxRetries cfg <=? attempt then
            Ret (Normal (unreachable request (Some error)), st)
          else
            let* random := trigger MathRandom in
            let* _ := trigger (SetTimeout (backoffDelay attempt random)) in
            retryLoop request body cacheKey remaining' (attempt + 1) (Some error) st
      end
  end.

(** The cache lookup of [forwardToProxy]: the cached response, if any. *)
Definition lookup (cacheKey : option string) (st : Store)
  : prog (option value * Store) :=
  match usable cacheKey with
  | Some key =>
      let* (cachedResponse, st') := cache.get cfg key st in
      Ret (if truthy cachedResponse then Some cachedResponse else None, st')
  | None => Ret (None, st)
  end.

(** The two rate-limiting statements of [forwardToProxy]: the check, and the
    recording of the request when the check lets it pass.  The flag says
    whether the limit was exceeded. *)
Definition throttle (st : Store) : prog (bool * Store) :=
  let* (exceeded, st1) := rateLimit.isLimitExceeded cfg st in
  if (exceeded : bool) then Ret (true, st1)
  else
    let* st2 := rateLimit.addRequest st1 in
    Ret (false, st2).


(** [forwardToProxy(request)].  On [null], reading
    [request.__securityViolation] throws. *)
Definition forwardToProxy (request : value) (st : Store)
  : prog (completion value * Store) :=
  if nullish request then
    Ret (Throw (TypeError
                  "Cannot read properties of null (reading '__securityViolation')"), st)
  else if truthy (prop request "__securityViolation") then
    Ret (Normal (createErrorResponse (prop request "id") (-32600)
                   (or_else (prop request "__errorMessage")
                            (VStr "Security violation detected"))), st)
  else
    let body := template (stringify request) in
    let requestSize := byteLength body in
    if maxRequestSize cfg <? requestSize then
      Ret (Normal (createErrorResponse (prop request "id") (-32600)
                     (VStr ("Request too large (" +:+ num_to_string requestSize
                            +:+ " bytes)"))), st)
    else
      let* (exceeded, st1) := rateLimit.isLimitExceeded cfg st in
      if (exceeded : bool) then
        Ret (Normal (createErrorResponse (prop request "id") (-32029)
                       (VStr "Rate limit exceeded")), st1)
      else
        let* st2 := rateLimit.addRequest st1 in
        match cache.createKey request with
        | Throw e => Ret (Throw e, st2)
        | Normal cacheKey =>
            let* (cached, st3) := lookup cacheKey st2 in
            match cached with
            | Some cachedResponse =>
                Ret (Normal (VObj (assoc_set (spread cachedResponse) "id"
                                             (prop request "id"))), st3)
            | None =>
                retryLoop request body cacheKey
                          (Z.to_nat (maxRetries cfg + 1)) 0 None st3
            end
        end.

(* ===================================================================== *)
(** ** The line handler *)
(* ===================================================================== *)

(** The [catch] of the line handler. *)
Definition parseError (e : error) : value :=
  VObj [ ("jsonrpc", VStr "2.0");
         ("id", VNull);
         ("error", VObj [ ("code", VNum (-32700));
                          ("message", VStr ("Parse error: " +:+ message e)) ]) ].

Definition print (v : value) : prog unit :=
  trigger (ConsoleLog (template (stringify v))).

(** [rl.on('line', ...)]: the handler of one input line. *)
Definition onLine (line : string) (st : Store) : prog Store :=
  if maxRequestSize cfg <? strlen line then
    let* _ := print (createErrorResponse VNull (-32600) (VStr "Request too large")) in
    Ret st
  else
    let* parsed := trigger (JSONParse line) in
    match parsed with
    | inl e => let* _ := print (parseError e) in Ret st
    | inr request =>
        let secureRequest := pathSecurity.processRequest cfg request in
        let* (response, st') := forwardToProxy secureRequest st in
        match response with
        | Normal response => let* _ := print response in Ret st'
        | Throw e => let* _ := print (parseError e) in Ret st'
        end
    end.

(** The lines of the input, each handled to its end before the next one is
    read (the schedule in which no two handlers overlap). *)
Fixpoint onLines (lines : list string) (st : Store) : prog Store :=
  match lines with
  | [] => Ret st
  | line :: rest => let* st' := onLine line st in onLines rest st'
  end.

End Forwarder.

(* ===================================================================== *)
(** ** Scripted environments *)
(* ===================================================================== *)

(** An environment that answers from scripts: the clock advances by [tick]
    at each reading; fetches, bodies, random numbers and parses are taken from
    lists in order, with a fixed answer once a list is used up. *)
Module Script.

Record world : Type := World {
  clock : Z;
  tick : Z;
  fetches : list (error + response);
  texts : list (error + string);
  jsons : list (error + value);
  randoms : list Q;
  parses : list (error + value)
}.

Definition refused : error := Error "FetchError" "connect ECONNREFUSED".
Definition badJson : error := Error "SyntaxError" "Unexpected end of JSON input".
Definition aborted : error := Error "AbortError" "The user aborted a request.".

Definition pop {A : Type} (dflt : A) (l : list A) : A * list A :=
  match l with
  | [] => (dflt, [])
  | x :: l' => (x, l')
  end.

Definition answer : handler world := fun X e =>
  match e in event T return world -> T * world with
  | DateNow => fun w =>
      (clock w, World (clock w + tick w) (tick w) (fetches w) (texts w) (jsons w)
                      (randoms w) (parses w))
  | MathRandom => fun w =>
      let '(r, l) := pop (1 # 2) (randoms w) in
      (r, World (clock w) (tick w) (fetches w) (texts w) (jsons w) l (parses w))
  | Fetch _ _ _ _ => fun w =>
      let '(r, l) := pop (inl refused) (fetches w) in
      (r, World (clock w) (tick w) l (texts w) (jsons w) (randoms w) (parses w))
  | ResponseText _ => fun w =>
      let '(r, l) := pop (inr EmptyString) (texts w) in
      (r, World (clock w) (tick w) (fetches w) l (jsons w) (randoms w) (parses w))
  | ResponseJson _ => fun w =>
      let '(r, l) := pop (inl badJson) (jsons w) in
      (r, World (clock w) (tick w) (fetches w) (texts w) l (randoms w) (parses w))
  | SetTimeout _ => fun w => (tt, w)
  | JSONParse _ => fun w =>
      let '(r, l) := pop (inl badJson) (parses w) in
      (r, World (clock w) (tick w) (fetches w) (texts w) (jsons w) (randoms w) l)
  | ConsoleLog _ => fun w => (tt, w)
  end.

(** A proxy that cannot be reached. *)
Definition offline : world := World 1000 1 [] [] [] [] [].

(** A proxy that answers the first fetch with status 200 and body [v]. *)
Definition answering (v : value) : world :=
  World 1000 1 [inr (Response 200)] [] [inr v] [] [].

End Script.

(** *** An environment with a clock *)

(** An environment in which the upstream calls take time.  A [fetch] is
    given a timer: when the status and the headers of the response have not
    arrived as the timer fires, the call is aborted and [fetch] throws an
    [AbortError]; otherwise [fetch] returns the response, and the timer,
    which the forwarder clears at once, plays no part in the reading of the
    body. *)
Module Timed.

(** An upstream call: the milliseconds until its status and headers arrive,
    the status, the milliseconds its body takes from then on, and the
    body. *)
Record exchange : Type := Exchange {
  headersAfter : Z;
  answerStatus : Z;
  bodyAfter : Z;
  answerBody : value
}.


(** The clock, the calls to come, and the call whose body is to be read. *)
Record world : Type := World {
  clock : Z;
  upstream : list exchange;
  reading : option exchange
}.

(** What [fetch] comes to with a timer of [abortAfterMs]. *)
Definition fetched (abortAfterMs : Z) (call : option exchange) : error + response :=
  match call with
  | None => inl Script.refused
  | Some x =>
      if abortAfterMs <? headersAfter x then inl Script.aborted
      else inr (Response (answerStatus x))
  end.

(** The milliseconds that [setTimeout(f, ms)] waits. *)
Definition waited (ms : Number.t) : Z :=
  match ms with
  | Number.Finite q =>
      if Qle_bool 1 q && Qle_bool q (inject_Z 2147483647) then Qfloor q else 1
  | _ => 1
  end.

Definition answer : handler world := fun X e =>
  match e in event T return world -> T * world with
  | DateNow => fun w => (clock w, w)
  | MathRandom => fun w => (1 # 2, w)
  | Fetch _ _ _ abortAfterMs => fun w =>
      match upstream w with
      | [] => (fetched abortAfterMs None, w)
      | x :: rest =>
          (fetched abortAfterMs (Some x),
           if abortAfterMs <? headersAfter x
           then World (clock w + abortAfterMs) rest None
           else World (clock w + headersAfter x) rest (Some x))
      end
  | ResponseText _ => fun w =>
      match reading w with
      | Some x =>
          (inr (template (stringify (answerBody x))),
           World (clock w + bodyAfter x) (upstream w) None)
      | None => (inl Script.badJson, w)
      end
  | ResponseJson _ => fun w =>
      match reading w with
      | Some x => (inr (answerBody x), World (clock w + bodyAfter x) (upstream w) None)
      | None => (inl Script.badJson, w)
      end
  | SetTimeout ms => fun w => (tt, World (clock w + waited ms) (upstream w) (reading w))
  | JSONParse _ => fun w => (inl Script.badJson, w)
  | ConsoleLog _ => fun w => (tt, w)
  end.

End Timed.

(* ===================================================================== *)
(** ** Notions of the statements *)
(* ===================================================================== *)

(** Equality of two JSON values as structures, the order of the keys of an
    object left aside (the specification's reading of "structurally equal";
    it is not part of the shim). *)
Fixpoint structurallyEqual (a b : value) : bool :=
  match a, b with
  | VUndefined, VUndefined => true
  | VNull, VNull => true
  | VBool x, VBool y => Bool.eqb x y
  | VNum x, VNum y => (x =? y)
  | VStr x, VStr y => String.eqb x y
  | VArr xs, VArr ys =>
      (fix items (l : list value) (m : list value) : bool :=
         match l, m with
         | [], [] => true
         | x :: l', y :: m' => structurallyEqual x y && items l' m'
         | _, _ => false
         end) xs ys
  | VObj ps, VObj qs =>
      (List.length ps =? List.length qs)%nat
      && (fix members (l : list (string * value)) : bool :=
            match l with
            | [] => true
            | (k, x) :: l' =>
                has_key k qs && structurallyEqual x (assoc k qs) && members l'
            end) ps
  | _, _ => false
  end.

(** A segment that [normalizeString] keeps: not empty, and not starting
    with the separator. *)
Definition keptSegment (seg : string) : Prop :=
  seg <> "" /\ Path.isAbsolute seg = false.

(** The value is an object. *)
Definition is_object (v : value) : Prop := exists ps, v = VObj ps.

(** The request is neither [null] nor marked, and is not too large. *)
Definition forwardable (cfg : Config) (request : value) : Prop :=
  nullish request = false
  /\ truthy (prop request "__securityViolation") = false
  /\ (maxRequestSize cfg <? byteLength (template (stringify request))) = false.

(** The request carries the security-violation marker. *)
Definition marked (request : value) : Prop :=
  truthy (prop request "__securityViolation") = true.

(** The reason a marked request carries, as [forwardToProxy] reads it. *)
Definition reason (request : value) : value := prop request "__errorMessage".

Definition errorCode (response : value) : value := prop (prop response "error") "code".
Definition errorMessage (response : value) : value :=
  prop (prop response "error") "message".

(** The clock readings of a run. *)
Definition readings (t : list obs) : list Z :=
  flat_map (fun o => match o with ONow now => [now] | _ => [] end) t.


(** The event is a clock reading. *)
Definition is_reading (o : obs) : bool :=
  match o with ONow _ => true | _ => false end.

(** A stretch of a run with clock readings only. *)
Definition quiet (t : list obs) : Prop := forallb is_reading t = true.

(** The parsed body of the 2xx response that the run took as its
    [responseData], if it read one. *)
Fixpoint body_of (t : list obs) : option value :=
  match t with
  | [] => None
  | OJson _ (inr responseData) :: t' =>
      if nullish responseData then body_of t' else Some responseData
  | _ :: t' => body_of t'
  end.

(** The HTTP attempts of a run. *)
Definition attempts (t : list obs) : nat :=
  List.length (List.filter (fun o => match o with OFetch _ _ _ _ _ => true | _ => false end) t).

(** The values of [Math.random()] in a run. *)
Definition randoms (t : list obs) : list Q :=
  flat_map (fun o => match o with ORandom r => [r] | _ => [] end) t.

(** The attempts and the waits of a run, in order. *)
Inductive tick : Type :=
| Post
| Pause (ms : Number.t).

Definition schedule (t : list obs) : list tick :=
  flat_map (fun o => match o with
                     | OFetch _ _ _ _ _ => [Post]
                     | OWait ms => [Pause ms]
                     | _ => []
                     end) t.

(** The jitter factor of the specification for the value [random] of
    [Math.random()]: [0.9 + random * 0.2], in the arithmetic of doubles. *)
Definition jitterFactor (random : Q) : Number.t :=
  Number.add (Number.literal (9 # 10))
             (Number.mul (Number.Finite random) (Number.literal (2 # 10))).

(** The wait of the specification after the failed [attempt]:
    [min(maxDelay, initialDelay * 2^attempt * jitterFactor)], in the
    arithmetic of doubles. *)
Definition delayFormula (maxDelay initialDelay attempt : Z) (jitter : Number.t)
  : Number.t :=
  Number.min (Number.ofZ maxDelay)
             (Number.mul (Number.mul (Number.ofZ initialDelay) (Number.pow2 attempt))
                         jitter).

(** Attempts from [attempt] on, one more after each wait; the waits are
    those of [delayFormula] for the random values [rs]. *)
Fixpoint backoffSchedule (cfg : Config) (attempt : Z) (rs : list Q) : list tick :=
  match rs with
  | [] => [Post]
  | r :: rs' =>
      Post
      :: Pause (delayFormula (retryMaxDelayMs cfg) (retryInitialDelayMs cfg) attempt
                             (jitterFactor r))
      :: backoffSchedule cfg (attempt + 1) rs'
  end.

(** The number lies between the doubles [0.9] and [1.1]:
    [0.9 <= x && x <= 1.1]. *)
Definition withinJitter (x : Number.t) : Prop :=
  Number.leb (Number.literal (9 # 10)) x = true
  /\ Number.leb x (Number.literal (11 # 10)) = true.

Definition is_abort (e : error) : bool := String.eqb (name e) "AbortError".

(** The event is no success and no abort: a [fetch] is answered with a
    transport error other than the abort of the timeout, or with a status
    outside 2xx; the reading of the error text does not end in that abort.
    Every other event passes. *)
Definition fails (o : obs) : bool :=
  match o with
  | OFetch _ _ _ _ (inl e) => negb (is_abort e)
  | OFetch _ _ _ _ (inr r) => negb (ok r)
  | OText _ (inl e) => negb (is_abort e)
  | _ => true
  end.

(** The error the [catch] of the retry loop saw last, [last] being the one
    before the run: what a [fetch] or a body reader threw, or, after a status
    outside 2xx, the error with the message [HTTP error <status>: <text>]. *)
Fixpoint lastThrown (t : list obs) (last : option error) : option error :=
  match t with
  | [] => last
  | o :: t' =>
      lastThrown t'
        match o with
        | OFetch _ _ _ _ (inl e) => Some e
        | OText _ (inl e) => Some e
        | OText r (inr errorText) =>
            Some (Error "Error" ("HTTP error " +:+ num_to_string (status r) +:+ ": "
                                 +:+ errorText))
        | OJson _ (inl e) => Some e
        | OJson _ (inr responseData) =>
            if nullish responseData
            then Some (TypeError "Cannot read properties of null (reading 'id')")
            else last
        | _ => last
        end
  end.





(** The text written for an oversized line. *)
Definition tooLargeText : string :=
  json_text "{'jsonrpc':'2.0','id':null,'error':{'code':-32600,'message':'Request too large'}}".

(** *** The runs of the retry loop as a relation *)

Section LoopRuns.

Variable cfg : Config.
Variables (request : value) (body : string) (cacheKey : option string).

Definition posted (answer : error + response) : obs :=
  OFetch (proxyEndpoint cfg) (headers cfg) body (timeout cfg) answer.

(** The events of one attempt and what its [try] block comes to. *)
Inductive attempt_of : list obs -> error + value -> Prop :=
| attempt_rejected e :
    attempt_of [posted (inl e)] (inl e)
| attempt_status r e :
    ok r = false ->
    attempt_of [posted (inr r); OText r (inl e)] (inl e)
| attempt_status_text r errorText :
    ok r = false ->
    attempt_of [posted (inr r); OText r (inr errorText)] (inl (httpError r errorText))
| attempt_unparsed r e :
    ok r = true ->
    attempt_of [posted (inr r); OJson r (inl e)] (inl e)
| attempt_null r responseData :
    ok r = true -> nullish responseData = true ->
    attempt_of [posted (inr r); OJson r (inr responseData)]
               (inl (TypeError "Cannot read properties of null (reading 'id')"))
| attempt_parsed r responseData :
    ok r = true -> nullish responseData = false ->
    attempt_of [posted (inr r); OJson r (inr responseData)] (inr responseData).

(** The events of [cache.set] and the store it leaves. *)
Inductive stored (key : string) (v : value) (st : Store) : list obs -> Store -> Prop :=
| stored_off : responseCache cfg = false -> stored key v st [] st
| stored_on now :
    responseCache cfg = true ->
    stored key v st [ONow now]
      (with_entries st
         (<[key := {| entry_value := v; expiry := now + cacheTTLMs cfg |}]> (entries st))).

(** The runs of [retryLoop] with [remaining] turns left: events and result. *)
Inductive loop_of (st : Store)
  : nat -> Z -> option error -> list obs -> completion value * Store -> Prop :=
| loop_left attempt lastError :
    loop_of st O attempt lastError [] (Normal (unreachable request lastError), st)
| loop_returned remaining attempt lastError ta responseData :
    attempt_of ta (inr responseData) ->
    (if truthy (prop responseData "error") then None else usable cacheKey) = None ->
    loop_of st (S remaining) attempt lastError ta (Normal responseData, st)
| loop_cached remaining attempt lastError ta responseData key ts st' :
    attempt_of ta (inr responseData) ->
    (if truthy (prop responseData "error") then None else usable cacheKey) = Some key ->
    stored key responseData st ts st' ->
    loop_of st (S remaining) attempt lastError (ta ++ ts) (Normal responseData, st')
| loop_aborted remaining attempt lastError ta e :
    attempt_of ta (inl e) ->
    is_abort e = true ->
    loop_of st (S remaining) attempt lastError ta (Normal (timedOut cfg request), st)
| loop_exhausted remaining attempt lastError ta e :
    attempt_of ta (inl e) ->
    is_abort e = false ->
    maxRetries cfg <= attempt ->
    loop_of st (S remaining) attempt lastError ta
            (Normal (unreachable request (Some e)), st)
| loop_retried remaining attempt lastError ta e random tr res :
    attempt_of ta (inl e) ->
    is_abort e = false ->
    attempt < maxRetries cfg ->
    loop_of st remaining (attempt + 1) (Some e) tr res ->
    loop_of st (S remaining) attempt lastError
            (ta ++ ORandom random :: OWait (backoffDelay cfg attempt random) :: tr) res.

End LoopRuns.

(** *** The settings read from the environment *)

(** [Number.MAX_SAFE_INTEGER]: up to it, [parseInt] is exact. *)
Definition maxSafeInteger : Z := 2 ^ 53 - 1.

(** The numeric settings: the variable, the field of [CONFIG] and the
    default. *)
Definition numericSettings : list (string * (Config -> Z) * Z) :=
  [ ("MCP_MAX_REQUEST_SIZE", maxRequestSize, 5 * 1024 * 1024);
    ("MCP_RATE_LIMIT", rateLimitPerMinute, 60);
    ("MCP_CACHE_TTL_MS", cacheTTLMs, 5 * 60 * 1000);
    ("MCP_TIMEOUT_MS", timeout, 30000);
    ("MCP_MAX_RETRIES", maxRetries, 3);
    ("MCP_RETRY_INITIAL_DELAY_MS", retryInitialDelayMs, 100);
    ("MCP_RETRY_MAX_DELAY_MS", retryMaxDelayMs, 5000) ].

(** The string does not hold the character. *)
Fixpoint lacks (c : ascii) (s : string) : bool :=
  match s with
  | EmptyString => true
  | String d s' => negb (Ascii.eqb d c) && lacks c s'
  end.

(** An entry that can be given in [MCP_ALLOWED_PATHS]: not empty, and
    without a comma. *)
Definition listable (entry : string) : Prop :=
  entry <> "" /\ lacks "," entry = true.

(** *** Lines of output *)

(** No character of the string is a control character (below the space):
    the string holds no line break. *)
Fixpoint printable (s : string) : bool :=
  match s with
  | EmptyString => true
  | String c s' => (32 <=? nat_of_ascii c)%nat && printable s'
  end.

(** *** The shape of a normalized path *)

(** The string holds no separator. *)
Fixpoint slashFree (s : string) : bool :=
  match s with
  | EmptyString => true
  | String c s' => negb (Ascii.eqb c Path.slash) && slashFree s'
  end.

(** A segment that names a file or a directory: not empty, not [.], not
    [..], and without a separator. *)
Definition plainSegment (seg : string) : Prop :=
  seg <> "" /\ seg <> "." /\ seg <> ".." /\ slashFree seg = true.

(** The kept segments of [normalizeString], last one first: plain segments,
    and below them, when the path may climb above its start, any number of
    [..]. *)
Definition normalStack (allowAboveRoot : bool) (stack : list string) : Prop :=
  exists plain climbs,
    stack = (plain ++ List.repeat ".." climbs)%list
    /\ Forall plainSegment plain
    /\ (allowAboveRoot = false -> climbs = O).

(** *** The runs of the forwarder as a relation *)

(** The request the [fetch] posts: the proxy endpoint, the configured
    headers and timeout, and the request as JSON. *)
Definition postedBy (cfg : Config) (request : value) (o : obs) : Prop :=
  match o with
  | OFetch url hs body ms _ =>
      url = proxyEndpoint cfg /\ hs = headers cfg
      /\ body = template (stringify request) /\ ms = timeout cfg
  | _ => True
  end.

(** The lines written to stdout in a run. *)
Definition prints (t : list obs) : list string :=
  flat_map (fun o => match o with OPrint text => [text] | _ => [] end) t.

(** The store once the limiter, asked at [now], has let a request pass and
    has recorded it at [now']. *)
Definition recorded (st : Store) (now now' : Z) : Store :=
  with_requests st (rateLimit.recent now (requests st) ++ [now'])%list.

(** The limiter lets a request pass at [now]. *)
Definition passes (cfg : Config) (st : Store) (now : Z) : Prop :=
  Z.of_nat (List.length (rateLimit.recent now (requests st))) < rateLimitPerMinute cfg.

Section ForwardRelation.

Variable cfg : Config.
Variable request : value.

(** The events of the cache lookup of [forwardToProxy] and what it comes to. *)
Inductive looked (cacheKey : option string) (st : Store)
  : list obs -> option value * Store -> Prop :=
| looked_no_key :
    usable cacheKey = None -> looked cacheKey st [] (None, st)
| looked_off key :
    usable cacheKey = Some key -> responseCache cfg = false ->
    looked cacheKey st [] (None, st)
| looked_absent key :
    usable cacheKey = Some key -> responseCache cfg = true ->
    entries st !! key = None ->
    looked cacheKey st [] (None, st)
| looked_expired key entry now :
    usable cacheKey = Some key -> responseCache cfg = true ->
    entries st !! key = Some entry -> expiry entry < now ->
    looked cacheKey st [ONow now] (None, with_entries st (delete key (entries st)))
| looked_valid key entry now :
    usable cacheKey = Some key -> responseCache cfg = true ->
    entries st !! key = Some entry -> now <= expiry entry ->
    looked cacheKey st [ONow now]
           (if truthy (entry_value entry) then Some (entry_value entry) else None, st).

(** The runs of [forwardToProxy]: events and result. *)
Inductive forward_of (st : Store) : list obs -> completion value * Store -> Prop :=
| forward_null :
    nullish request = true ->
    forward_of st []
      (Throw (TypeError "Cannot read properties of null (reading '__securityViolation')"),
       st)
| forward_marked :
    nullish request = false ->
    truthy (prop request "__securityViolation") = true ->
    forward_of st []
      (Normal (createErrorResponse (prop request "id") (-32600)
                 (or_else (prop request "__errorMessage")
                          (VStr "Security violation detected"))), st)
| forward_too_large :
    nullish request = false ->
    truthy (prop request "__securityViolation") = false ->
    maxRequestSize cfg < byteLength (template (stringify request)) ->
    forward_of st []
      (Normal (createErrorResponse (prop request "id") (-32600)
                 (VStr ("Request too large ("
                        +:+ num_to_string (byteLength (template (stringify request)))
                        +:+ " bytes)"))), st)
| forward_limited now :
    forwardable cfg request ->
    ~ passes cfg st now ->
    forward_of st [ONow now]
      (Normal (createErrorResponse (prop request "id") (-32029)
                 (VStr "Rate limit exceeded")),
       with_requests st (rateLimit.recent now (requests st)))
| forward_key_thrown now now' e :
    forwardable cfg request ->
    passes cfg st now ->
    cache.createKey request = Throw e ->
    forward_of st [ONow now; ONow now'] (Throw e, recorded st now now')
| forward_hit now now' cacheKey tl cachedResponse st3 :
    forwardable cfg request ->
    passes cfg st now ->
    cache.createKey request = Normal cacheKey ->
    looked cacheKey (recorded st now now') tl (Some cachedResponse, st3) ->
    forward_of st (ONow now :: ONow now' :: tl)
      (Normal (VObj (assoc_set (spread cachedResponse) "id" (prop request "id"))), st3)
| forward_posted now now' cacheKey tl st3 tp res :
    forwardable cfg request ->
    passes cfg st now ->
    cache.createKey request = Normal cacheKey ->
    looked cacheKey (recorded st now now') tl (None, st3) ->
    loop_of cfg request (template (stringify request)) cacheKey st3
            (Z.to_nat (maxRetries cfg + 1)) 0 None tp res ->
    forward_of st (ONow now :: ONow now' :: tl ++ tp) res.

End ForwardRelation.

(** *** Inputs of the examples *)

(** A call of the tool [read_file] on [path]. *)
Definition readRequest (id : Z) (path : string) : value :=
  VObj [ ("jsonrpc", VStr "2.0"); ("id", VNum id); ("method", VStr "tools/call");
         ("params", VObj [ ("name", VStr "read_file");
                           ("arguments", VObj [ ("path", VStr path) ]) ]) ].

(** A [resources/list] request with the given parameters. *)
Definition listRequest (id : Z) (params : value) : value :=
  VObj [ ("jsonrpc", VStr "2.0"); ("id", VNum id); ("method", VStr "resources/list");
         ("params", params) ].

(** A configuration with small limits, for examples. *)
Definition tight : Config := {|
  proxyUrl := "http://localhost:9876";
  serverName := "filesystem";
  apiKey := "secret";
  maxRequestSize := 200;
  rateLimitPerMinute := 2;
  allowedPaths := ["/srv/data"];
  responseCache := true;
  cacheTTLMs := 1000;
  timeout := 500;
  maxRetries := 2;
  retryInitialDelayMs := 100;
  retryMaxDelayMs := 150
|}.

(** A marked request whose reason is the empty string. *)
Definition emptyReason : value :=
  VObj [ ("jsonrpc", VStr "2.0"); ("id", VNum 1); ("method", VStr "ping");
         ("__securityViolation", VBool true); ("__errorMessage", VStr "") ].

(** A request rejected by the path sanitizer for the allow-list [/other]. *)
Definition deniedRequest : value :=
  pathSecurity.processRequest (with_allowedPaths defaults ["/other"])
    (readRequest 1 "/tmp/x").

(** A proxy answers the request with id 1 by a response with id 99: the
    forwarder returns it as it is. *)
Definition strayAnswer : value :=
  VObj [ ("jsonrpc", VStr "2.0"); ("id", VNum 99); ("result", VObj []) ].

(** A store that holds, under the key of [readRequest _ "/tmp/x"], a response
    that was given to a request with id 7. *)
Definition warmStore : Store := {|
  entries :=
    {[ "tools/call:" +:+ template (stringify (prop (readRequest 7 "/tmp/x") "params"))
       := {| entry_value :=
               VObj [ ("jsonrpc", VStr "2.0"); ("id", VNum 7);
                      ("result", VObj [ ("content", VStr "hi") ]) ];
             expiry := 5000 |} ]};
  requests := []
|}.

(** A proxy that refuses the first connection, then answers with the
    statuses 503, 500 and 502. *)
Definition failing : Script.world :=
  Script.World 1000 1
    [ inl Script.refused; inr (Response 503); inr (Response 500); inr (Response 502) ]
    [ inr "Service Unavailable"; inr "Internal Server Error"; inr "Bad Gateway" ]
    [] [3 # 8; 5 # 8; 0 # 1] [].



(** A call of the tool [write_file], and the answer of the proxy to it. *)
Definition writeRequest : value :=
  VObj [ ("jsonrpc", VStr "2.0"); ("id", VNum 1); ("method", VStr "tools/call");
         ("params", VObj [ ("name", VStr "write_file");
                           ("arguments", VObj [ ("path", VStr "/tmp/x");
                                                ("content", VStr "hi") ]) ]) ].

Definition written : value :=
  VObj [ ("jsonrpc", VStr "2.0"); ("id", VNum 1); ("result", VObj []) ].

(** A call of [move_file] whose [source] lies outside the allowed
    paths of [tight]. *)
Definition moveRequest : value :=
  VObj [ ("jsonrpc", VStr "2.0"); ("id", VNum 4); ("method", VStr "tools/call");
         ("params", VObj [ ("name", VStr "move_file");
                           ("arguments", VObj [ ("path", VStr "/srv/data/./a");
                                                ("source", VStr "/etc/passwd");
                                                ("destination", VStr "/srv/data/b") ]) ]) ].

(** A call of [read_multiple_files] whose [paths] holds a path outside the
    allowed paths of [tight] and an entry without a string form. *)
Definition unjoinableRequest : value :=
  VObj [ ("jsonrpc", VStr "2.0"); ("id", VNum 5); ("method", VStr "tools/call");
         ("params",
          VObj [ ("name", VStr "read_multiple_files");
                 ("arguments",
                  VObj [ ("paths", VArr [ VStr "/etc/passwd";
                                          VObj [ ("toString", VNum 1) ] ]) ]) ]) ].

(** A line of 201 characters, one more than [tight] lets through. *)
Definition longLine : string := string_of_list_ascii (repeat "a"%char 201).

(* ===================================================================== *)
(** ** The model on concrete inputs *)
(* ===================================================================== *)

Example stringify_request :
  stringify (VObj [("jsonrpc", VStr "2.0"); ("id", VNum 1); ("x", VUndefined);
                   ("a", VArr [VNull; VBool true; VUndefined])])
  = Some (json_text "{'jsonrpc':'2.0','id':1,'a':[null,true,null]}").
Proof. reflexivity. Qed.

Example normalize_dots : Path.normalize "/a/./b/../c//d/" = "/a/c/d/".
Proof. reflexivity. Qed.

Example normalize_above_root : Path.normalize "/a/../../etc/passwd" = "/etc/passwd".
Proof. reflexivity. Qed.

Example normalize_relative : Path.normalize "a/../../b" = "../b".
Proof. reflexivity. Qed.


(** The two end-to-end scenarios of the specification: the input line parses
    to [readRequest 1 "/tmp/x"]; with the allow-list [/tmp] the answer of the
    proxy is written as it came, with the allow-list [/other] the request is
    answered without any [fetch]. *)
Example line_allowed :
  trace_of (exec Script.answer
              (onLine (with_allowedPaths defaults ["/tmp"]) "(the input line)" empty_store)
              (Script.World 1000 1 [inr (Response 200)] []
                 [inr (VObj [ ("jsonrpc", VStr "2.0"); ("id", VNum 1);
                              ("result", VObj [ ("content", VStr "hi") ]) ])]
                 [] [inr (readRequest 1 "/tmp/x")]))
  = [ OParse "(the input line)" (inr (readRequest 1 "/tmp/x"));
      ONow 1000; ONow 1001;
      OFetch "http://localhost:9876/filesystem" [("Content-Type", "application/json")]
             (json_text "{'jsonrpc':'2.0','id':1,'method':'tools/call','params':{'name':'read_file','arguments':{'path':'/tmp/x'}}}")
             30000 (inr (Response 200));
      OJson (Response 200)
            (inr (VObj [ ("jsonrpc", VStr "2.0"); ("id", VNum 1);
                         ("result", VObj [ ("content", VStr "hi") ]) ]));
      ONow 1002;
      OPrint (json_text "{'jsonrpc':'2.0','id':1,'result':{'content':'hi'}}") ].
Proof. vm_compute. reflexivity. Qed.

Example line_denied :
  trace_of (exec Script.answer
              (onLine (with_allowedPaths defaults ["/other"]) "(the input line)"
                      empty_store)
              (Script.World 1000 1 [] [] [] [] [inr (readRequest 1 "/tmp/x")]))
  = [ OParse "(the input line)" (inr (readRequest 1 "/tmp/x"));
      OPrint (json_text
        "{'jsonrpc':'2.0','id':1,'error':{'code':-32600,'message':'Access denied to path: /tmp/x'}}") ].
Proof. vm_compute. reflexivity. Qed.

(** A request for [/etc/passwd] under the allow-list [/srv/data], with an
    entry of [paths] that has no string form: the warning throws, and the
    handler posts the request. *)
Example line_unjoinable :
  trace_of (exec Script.answer (onLine tight "(the input line)" empty_store)
              (Script.World 1000 1 [inr (Response 200)] [] [inr written] []
                 [inr unjoinableRequest]))
  = [ OParse "(the input line)" (inr unjoinableRequest);
      ONow 1000; ONow 1001;
      OFetch "http://localhost:9876/filesystem"
             [("Content-Type", "application/json"); ("Authorization", "Bearer secret")]
             (json_text "{'jsonrpc':'2.0','id':5,'method':'tools/call','params':{'name':'read_multiple_files','arguments':{'paths':['/etc/passwd',{'toString':1}]}}}")
             500 (inr (Response 200));
      OJson (Response 200) (inr written);
      ONow 1002;
      OPrint (json_text "{'jsonrpc':'2.0','id':1,'result':{}}") ].
Proof. vm_compute. reflexivity. Qed.

Example forward_offline_attempts :
  List.length
    (List.filter (fun o => match o with OFetch _ _ _ _ _ => true | _ => false end)
       (trace_of (exec Script.answer
                    (forwardToProxy defaults (readRequest 1 "/tmp/x") empty_store)
                    Script.offline))) = 4%nat.
Proof. reflexivity. Qed.

(* ===================================================================== *)
(** ** Properties of objects *)
(* ===================================================================== *)

Lemma assoc_set_same ps k v : assoc k (assoc_set ps k v) = v.
Proof.
  induction ps as [|[k' v'] ps IH]; simpl.
  - now rewrite String.eqb_refl.
  - destruct (String.eqb k k') eqn:E; simpl; rewrite E; auto.
Qed.

Lemma assoc_set_other ps k k' v :
  k <> k' -> assoc k' (assoc_set ps k v) = assoc k' ps.
Proof.
  intros Hne. induction ps as [|[k0 v0] ps IH]; simpl.
  - destruct (String.eqb k' k) eqn:E; auto.
    apply String.eqb_eq in E. congruence.
  - destruct (String.eqb k k0) eqn:E; simpl.
    + apply String.eqb_eq in E. subst k0.
      destruct (String.eqb k' k) eqn:E'; auto.
      apply String.eqb_eq in E'. congruence.
    + now rewrite IH.
Qed.

Lemma assoc_set_id ps k : has_key k ps = true -> assoc_set ps k (assoc k ps) = ps.
Proof.
  induction ps as [|[k' v'] ps IH]; simpl; [discriminate|].
  destruct (String.eqb k k') eqn:E; simpl; auto.
  intros H. now rewrite IH.
Qed.

Lemma prop_set_prop_other o k k' v : k <> k' -> prop (set_prop o k v) k' = prop o k'.
Proof. destruct o; simpl; auto. apply assoc_set_other. Qed.

Lemma prop_truthy_not_nullish v k : truthy (prop v k) = true -> nullish v = false.
Proof. destruct v; simpl; congruence. Qed.

(* ===================================================================== *)
(** ** The security-violation marker (C1) *)
(* ===================================================================== *)

(** C1 as stated fails: [emptyReason] carries the marker, and the message of
    the response is "Security violation detected", not the carried reason. *)
Lemma forward_marked_not_always_reason :
  ~ (forall cfg request st,
        marked request ->
        exists response,
          forwardToProxy cfg request st = Ret (Normal response, st)
          /\ errorCode response = VNum (-32600)
          /\ errorMessage response = reason request).
Proof.
  intros H.
  destruct (H defaults emptyReason empty_store eq_refl) as (response & Hrun & _ & Hmsg).
  injection Hrun as <-. discriminate Hmsg.
Qed.

(** C1, amended: for every request carrying the security-violation marker,
    [forwardToProxy] returns at once, with no event at all (no HTTP attempt,
    no clock reading) and with the store as it was (no cache lookup or store,
    no timestamp recorded or dropped in the rate limiter), the error response
    with the request's id, code -32600 and, as its message, the carried reason
    when that is truthy and "Security violation detected" otherwise. *)
Theorem forward_marked_short_circuit cfg request st :
  marked request ->
  let answered :=
    createErrorResponse (prop request "id") (-32600)
      (if truthy (reason request) then reason request
       else VStr "Security violation detected") in
  forwardToProxy cfg request st = Ret (Normal answered, st)
  /\ errorCode answered = VNum (-32600)
  /\ (forall W (h : handler W) (w : W),
         exec h (forwardToProxy cfg request st) w = ([], (Normal answered, st), w)).
Proof.
  intros Hm answered.
  assert (Hrun : forwardToProxy cfg request st = Ret (Normal answered, st)).
  { unfold forwardToProxy. rewrite (prop_truthy_not_nullish _ _ Hm).
    unfold marked in Hm. now rewrite Hm. }
  split; [exact Hrun|]. split; [reflexivity|].
  intros W h w. now rewrite Hrun.
Qed.

Lemma forward_marked_short_circuit_witness :
  marked deniedRequest
  /\ forwardToProxy defaults deniedRequest empty_store
     = Ret (Normal (createErrorResponse (VNum 1) (-32600)
                      (VStr "Access denied to path: /tmp/x")), empty_store).
Proof.
  split; [reflexivity|].
  exact (proj1 (forward_marked_short_circuit defaults deniedRequest empty_store eq_refl)).
Defined.

(** The reasons that [processRequest] attaches are returned as they are. *)
Lemma forward_violation cfg ps message st :
  message <> "" ->
  forwardToProxy cfg (pathSecurity.violation (VObj ps) message) st
  = Ret (Normal (createErrorResponse (assoc "id" ps) (-32600) (VStr message)), st).
Proof.
  intros Hne. unfold forwardToProxy, pathSecurity.violation. simpl nullish. cbv iota.
  unfold prop, spread.
  rewrite assoc_set_other by discriminate. rewrite assoc_set_same. simpl truthy. cbv iota.
  rewrite assoc_set_same.
  rewrite !assoc_set_other by discriminate.
  unfold or_else. simpl truthy.
  destruct (String.eqb message "") eqn:E; [apply String.eqb_eq in E; contradiction|].
  reflexivity.
Qed.

(* ===================================================================== *)
(** ** Strings and paths *)
(* ===================================================================== *)

Lemma append_cons c (s t : string) : String c s +:+ t = String c (s +:+ t).
Proof. reflexivity. Qed.

Lemma append_assoc (s t u : string) : (s +:+ t) +:+ u = s +:+ t +:+ u.
Proof.
  induction s as [|c s IH]; [reflexivity|].
  rewrite !append_cons. now rewrite IH.
Qed.

Lemma startsWith_spec hay needle :
  startsWith hay needle = true <-> exists rest, hay = needle +:+ rest.
Proof.
  unfold startsWith. revert hay.
  induction needle as [|c needle IH]; intros hay.
  - split; [intros _; now exists hay | intros _; now destruct hay].
  - destruct hay as [|d hay]; simpl.
    + split; [discriminate | intros [rest H]; discriminate].
    + destruct (ascii_dec c d) as [->|Hne].
      * rewrite IH. split; intros [rest H]; exists rest; [now rewrite H | now injection H].
      * split; [discriminate | intros [rest H]; injection H; congruence].
Qed.

Lemma includes_unfold hay needle :
  includes hay needle =
  if startsWith hay needle then true
  else match hay with
       | EmptyString => false
       | String _ hay' => includes hay' needle
       end.
Proof. now destruct hay. Qed.

Lemma includes_spec hay needle :
  includes hay needle = true <-> exists before after, hay = before +:+ needle +:+ after.
Proof.
  induction hay as [|c hay IH]; rewrite includes_unfold.
  - destruct (startsWith "" needle) eqn:E.
    + split; [intros _ | intros _; reflexivity].
      apply startsWith_spec in E. destruct E as [rest E].
      now exists "", rest.
    + split; [discriminate|]. intros (before & after & H).
      destruct before; simpl in H; [|discriminate].
      assert (startsWith "" needle = true) by (apply startsWith_spec; eauto).
      congruence.
  - destruct (startsWith (String c hay) needle) eqn:E.
    + split; [intros _ | intros _; reflexivity].
      apply startsWith_spec in E. destruct E as [rest E].
      now exists "", rest.
    + rewrite IH. split.
      * intros (before & after & H). exists (String c before), after. simpl. now rewrite H.
      * intros (before & after & H). destruct before as [|d before]; simpl in H.
        -- assert (startsWith (String c hay) needle = true) by (apply startsWith_spec; eauto).
           congruence.
        -- injection H as _ H. eauto.
Qed.

Module PathFacts.
Import Path.

Lemma split_heads p : Forall (fun seg => isAbsolute seg = false) (split p).
Proof.
  induction p as [|c p IH]; simpl.
  - repeat constructor.
  - destruct (Ascii.eqb c slash) eqn:E.
    + constructor; [reflexivity | exact IH].
    + destruct (split p) as [|s rest]; inversion IH; subst; constructor; simpl; auto.
Qed.

Lemma step_kept allow stack seg :
  Forall keptSegment stack -> isAbsolute seg = false -> Forall keptSegment (step allow stack seg).
Proof.
  intros Hs Hseg. unfold step.
  destruct (String.eqb seg "") eqn:E0; simpl; [assumption|].
  assert (Hk : keptSegment seg).
  { split; [|assumption]. intros ->. discriminate. }
  destruct (String.eqb seg "."); simpl; [assumption|].
  destruct (String.eqb seg "..").
  - destruct stack as [|top rest].
    + destruct allow; repeat constructor; apply Hk.
    + destruct (String.eqb top "..").
      * destruct allow; [constructor|]; assumption.
      * now inversion Hs.
  - now constructor.
Qed.

Lemma fold_step_kept allow segs stack :
  Forall keptSegment stack -> Forall (fun seg => isAbsolute seg = false) segs ->
  Forall keptSegment (fold_left (step allow) segs stack).
Proof.
  revert stack. induction segs as [|seg segs IH]; intros stack Hs Hsegs; simpl.
  - assumption.
  - inversion Hsegs; subst. apply IH; [now apply step_kept | assumption].
Qed.

Lemma join_kept segs :
  Forall keptSegment segs -> isAbsolute (join sep segs) = false.
Proof.
  destruct segs as [|x segs]; [reflexivity|].
  intros H. inversion H as [|? ? [Hne Hx] _]; subst.
  destruct x as [|c x]; [contradiction|].
  destruct segs; simpl in *; assumption.
Qed.

Lemma normalizeString_relative p allow :
  isAbsolute (normalizeString p allow) = false.
Proof.
  unfold normalizeString. apply join_kept.
  apply Forall_rev. apply fold_step_kept; [constructor | apply split_heads].
Qed.

Lemma isAbsolute_app s t : s <> "" -> isAbsolute (s +:+ t) = isAbsolute s.
Proof. destruct s; [contradiction | reflexivity]. Qed.

(** Normalization keeps a path absolute or relative. *)
Lemma normalize_isAbsolute p : p <> "" -> isAbsolute (normalize p) = isAbsolute p.
Proof.
  intros Hp. unfold normalize.
  destruct (String.eqb p "") eqn:E; [apply String.eqb_eq in E; contradiction|].
  destruct (isAbsolute p) eqn:Habs; simpl negb.
  - destruct (String.eqb (normalizeString p false) ""); [reflexivity|].
    reflexivity.
  - destruct (String.eqb (normalizeString p true) "") eqn:Eq.
    + now destruct (endsWithSlash p).
    + assert (normalizeString p true <> "").
      { intros H. rewrite H in Eq. discriminate. }
      destruct (endsWithSlash p).
      * rewrite isAbsolute_app by assumption. apply normalizeString_relative.
      * apply normalizeString_relative.
Qed.

End PathFacts.

(* ===================================================================== *)
(** ** Path sanitation (C2) *)
(* ===================================================================== *)

Section SanitizePath.

Variable cfg : Config.

Lemma isAllowed_spec normalizedPath :
  pathSecurity.isAllowed cfg normalizedPath = true <->
  exists allowedPath,
    In allowedPath (allowedPaths cfg)
    /\ (normalizedPath = allowedPath
        \/ exists rest, normalizedPath = allowedPath +:+ Path.sep +:+ rest).
Proof.
  unfold pathSecurity.isAllowed. rewrite existsb_exists.
  split; intros (a & Hin & H); exists a; (split; [exact Hin|]).
  - apply orb_true_iff in H. destruct H as [H|H].
    + left. now apply String.eqb_eq.
    + right. apply startsWith_spec in H. destruct H as [rest H]. exists rest.
      rewrite H. apply append_assoc.
  - apply orb_true_iff. destruct H as [H|[rest H]].
    + left. now apply String.eqb_eq.
    + right. apply startsWith_spec. exists rest.
      rewrite H. symmetry. apply append_assoc.
Qed.

(** What [sanitizePath] does on a string, by cases. *)
Lemma sanitizePath_string rawPath :
  pathSecurity.sanitizePath cfg (VStr rawPath) =
  if Path.isAbsolute rawPath then
    match allowedPaths cfg with
    | [] => Some (Path.normalize rawPath)
    | _ :: _ =>
        if pathSecurity.isAllowed cfg (Path.normalize rawPath)
        then Some (Path.normalize rawPath) else None
    end
  else None.
Proof.
  unfold pathSecurity.sanitizePath. simpl truthy. simpl typeof.
  destruct (String.eqb rawPath "") eqn:E.
  - apply String.eqb_eq in E. now subst.
  - assert (Hne : rawPath <> "") by (intros ->; discriminate).
    simpl. rewrite (PathFacts.normalize_isAbsolute _ Hne).
    destruct (Path.isAbsolute rawPath); [|reflexivity].
    destruct (allowedPaths cfg); [reflexivity|]. simpl List.length.
    replace (0 <? Z.of_nat (S (List.length l))) with true by (symmetry; apply Z.ltb_lt; lia).
    now destruct (pathSecurity.isAllowed cfg (Path.normalize rawPath)).
Qed.

End SanitizePath.

(** C2: [sanitizePath] compares the normalized path: it returns that path or
    rejects; it rejects every path that is not absolute whatever the
    allow-list is; it accepts every absolute path when the allow-list is
    empty; with a non-empty allow-list it accepts an absolute path exactly when
    the normalized path is one of the prefixes or starts with a prefix followed
    by the separator.  With the allow-list [/a/b] (as the start-up leaves
    it), [/a/b] and [/a/b/c] are accepted and [/a/bc] is rejected. *)
Theorem sanitizePath_allow_list cfg rawPath :
  let normalized := Path.normalize rawPath in
  let sanitized := pathSecurity.sanitizePath cfg (VStr rawPath) in
  let listed := normalizeAllowedPaths (with_allowedPaths defaults ["/a/b"]) in
  (sanitized = None \/ sanitized = Some normalized)
  /\ (Path.isAbsolute rawPath = false -> sanitized = None)
  /\ (Path.isAbsolute normalized = false -> sanitized = None)
  /\ (Path.isAbsolute rawPath = true -> allowedPaths cfg = [] ->
      sanitized = Some normalized)
  /\ (Path.isAbsolute rawPath = true -> allowedPaths cfg <> [] ->
      (sanitized = Some normalized <->
       exists allowedPath,
         In allowedPath (allowedPaths cfg)
         /\ (normalized = allowedPath
             \/ exists rest, normalized = allowedPath +:+ Path.sep +:+ rest)))
  /\ pathSecurity.sanitizePath listed (VStr "/a/b") = Some "/a/b"
  /\ pathSecurity.sanitizePath listed (VStr "/a/b/c") = Some "/a/b/c"
  /\ pathSecurity.sanitizePath listed (VStr "/a/bc") = None.
Proof.
  intros normalized sanitized listed. subst sanitized normalized.
  rewrite sanitizePath_string.
  split; [|split; [|split; [|split; [|split; [|repeat split]]]]].
  - destruct (Path.isAbsolute rawPath); [|now left].
    destruct (allowedPaths cfg); [now right|].
    destruct (pathSecurity.isAllowed cfg _); [now right | now left].
  - now intros ->.
  - intros Hrel. destruct (Path.isAbsolute rawPath) eqn:Habs; [|reflexivity].
    rewrite PathFacts.normalize_isAbsolute in Hrel; [congruence|].
    intros ->. discriminate.
  - intros -> ->. reflexivity.
  - intros -> Hlist. rewrite <- isAllowed_spec.
    destruct (allowedPaths cfg); [contradiction|].
    destruct (pathSecurity.isAllowed cfg _); split; congruence.
Qed.

Lemma sanitizePath_allow_list_witness :
  pathSecurity.sanitizePath (with_allowedPaths defaults ["/a/b"]) (VStr "../etc") = None
  /\ pathSecurity.sanitizePath defaults (VStr "/a/../etc/") = Some "/etc/"
  /\ pathSecurity.sanitizePath (with_allowedPaths defaults ["/a/b"]) (VStr "/a/b/../b/c")
     = Some "/a/b/c".
Proof.
  split; [|split].
  - destruct (sanitizePath_allow_list (with_allowedPaths defaults ["/a/b"]) "../etc")
      as (_ & Hrelative & _).
    apply Hrelative. reflexivity.
  - destruct (sanitizePath_allow_list defaults "/a/../etc/") as (_ & _ & _ & Hopen & _).
    apply Hopen; reflexivity.
  - destruct (sanitizePath_allow_list (with_allowedPaths defaults ["/a/b"]) "/a/b/../b/c")
      as (_ & _ & _ & _ & Hlisted & _).
    apply Hlisted; [reflexivity | discriminate |].
    exists "/a/b". split; [now left|]. right. now exists "c".
Defined.

(* ===================================================================== *)
(** ** Runs *)
(* ===================================================================== *)

Section Runs.

Context {W : Type} (h : handler W).

Lemma exec_bind {A B : Type} (p : prog A) (f : A -> prog B) (w : W) :
  exec h (bind p f) w =
  let '(t1, a, w1) := exec h p w in
  let '(t2, b, w2) := exec h (f a) w1 in
  ((t1 ++ t2)%list, b, w2).
Proof.
  revert w. induction p as [a|X e k IH]; intros w; simpl.
  - now destruct (exec h (f a) w) as [[t2 b] w2].
  - destruct (h X e w) as [x w1]. rewrite IH.
    destruct (exec h (k x) w1) as [[t1 a] w2].
    now destruct (exec h (f a) w2) as [[t2 b] w3].
Qed.


End Runs.

(* ===================================================================== *)
(** ** The rate limiter (C7) *)
(* ===================================================================== *)


Lemma recent_length now l : (List.length (rateLimit.recent now l) <= List.length l)%nat.
Proof. apply filter_length_le. Qed.


Section Throttle.

Context (cfg : Config) {W : Type} (h : handler W).

(** One request through the limiter, in terms of its clock readings. *)
Lemma exec_throttle st w :
  let now := fst (h Z DateNow w) in
  let w1 := snd (h Z DateNow w) in
  let kept := rateLimit.recent now (requests st) in
  exec h (throttle cfg st) w =
  if rateLimitPerMinute cfg <=? Z.of_nat (List.length kept)
  then ([ONow now], (true, with_requests st kept), w1)
  else ([ONow now; ONow (fst (h Z DateNow w1))],
        (false, with_requests st (kept ++ [fst (h Z DateNow w1)])%list),
        snd (h Z DateNow w1)).
Proof.
  unfold throttle, rateLimit.isLimitExceeded, rateLimit.addRequest. simpl.
  destruct (h Z DateNow w) as [now w1]. simpl.
  destruct (rateLimitPerMinute cfg <=? _); simpl; [reflexivity|].
  now destruct (h Z DateNow w1) as [now' w2].
Qed.

End Throttle.

Section Issue.

Context (cfg : Config) {W : Type} (h : handler W).





End Issue.



(* ===================================================================== *)
(** ** Cache keys (C8) *)
(* ===================================================================== *)

(** C8 as stated fails: the two parameter objects below are equal as JSON
    structures and differ in the order of their keys, and the two requests get
    different cache keys. *)
Lemma createKey_depends_on_key_order :
  ~ (forall r1 r2 k1 k2,
        cache.createKey r1 = Normal (Some k1) ->
        cache.createKey r2 = Normal (Some k2) ->
        prop r1 "method" = prop r2 "method" ->
        structurallyEqual (prop r1 "params") (prop r2 "params") = true ->
        k1 = k2).
Proof.
  intros H.
  pose (p1 := VObj [("cursor", VNum 1); ("limit", VNum 2)]).
  pose (p2 := VObj [("limit", VNum 2); ("cursor", VNum 1)]).
  specialize (H (listRequest 1 p1) (listRequest 2 p2) _ _ eq_refl eq_refl eq_refl eq_refl).
  vm_compute in H. discriminate H.
Qed.

(** C8, amended: two requests with the same method and the same parameter
    value, the keys of every object in the same order, get the same cache key
    (or both none, or both the same error), whatever else they differ in, ids
    included. *)
Theorem createKey_same_method_params r1 r2 :
  prop r1 "method" = prop r2 "method" ->
  prop r1 "params" = prop r2 "params" ->
  cache.createKey r1 = cache.createKey r2.
Proof.
  intros Hm Hp. unfold cache.createKey, cache.isUncacheable. now rewrite Hm, Hp.
Qed.

Lemma createKey_same_method_params_witness :
  cache.createKey (readRequest 1 "/tmp/x") = cache.createKey (readRequest 2 "/tmp/x")
  /\ cache.createKey (readRequest 1 "/tmp/x")
     = Normal (Some (json_text
         "tools/call:{'name':'read_file','arguments':{'path':'/tmp/x'}}")).
Proof.
  split; [|reflexivity].
  apply (createKey_same_method_params (readRequest 1 "/tmp/x") (readRequest 2 "/tmp/x"));
    reflexivity.
Defined.

(* ===================================================================== *)
(** ** Runs of the forwarder *)
(* ===================================================================== *)

Section ForwarderRuns.

Context (cfg : Config) {W : Type} (h : handler W).

(** One attempt, by the answers of the environment. *)
Lemma exec_attemptOnce body w :
  exec h (attemptOnce cfg body) w =
  let fetch := Fetch (proxyEndpoint cfg) (headers cfg) body (timeout cfg) in
  let '(fetched, w1) := h _ fetch w in
  match fetched with
  | inl e => ([observe fetch (inl e)], inl e, w1)
  | inr response =>
      if ok response then
        let '(parsed, w2) := h _ (ResponseJson response) w1 in
        ([observe fetch (inr response); OJson response parsed],
         match parsed with
         | inl e => inl e
         | inr responseData =>
             if nullish responseData
             then inl (TypeError "Cannot read properties of null (reading 'id')")
             else inr responseData
         end, w2)
      else
        let '(text, w2) := h _ (ResponseText response) w1 in
        ([observe fetch (inr response); OText response text],
         match text with
         | inl e => inl e
         | inr errorText => inl (httpError response errorText)
         end, w2)
  end.
Proof.
  unfold attemptOnce. simpl.
  destruct (h _ (Fetch _ _ _ _) w) as [[e|response] w1]; simpl; [reflexivity|].
  destruct (ok response); simpl.
  - destruct (h _ (ResponseJson response) w1) as [[e|responseData] w2]; simpl;
      [reflexivity|]. now destruct (nullish responseData).
  - now destruct (h _ (ResponseText response) w1) as [[e|errorText] w2].
Qed.

Lemma exec_cache_set key v st w :
  exec h (cache.set cfg key v st) w =
  if responseCache cfg then
    let '(now, w1) := h _ DateNow w in
    ([ONow now],
     with_entries st (<[key := {| entry_value := v; expiry := now + cacheTTLMs cfg |}]>
                        (entries st)), w1)
  else ([], st, w).
Proof.
  unfold cache.set. destruct (responseCache cfg); simpl; [|reflexivity].
  now destruct (h _ DateNow w).
Qed.

(** One turn of the retry loop. *)
Lemma exec_retryLoop_S request body cacheKey remaining attempt lastError st w :
  exec h (retryLoop cfg request body cacheKey (S remaining) attempt lastError st) w =
  let '(ta, outcome, w1) := exec h (attemptOnce cfg body) w in
  match outcome with
  | inr responseData =>
      match (if truthy (prop responseData "error") then None else usable cacheKey) with
      | Some key =>
          let '(ts, st', w2) := exec h (cache.set cfg key responseData st) w1 in
          ((ta ++ ts)%list, (Normal responseData, st'), w2)
      | None => (ta, (Normal responseData, st), w1)
      end
  | inl error =>
      if String.eqb (name error) "AbortError" then
        (ta, (Normal (timedOut cfg request), st), w1)
      else if maxRetries cfg <=? attempt then
        (ta, (Normal (unreachable request (Some error)), st), w1)
      else
        let '(random, w2) := h _ MathRandom w1 in
        let '(_, w3) := h _ (SetTimeout (backoffDelay cfg attempt random)) w2 in
        let '(tr, res, w4) :=
          exec h (retryLoop cfg request body cacheKey remaining (attempt + 1)
                            (Some error) st) w3 in
        ((ta ++ ORandom random :: OWait (backoffDelay cfg attempt random) :: tr)%list,
         res, w4)
  end.
Proof.
  change (retryLoop cfg request body cacheKey (S remaining) attempt lastError st)
    with (let* outcome := attemptOnce cfg body in
          match outcome with
          | inr responseData =>
              match (if truthy (prop responseData "error") then None
                     else usable cacheKey) with
              | Some key =>
                  let* st' := cache.set cfg key responseData st in
                  Ret (Normal responseData, st')
              | None => Ret (Normal responseData, st)
              end
          | inl error =>
              if String.eqb (name error) "AbortError" then
                Ret (Normal (timedOut cfg request), st)
              else if maxRetries cfg <=? attempt then
                Ret (Normal (unreachable request (Some error)), st)
              else
                let* random := trigger MathRandom in
                let* _ := trigger (SetTimeout (backoffDelay cfg attempt random)) in
                retryLoop cfg request body cacheKey remaining (attempt + 1)
                          (Some error) st
          end).
  rewrite exec_bind.
  destruct (exec h (attemptOnce cfg body) w) as [[ta [error|responseData]] w1].
  - destruct (String.eqb (name error) "AbortError"); [simpl; now rewrite app_nil_r|].
    destruct (maxRetries cfg <=? attempt); [simpl; now rewrite app_nil_r|].
    simpl. destruct (h _ MathRandom w1) as [random w2].
    destruct (h _ (SetTimeout _) w2) as [[] w3].
    now destruct (exec h (retryLoop _ _ _ _ _ _ _ _) w3) as [[tr res] w4].
  - destruct (if truthy (prop responseData "error") then None else usable cacheKey).
    + rewrite exec_bind.
      destruct (exec h (cache.set cfg s responseData st) w1) as [[ts st'] w2].
      simpl. now rewrite app_nil_r.
    + simpl. now rewrite app_nil_r.
Qed.

End ForwarderRuns.

Section ForwardRuns.

Context (cfg : Config) {W : Type} (h : handler W).

Lemma exec_lookup cacheKey st w :
  exec h (lookup cfg cacheKey st) w =
  match usable cacheKey with
  | Some key =>
      if responseCache cfg then
        match entries st !! key with
        | Some entry =>
            let '(now, w1) := h _ DateNow w in
            if expiry entry <? now
            then ([ONow now], (None, with_entries st (delete key (entries st))), w1)
            else ([ONow now],
                  (if truthy (entry_value entry) then Some (entry_value entry) else None,
                   st), w1)
        | None => ([], (None, st), w)
        end
      else ([], (None, st), w)
  | None => ([], (None, st), w)
  end.
Proof.
  unfold lookup. destruct (usable cacheKey) as [key|]; [|reflexivity].
  rewrite exec_bind. unfold cache.get.
  destruct (responseCache cfg); simpl; [|reflexivity].
  destruct (entries st !! key) as [entry|]; simpl; [|reflexivity].
  destruct (h _ DateNow w) as [now w1].
  now destruct (expiry entry <? now).
Qed.

(** The stages of [forwardToProxy] on a forwardable cfg request. *)
Lemma exec_forward request st w :
  forwardable cfg request ->
  exec h (forwardToProxy cfg request st) w =
  let '(t1, (exceeded, st2), w2) := exec h (throttle cfg st) w in
  if (exceeded : bool) then
    (t1, (Normal (createErrorResponse (prop request "id") (-32029)
                    (VStr "Rate limit exceeded")), st2), w2)
  else
    match cache.createKey request with
    | Throw e => (t1, (Throw e, st2), w2)
    | Normal cacheKey =>
        let '(t2, (cached, st3), w3) := exec h (lookup cfg cacheKey st2) w2 in
        match cached with
        | Some cachedResponse =>
            ((t1 ++ t2)%list,
             (Normal (VObj (assoc_set (spread cachedResponse) "id" (prop request "id"))),
              st3), w3)
        | None =>
            let '(t3, res, w4) :=
              exec h (retryLoop cfg request (template (stringify request)) cacheKey
                                (Z.to_nat (maxRetries cfg + 1)) 0 None st3) w3 in
            ((t1 ++ t2 ++ t3)%list, res, w4)
        end
    end.
Proof.
  intros (Hnull & Hmark & Hsize).
  unfold forwardToProxy. rewrite Hnull, Hmark, Hsize.
  rewrite exec_throttle.
  unfold rateLimit.isLimitExceeded, rateLimit.addRequest. simpl.
  destruct (h _ DateNow w) as [now w1]. simpl.
  destruct (rateLimitPerMinute cfg <=? _); simpl; [reflexivity|].
  destruct (h _ DateNow w1) as [now' w2]. simpl.
  destruct (cache.createKey request) as [cacheKey|e]; simpl; [|reflexivity].
  rewrite exec_bind.
  destruct (exec h (lookup cfg cacheKey _) w2) as [[t2 [[cachedResponse|] st3]] w3];
    simpl.
  - now rewrite app_nil_r.
  - now destruct (exec h (retryLoop _ _ _ _ _ _ _ _) w3) as [[t3 res] w4].
Qed.

Lemma forwardable_or_not request : forwardable cfg request \/ ~ forwardable cfg request.
Proof.
  unfold forwardable.
  destruct (nullish request); [right; intros (H & _); discriminate|].
  destruct (truthy (prop request "__securityViolation"));
    [right; intros (_ & H & _); discriminate|].
  destruct (maxRequestSize cfg <? _); [right; intros (_ & _ & H); discriminate|].
  now left.
Qed.

(** What [forwardToProxy] does on a request that is not forwardable. *)
Lemma forward_local request :
  ~ forwardable cfg request ->
  exists res,
    (forall st, forwardToProxy cfg request st = Ret (res, st))
    /\ (forall response, res = Normal response ->
        exists message,
          response = createErrorResponse (prop request "id") (-32600) message).
Proof.
  intros Hnot. unfold forwardable in Hnot. unfold forwardToProxy.
  destruct (nullish request).
  - eexists. split; [reflexivity|]. discriminate.
  - destruct (truthy (prop request "__securityViolation")).
    + eexists. split; [reflexivity|]. intros response [= <-]. eauto.
    + destruct (maxRequestSize cfg <? _).
      * eexists. split; [reflexivity|]. intros response [= <-]. eauto.
      * exfalso. apply Hnot. auto.
Qed.

End ForwardRuns.

(* ===================================================================== *)
(** ** Reading a trace *)
(* ===================================================================== *)

Lemma quiet_app t1 t2 : quiet t1 -> quiet t2 -> quiet (t1 ++ t2).
Proof. unfold quiet. rewrite forallb_app. now intros -> ->. Qed.

Lemma body_of_quiet pre t : quiet pre -> body_of (pre ++ t) = body_of t.
Proof.
  unfold quiet. induction pre as [|o pre IH]; simpl; [reflexivity|].
  destruct o; simpl; try discriminate. exact IH.
Qed.

Lemma body_of_none_quiet t : quiet t -> body_of t = None.
Proof. intros H. rewrite <- (app_nil_r t). now rewrite body_of_quiet. Qed.

Section Quiet.

Context (cfg : Config) {W : Type} (h : handler W).

Lemma throttle_quiet st w : quiet (trace_of (exec h (throttle cfg st) w)).
Proof. rewrite exec_throttle. now destruct (rateLimitPerMinute cfg <=? _). Qed.

Lemma lookup_quiet cacheKey st w : quiet (trace_of (exec h (lookup cfg cacheKey st) w)).
Proof.
  rewrite exec_lookup. destruct (usable cacheKey); [|reflexivity].
  destruct (responseCache cfg); [|reflexivity].
  destruct (entries st !! s); [|reflexivity].
  destruct (h _ DateNow w). now destruct (expiry c <? z).
Qed.

End Quiet.

(* ===================================================================== *)
(** ** The runs of the retry loop as a relation *)
(* ===================================================================== *)

Section LoopRelation.

Variable cfg : Config.
Variables (request : value) (body : string) (cacheKey : option string).

Context {W : Type} (h : handler W).

Lemma attemptOnce_attempt_of w :
  let r := exec h (attemptOnce cfg body) w in
  attempt_of cfg body (trace_of r) (result_of r).
Proof.
  cbv zeta. rewrite exec_attemptOnce. cbv zeta.
  destruct (h _ (Fetch _ _ _ _) w) as [[e|response] w1]; [constructor|].
  destruct (ok response) eqn:Hok.
  - destruct (h _ (ResponseJson response) w1) as [[e|responseData] w2];
      [now constructor|].
    destruct (nullish responseData) eqn:Hnull; now constructor.
  - destruct (h _ (ResponseText response) w1) as [[e|errorText] w2]; now constructor.
Qed.

Lemma cache_set_stored key v st w :
  let r := exec h (cache.set cfg key v st) w in
  stored cfg key v st (trace_of r) (result_of r).
Proof.
  cbv zeta. rewrite exec_cache_set.
  destruct (responseCache cfg) eqn:Hon; [|now constructor].
  destruct (h _ DateNow w). now constructor.
Qed.

(** Every run of [retryLoop] is one of the relation. *)
Lemma retryLoop_loop_of remaining : forall attempt lastError st w,
  let r := exec h (retryLoop cfg request body cacheKey remaining attempt lastError st) w in
  loop_of cfg request body cacheKey st remaining attempt lastError (trace_of r) (result_of r).
Proof.
  induction remaining as [|remaining IH]; intros attempt lastError st w; cbv zeta.
  - constructor.
  - rewrite exec_retryLoop_S.
    pose proof (attemptOnce_attempt_of w) as Ha. cbv zeta in Ha.
    destruct (exec h (attemptOnce cfg body) w) as [[ta [e|responseData]] w1].
    + unfold trace_of, result_of in Ha. simpl in Ha.
      destruct (String.eqb (name e) "AbortError") eqn:Habort;
        [now apply loop_aborted with e|].
      destruct (maxRetries cfg <=? attempt) eqn:Hlast.
      * eapply loop_exhausted; [eassumption | assumption | now apply Z.leb_le].
      * destruct (h _ MathRandom w1) as [random w2].
        destruct (h _ (SetTimeout _) w2) as [[] w3].
        specialize (IH (attempt + 1) (Some e) st w3). cbv zeta in IH.
        destruct (exec h (retryLoop _ _ _ _ _ _ _ _) w3) as [[tr res] w4].
        eapply loop_retried; [eassumption | assumption | now apply Z.leb_gt | exact IH].
    + unfold trace_of, result_of in Ha. simpl in Ha.
      destruct (if truthy (prop responseData "error") then None else usable cacheKey)
        as [key|] eqn:Hkey.
      * pose proof (cache_set_stored key responseData st w1) as Hs. cbv zeta in Hs.
        destruct (exec h (cache.set cfg key responseData st) w1) as [[ts st'] w2].
        now apply loop_cached with key.
      * now apply loop_returned.
Qed.

End LoopRelation.

(* ===================================================================== *)
(** ** The id of a response (C3) *)
(* ===================================================================== *)

Section ResponseId.

Variable cfg : Config.
Variables (request : value) (body : string) (cacheKey : option string).

Lemma attempt_failed_body ta e t :
  attempt_of cfg body ta (inl e) -> body_of (ta ++ t) = body_of t.
Proof.
  intros Ha. inversion Ha; subst; simpl; try reflexivity.
  match goal with H : nullish _ = true |- _ => now rewrite H end.
Qed.

Lemma attempt_parsed_body ta responseData t :
  attempt_of cfg body ta (inr responseData) -> body_of (ta ++ t) = Some responseData.
Proof.
  intros Ha. inversion Ha; subst; simpl.
  match goal with H : nullish _ = false |- _ => now rewrite H end.
Qed.

(** The retry loop returns the body it read, if it read one, and a response
    of its own with the id of the request otherwise. *)
Lemma loop_body st remaining attempt lastError t res :
  loop_of cfg request body cacheKey st remaining attempt lastError t res ->
  match body_of t with
  | Some responseData => fst res = Normal responseData
  | None =>
      exists response,
        fst res = Normal response /\ prop response "id" = prop request "id"
  end.
Proof.
  induction 1 as [ | ? ? ? ta ? Ha | ? ? ? ta ? ? ? ? Ha | ? ? ? ta ? Ha
                 | ? ? ? ta ? Ha | ? ? ? ta ? ? ? ? Ha ? ? ? IH ].
  - simpl. eauto.
  - rewrite <- (app_nil_r ta). now rewrite (attempt_parsed_body _ _ _ Ha).
  - now rewrite (attempt_parsed_body _ _ _ Ha).
  - rewrite <- (app_nil_r ta). rewrite (attempt_failed_body _ _ _ Ha). simpl. eauto.
  - rewrite <- (app_nil_r ta). rewrite (attempt_failed_body _ _ _ Ha). simpl. eauto.
  - rewrite (attempt_failed_body _ _ _ Ha). exact IH.
Qed.

End ResponseId.

(** C3 as stated fails on a fresh response: the id is the one the proxy
    sent. *)
Lemma forward_fresh_id_not_checked :
  ~ (forall cfg (W : Type) (h : handler W) (w : W) request st response,
        fst (result_of (exec h (forwardToProxy cfg request st) w)) = Normal response ->
        prop response "id" = prop request "id").
Proof.
  intros H.
  specialize (H defaults _ Script.answer (Script.answering strayAnswer)
                (readRequest 1 "/tmp/x") empty_store strayAnswer eq_refl).
  discriminate H.
Qed.

(** C3, amended: when [forwardToProxy] yields a response and the run read no
    2xx body (the local error responses, a timeout or an unreachable proxy
    included, and the cache hits), the id of the response is the id of the
    request; when the run read a 2xx body, the response is that body as
    parsed, with the id the proxy gave it. *)
Theorem forward_response_id cfg (W : Type) (h : handler W) (w : W) request st response :
  let r := exec h (forwardToProxy cfg request st) w in
  fst (result_of r) = Normal response ->
  match body_of (trace_of r) with
  | Some responseData => response = responseData
  | None => prop response "id" = prop request "id"
  end.
Proof.
  cbv zeta.
  destruct (forwardable_or_not cfg request) as [Hf|Hnot].
  2:{ destruct (forward_local cfg request Hnot) as (res & Hrun & Hres).
      rewrite (Hrun st). simpl. intros ->.
      destruct (Hres _ eq_refl) as [message ->]. reflexivity. }
  rewrite (exec_forward cfg h request st w Hf).
  pose proof (throttle_quiet cfg h st w) as Hq1.
  destruct (exec h (throttle cfg st) w) as [[t1 [exceeded st2]] w2].
  unfold trace_of, result_of in *. simpl in Hq1.
  destruct exceeded.
  - simpl. rewrite (body_of_none_quiet _ Hq1). now intros [= <-].
  - destruct (cache.createKey request) as [key|e]; [|discriminate].
    pose proof (lookup_quiet cfg h key st2 w2) as Hq2.
    destruct (exec h (lookup cfg key st2) w2) as [[t2 [[cachedResponse|] st3]] w3];
      unfold trace_of in Hq2; simpl in Hq2.
    + simpl. rewrite (body_of_none_quiet _ (quiet_app _ _ Hq1 Hq2)).
      intros [= <-]. apply assoc_set_same.
    + pose proof (retryLoop_loop_of cfg request (template (stringify request)) key h
                    (Z.to_nat (maxRetries cfg + 1)) 0 None st3 w3) as Hloop.
      cbv zeta in Hloop. apply loop_body in Hloop.
      destruct (exec h (retryLoop _ _ _ _ _ _ _ _) w3) as [[t3 res] w4].
      unfold trace_of, result_of in *. simpl in *.
      rewrite app_assoc, (body_of_quiet _ _ (quiet_app _ _ Hq1 Hq2)).
      destruct (body_of t3).
      * rewrite Hloop. now intros [= <-].
      * destruct Hloop as (response' & -> & Hid). now intros [= <-].
Qed.

Lemma forward_response_id_witness :
  let r := exec Script.answer (forwardToProxy defaults (readRequest 1 "/tmp/x") warmStore)
                Script.offline in
  fst (result_of r)
  = Normal (VObj [ ("jsonrpc", VStr "2.0"); ("id", VNum 1);
                   ("result", VObj [ ("content", VStr "hi") ]) ])
  /\ attempts (trace_of r) = 0%nat
  /\ prop (VObj [ ("jsonrpc", VStr "2.0"); ("id", VNum 1);
                  ("result", VObj [ ("content", VStr "hi") ]) ]) "id"
     = prop (readRequest 1 "/tmp/x") "id".
Proof.
  split; [vm_compute; reflexivity|]. split; [vm_compute; reflexivity|].
  exact (forward_response_id defaults _ Script.answer Script.offline
           (readRequest 1 "/tmp/x") warmStore _ eq_refl).
Defined.

(* ===================================================================== *)
(** ** Retries and backoff (C5) *)
(* ===================================================================== *)

Lemma schedule_app t1 t2 : schedule (t1 ++ t2) = (schedule t1 ++ schedule t2)%list.
Proof. unfold schedule. now rewrite flat_map_app. Qed.

Lemma randoms_app t1 t2 : randoms (t1 ++ t2) = (randoms t1 ++ randoms t2)%list.
Proof. unfold randoms. now rewrite flat_map_app. Qed.

Lemma attempts_app t1 t2 : attempts (t1 ++ t2) = (attempts t1 + attempts t2)%nat.
Proof. unfold attempts. now rewrite List.filter_app, List.length_app. Qed.

Lemma lastThrown_app t1 t2 last :
  lastThrown (t1 ++ t2) last = lastThrown t2 (lastThrown t1 last).
Proof. revert last. induction t1 as [|o t1 IH]; intros last; simpl; auto. Qed.

Lemma quiet_silent t :
  quiet t ->
  schedule t = [] /\ randoms t = [] /\ attempts t = 0%nat
  /\ (forall last, lastThrown t last = last) /\ forallb fails t = true.
Proof.
  unfold quiet. induction t as [|o t IH]; simpl; [auto|].
  destruct o; simpl; try discriminate. intros H.
  destruct (IH H) as (Hs & Hr & Ha & Hl & Hf). repeat split; auto.
Qed.

(** *** The arithmetic of doubles *)

Module NumberFacts.
Import Number.

Local Open Scope Q_scope.

#[local] Abbreviation c02 := (3602879701896397 # 18014398509481984).
#[local] Abbreviation c09 := (8106479329266893 # 9007199254740992).
#[local] Abbreviation c11 := (2476979795053773 # 2251799813685248).

Lemma two_nonzero : ~ 2 == 0.
Proof. discriminate. Qed.

Lemma pow2_pos z : 0 < 2 ^ z.
Proof. apply Qpower_0_lt. reflexivity. Qed.

Lemma pow2_Z (n : Z) : (0 <= n)%Z -> 2 ^ n == inject_Z (2 ^ n).
Proof. intros H. now rewrite Zpower_Qpower. Qed.

Lemma pow2_le a b : (a <= b)%Z -> 2 ^ a <= 2 ^ b.
Proof. intros H. apply Qpower_le_compat_l; [exact H | discriminate]. Qed.

Lemma pow2_lt_inv a b : 2 ^ a < 2 ^ b -> (a < b)%Z.
Proof. intros H. apply (Qpower_lt_compat_l_inv 2); [exact H | reflexivity]. Qed.

Lemma ratio_le (A B N : Z) (D : positive) :
  (0 < B)%Z -> (A * Zpos D <= N * B)%Z -> inject_Z A / inject_Z B <= N # D.
Proof.
  intros HB H. apply Qle_shift_div_r; [unfold inject_Z, Qlt; simpl; lia|].
  unfold Qle, Qmult, inject_Z. simpl. lia.
Qed.

Lemma ratio_lt (A B N : Z) (D : positive) :
  (0 < B)%Z -> (N * B < A * Zpos D)%Z -> N # D < inject_Z A / inject_Z B.
Proof.
  intros HB H. apply Qlt_shift_div_l; [unfold inject_Z, Qlt; simpl; lia|].
  unfold Qlt, Qmult, inject_Z. simpl. lia.
Qed.

Lemma ilog2_spec q : 0 < q -> 2 ^ ilog2 q <= q /\ q < 2 ^ (ilog2 q + 1).
Proof.
  destruct q as [n d]. intros Hq.
  assert (Hn : (0 < n)%Z) by (unfold Qlt in Hq; simpl in Hq; lia).
  pose proof (Z.log2_spec n Hn) as Ha.
  pose proof (Z.log2_spec (Zpos d) eq_refl) as Hb.
  pose proof (Z.log2_nonneg n) as Ha0.
  pose proof (Z.log2_nonneg (Zpos d)) as Hb0.
  set (a := Z.log2 n) in *. set (b := Z.log2 (Zpos d)) in *.
  assert (Hpa : (0 < 2 ^ a)%Z) by (apply Z.pow_pos_nonneg; lia).
  assert (Hpb : (0 < 2 ^ b)%Z) by (apply Z.pow_pos_nonneg; lia).
  assert (Hlow : 2 ^ (a - b - 1) <= n # d).
  { replace (a - b - 1)%Z with (a - (b + 1))%Z by lia.
    rewrite Qpower_minus by discriminate.
    rewrite (pow2_Z a), (pow2_Z (b + 1)) by lia.
    apply ratio_le; [apply Z.pow_pos_nonneg; lia|].
    replace (Z.succ b) with (b + 1)%Z in Hb by lia. nia. }
  assert (Hhigh : n # d < 2 ^ (a - b + 1)).
  { replace (a - b + 1)%Z with (a + 1 - b)%Z by lia.
    rewrite Qpower_minus by discriminate.
    rewrite (pow2_Z (a + 1)), (pow2_Z b) by lia.
    apply ratio_lt; [exact Hpb|].
    replace (Z.succ a) with (a + 1)%Z in Ha by lia. nia. }
  unfold ilog2. simpl Qnum. simpl Qden. fold a b.
  destruct (Qle_bool (2 ^ (a - b)) (n # d)) eqn:E.
  - apply Qle_bool_iff in E. split; [exact E | exact Hhigh].
  - split; [exact Hlow|].
    replace (a - b - 1 + 1)%Z with (a - b)%Z by lia.
    apply Qnot_le_lt. intros H. apply Qle_bool_iff in H. congruence.
Qed.

Lemma ilog2_mono p q : 0 < p -> p <= q -> (ilog2 p <= ilog2 q)%Z.
Proof.
  intros Hp Hpq.
  destruct (ilog2_spec p Hp) as (Hlo & _).
  destruct (ilog2_spec q (Qlt_le_trans _ _ _ Hp Hpq)) as (_ & Hhi).
  assert (H : 2 ^ ilog2 p < 2 ^ (ilog2 q + 1))
    by (eapply Qle_lt_trans; [exact Hlo|]; eapply Qle_lt_trans; eassumption).
  apply pow2_lt_inv in H. lia.
Qed.

Lemma roundEven_le x (n : Z) : x <= inject_Z n -> (roundEven x <= n)%Z.
Proof.
  intros H. pose proof (Qfloor_le x) as Hf. unfold roundEven.
  assert (Hfn : (Qfloor x <= n)%Z) by (rewrite Zle_Qle; eapply Qle_trans; eassumption).
  assert (Hup : inject_Z (Qfloor x) < x -> (Qfloor x + 1 <= n)%Z).
  { intros Hlt. assert (Qfloor x < n)%Z; [|lia].
    rewrite Zlt_Qlt. eapply Qlt_le_trans; eassumption. }
  destruct (x - inject_Z (Qfloor x) ?= 1 # 2) eqn:E.
  - destruct (Z.even (Qfloor x)); [exact Hfn|].
    apply Hup. apply Qeq_alt in E. lra.
  - exact Hfn.
  - apply Hup. apply Qgt_alt in E. lra.
Qed.

Lemma roundEven_ge x (n : Z) : inject_Z n <= x -> (n <= roundEven x)%Z.
Proof.
  intros H. assert (Hfn : (n <= Qfloor x)%Z).
  { rewrite <- (Qfloor_Z n). now apply Qfloor_resp_le. }
  unfold roundEven.
  destruct (x - inject_Z (Qfloor x) ?= 1 # 2); [destruct (Z.even (Qfloor x))|..]; lia.
Qed.

Lemma exponent_mono p q : 0 < p -> p <= q -> (exponent p <= exponent q)%Z.
Proof. intros Hp Hpq. unfold exponent. pose proof (ilog2_mono p q Hp Hpq). lia. Qed.

Lemma scaled_le p q e : p <= q -> p / 2 ^ e <= q / 2 ^ e.
Proof.
  intros H. apply Qmult_le_compat_r; [exact H|].
  apply Qinv_le_0_compat. apply Qlt_le_weak, pow2_pos.
Qed.

Lemma scaled_back x e : x / 2 ^ e * 2 ^ e == x.
Proof. field. pose proof (pow2_pos e). lra. Qed.

(** Rounding does not cross a double. *)
Lemma nearest_le q r : 0 < q -> q <= r -> binary64 r -> nearest q <= r.
Proof.
  intros Hq Hqr [M HM]. pose proof (exponent_mono q r Hq Hqr) as He.
  set (e := exponent q) in *. set (e' := exponent r) in *.
  assert (Hr : r / 2 ^ e == inject_Z (M * 2 ^ (e' - e))).
  { rewrite inject_Z_mult, <- pow2_Z by lia. rewrite HM.
    replace e' with ((e' - e) + e)%Z at 1 by lia.
    rewrite Qpower_plus by discriminate. field. pose proof (pow2_pos e). lra. }
  unfold nearest. fold e.
  assert (Hn : (roundEven (q / 2 ^ e) <= M * 2 ^ (e' - e))%Z).
  { apply roundEven_le. rewrite <- Hr. now apply scaled_le. }
  rewrite <- (scaled_back r e), Hr.
  apply Qmult_le_compat_r; [now rewrite <- Zle_Qle | apply Qlt_le_weak, pow2_pos].
Qed.

Lemma nearest_ge q r : 0 < r -> r <= q -> binary64 r -> r <= nearest q.
Proof.
  intros Hr Hrq [M HM].
  pose proof (exponent_mono r q Hr Hrq) as He.
  assert (Hq : 0 < q) by (eapply Qlt_le_trans; eassumption).
  unfold nearest. set (e := exponent q) in *. set (e' := exponent r) in *.
  destruct (Z.eq_dec e' e) as [Heq|Hne].
  - rewrite Heq in HM.
    assert (Hn : (M <= roundEven (q / 2 ^ e))%Z).
    { apply roundEven_ge.
      assert (E : inject_Z M == r / 2 ^ e)
        by (rewrite HM; field; pose proof (pow2_pos e); lra).
      rewrite E. now apply scaled_le. }
    rewrite HM.
    apply Qmult_le_compat_r; [now rewrite <- Zle_Qle | apply Qlt_le_weak, pow2_pos].
  - destruct (ilog2_spec r Hr) as (_ & Hhi). destruct (ilog2_spec q Hq) as (Hlo & _).
    assert (Hk : e = (ilog2 q - 52)%Z /\ (ilog2 r + 1 <= ilog2 q)%Z)
      by (unfold e, e', exponent in *; lia).
    destruct Hk as (Hk & Hkk).
    assert (Hn : (2 ^ 52 <= roundEven (q / 2 ^ e))%Z).
    { apply roundEven_ge. rewrite <- pow2_Z by lia.
      apply Qle_shift_div_l; [apply pow2_pos|].
      rewrite <- Qpower_plus by discriminate.
      replace (52 + e)%Z with (ilog2 q) by lia. exact Hlo. }
    apply Qle_trans with (2 ^ ilog2 q).
    + apply Qlt_le_weak. eapply Qlt_le_trans; [exact Hhi|]. now apply pow2_le.
    + replace (ilog2 q) with (52 + e)%Z at 1 by lia.
      rewrite Qpower_plus by discriminate. rewrite (pow2_Z 52) by lia.
      apply Qmult_le_compat_r; [now rewrite <- Zle_Qle | apply Qlt_le_weak, pow2_pos].
Qed.

Lemma nearest_nonneg q : 0 < q -> 0 <= nearest q.
Proof.
  intros Hq. unfold nearest. apply Qmult_le_0_compat; [|apply Qlt_le_weak, pow2_pos].
  change 0 with (inject_Z 0). rewrite <- Zle_Qle. apply roundEven_ge.
  apply Qle_shift_div_l; [apply pow2_pos|].
  change (inject_Z 0) with 0. rewrite Qmult_0_l. lra.
Qed.

Lemma round_positive q :
  0 < q -> nearest q < 2 ^ 1024 -> round q = Finite (Qred (nearest q)).
Proof.
  intros Hq Hv. unfold round. destruct q as [[|n|n] d]; try discriminate Hq.
  simpl Qnum. cbv iota zeta.
  destruct (Qle_bool (2 ^ 1024) (nearest (Zpos n # d))) eqn:E; [|reflexivity].
  apply Qle_bool_iff in E. lra.
Qed.

Lemma round_zero q : q == 0 -> round q = Finite 0.
Proof.
  intros Hq. unfold round. destruct q as [[|n|n] d]; [reflexivity | discriminate Hq ..].
Qed.

(** The double nearest to [q] lies between the doubles around [q]. *)
Lemma round_between lo hi q :
  0 < lo -> lo <= q -> q <= hi -> hi < 2 ^ 1024 -> binary64 lo -> binary64 hi ->
  exists v, round q = Finite v /\ lo <= v /\ v <= hi.
Proof.
  intros Hlo Hq Hhi Hmax Blo Bhi.
  assert (Hpos : 0 < q) by lra.
  pose proof (nearest_le q hi Hpos Hhi Bhi) as Hle.
  pose proof (nearest_ge q lo Hlo Hq Blo) as Hge.
  exists (Qred (nearest q)). split; [apply round_positive; lra|].
  rewrite Qred_correct. split; assumption.
Qed.

Lemma round_below hi q :
  0 <= q -> q <= hi -> hi < 2 ^ 1024 -> binary64 hi ->
  exists v, round q = Finite v /\ 0 <= v /\ v <= hi.
Proof.
  intros Hq Hhi Hmax Bhi.
  destruct (Qeq_dec q 0) as [Hz|Hnz].
  - exists 0. split; [now apply round_zero|]. lra.
  - assert (Hpos : 0 < q).
    { apply Qle_lteq in Hq. destruct Hq as [H|H]; [exact H|].
      symmetry in H. contradiction. }
    pose proof (nearest_le q hi Hpos Hhi Bhi) as Hle.
    pose proof (nearest_nonneg q Hpos) as Hge.
    exists (Qred (nearest q)). split; [apply round_positive; lra|].
    rewrite Qred_correct. split; assumption.
Qed.

Lemma literal_02 : literal (2 # 10) = Finite c02.
Proof. vm_compute. reflexivity. Qed.
Lemma literal_09 : literal (9 # 10) = Finite c09.
Proof. vm_compute. reflexivity. Qed.
Lemma literal_11 : literal (11 # 10) = Finite c11.
Proof. vm_compute. reflexivity. Qed.

Lemma binary64_c02 : binary64 c02.
Proof. exists 7205759403792794%Z. vm_compute. reflexivity. Qed.
Lemma binary64_c09 : binary64 c09.
Proof. exists 8106479329266893%Z. vm_compute. reflexivity. Qed.
Lemma binary64_c11 : binary64 c11.
Proof. exists 4953959590107546%Z. vm_compute. reflexivity. Qed.

Lemma small_c11 : c11 < 2 ^ 1024.
Proof. vm_compute. reflexivity. Qed.
Lemma small_c02 : c02 < 2 ^ 1024.
Proof. vm_compute. reflexivity. Qed.

(** For a value of [Math.random()] in [0, 1), the jitter factor lies between
    the doubles [0.9] and [1.1]. *)
Lemma jitterFactor_range random :
  0 <= random /\ random < 1 -> withinJitter (jitterFactor random).
Proof.
  intros [H0 H1]. unfold withinJitter, jitterFactor.
  rewrite literal_02, literal_09, literal_11.
  unfold mul.
  destruct (round_below c02 (random * c02)) as (v & -> & Hv0 & Hv1);
    [ nra | nra | exact small_c02 | exact binary64_c02 | ].
  unfold add.
  destruct (round_between c09 c11 (c09 + v)) as (j & -> & Hj0 & Hj1);
    [ reflexivity | lra | lra | exact small_c11
    | exact binary64_c09 | exact binary64_c11 | ].
  unfold leb. split; now apply Qle_bool_iff.
Qed.

Lemma roundEven_Z (n : Z) : roundEven (inject_Z n) = n.
Proof.
  apply Z.le_antisymm; [apply roundEven_le | apply roundEven_ge]; apply Qle_refl.
Qed.

(** A double is its own nearest double. *)
Lemma nearest_exact q : 0 < q -> binary64 q -> nearest q == q.
Proof.
  intros Hq [M HM]. unfold nearest.
  assert (E : q / 2 ^ exponent q == inject_Z M)
    by (rewrite HM at 1; field; pose proof (pow2_pos (exponent q)); lra).
  assert (Hr : roundEven (q / 2 ^ exponent q) = M).
  { apply Z.le_antisymm; [apply roundEven_le | apply roundEven_ge]; rewrite E; apply Qle_refl. }
  rewrite Hr. symmetry. exact HM.
Qed.

Lemma round_exact q :
  0 < q -> q < 2 ^ 1024 -> binary64 q -> exists v, round q = Finite v /\ v == q.
Proof.
  intros Hq Hmax Hb. pose proof (nearest_exact q Hq Hb) as He.
  exists (Qred (nearest q)). split; [apply round_positive; [exact Hq | lra]|].
  now rewrite Qred_correct.
Qed.

(** An integer below [2^53] times a power of two is a double. *)
Lemma binary64_scaled q (n k : Z) :
  (0 < n < 2 ^ 53)%Z -> (-1022 <= k)%Z -> q == inject_Z n * 2 ^ k -> binary64 q.
Proof.
  intros Hn Hk Hq.
  assert (Hpos : 0 < q).
  { rewrite Hq. apply Qmult_lt_0_compat; [|apply pow2_pos].
    change 0 with (inject_Z 0). rewrite <- Zlt_Qlt. lia. }
  destruct (ilog2_spec q Hpos) as (Hlo & Hhi).
  set (L := ilog2 q) in *.
  assert (H1 : inject_Z 1 <= inject_Z n) by (rewrite <- Zle_Qle; lia).
  assert (H2 : inject_Z n < inject_Z (2 ^ 53)) by (rewrite <- Zlt_Qlt; lia).
  rewrite <- (pow2_Z 53) in H2 by lia. change (inject_Z 1) with 1 in H1.
  pose proof (pow2_pos k) as Hpk.
  assert (HkL : (k <= L)%Z).
  { assert (H : 2 ^ k < 2 ^ (L + 1)).
    { eapply Qle_lt_trans; [|exact Hhi]. rewrite Hq. nra. }
    apply pow2_lt_inv in H. lia. }
  assert (HLk : (L - k <= 52)%Z).
  { assert (H : 2 ^ L < 2 ^ (53 + k)).
    { eapply Qle_lt_trans; [exact Hlo|]. rewrite Hq.
      rewrite Qpower_plus by discriminate. nra. }
    apply pow2_lt_inv in H. lia. }
  assert (He : exponent q = (L - 52)%Z) by (unfold exponent; fold L; lia).
  exists (n * 2 ^ (k - (L - 52)))%Z. rewrite He, Hq.
  rewrite inject_Z_mult, <- pow2_Z by lia.
  rewrite <- Qmult_assoc, <- Qpower_plus by discriminate.
  now replace (k - (L - 52) + (L - 52))%Z with k by lia.
Qed.

(** The error of [roundEven] is at most one half. *)
Lemma roundEven_error x :
  inject_Z (roundEven x) - (1 # 2) <= x /\ x <= inject_Z (roundEven x) + (1 # 2).
Proof.
  pose proof (Qfloor_le x) as Hf. pose proof (Qlt_floor x) as Hc.
  rewrite inject_Z_plus in Hc. change (inject_Z 1) with 1 in Hc.
  unfold roundEven.
  destruct (x - inject_Z (Qfloor x) ?= 1 # 2) eqn:E.
  - apply Qeq_alt in E. destruct (Z.even (Qfloor x));
      [|rewrite inject_Z_plus; change (inject_Z 1) with 1]; lra.
  - apply Qlt_alt in E. lra.
  - apply Qgt_alt in E. rewrite inject_Z_plus. change (inject_Z 1) with 1. lra.
Qed.

(** The nearest double is within half a last bit. *)
Lemma nearest_error q :
  0 < q ->
  nearest q - 2 ^ exponent q * (1 # 2) <= q /\ q <= nearest q + 2 ^ exponent q * (1 # 2).
Proof.
  intros Hq. unfold nearest.
  destruct (roundEven_error (q / 2 ^ exponent q)) as (Hlo & Hhi).
  pose proof (pow2_pos (exponent q)) as Hp.
  set (u := 2 ^ exponent q) in *.
  assert (E : q == q / u * u) by (field; lra).
  set (y := q / u) in *.
  set (m := inject_Z (roundEven y)) in *.
  split; nra.
Qed.

(** For a double that is not subnormal, the last bit is at most [2^-52] of
    the number. *)
Lemma exponent_normal q : 2 ^ (-1022) <= q -> 2 ^ exponent q * 2 ^ 52 <= q.
Proof.
  intros Hq. assert (Hpos : 0 < q) by (pose proof (pow2_pos (-1022)); lra).
  destruct (ilog2_spec q Hpos) as (Hlo & Hhi).
  assert (HL : (-1022 <= ilog2 q)%Z).
  { assert (H : 2 ^ (-1022) < 2 ^ (ilog2 q + 1)) by lra. apply pow2_lt_inv in H. lia. }
  unfold exponent. replace (Z.max (ilog2 q - 52) (-1074)) with (ilog2 q - 52)%Z by lia.
  rewrite <- Qpower_plus by discriminate.
  now replace (ilog2 q - 52 + 52)%Z with (ilog2 q) by lia.
Qed.

Lemma exponent_below q (k : Z) : 0 < q -> q < 2 ^ k -> (exponent q <= Z.max (k - 53) (-1074))%Z.
Proof.
  intros Hpos Hq. destruct (ilog2_spec q Hpos) as (Hlo & _).
  assert (H : 2 ^ ilog2 q < 2 ^ k) by lra. apply pow2_lt_inv in H.
  unfold exponent. lia.
Qed.

#[local] Abbreviation u53 := (1 # 9007199254740992).
#[local] Abbreviation u56 := (1 # 72057594037927936).
#[local] Abbreviation u51 := (1 # 2251799813685248).

Lemma pow2_value_53 : 2 ^ (-53) == u53.
Proof. reflexivity. Qed.

(** Rounding a number below a quarter moves it by [2^-56] at most. *)
Lemma round_small q :
  0 <= q -> q < 1 # 4 ->
  exists v, round q = Finite v /\ 0 <= v /\ v - u56 <= q /\ q <= v + u56.
Proof.
  intros H0 H1. destruct (Qeq_dec q 0) as [Hz|Hnz].
  { exists 0. split; [now apply round_zero|]. lra. }
  assert (Hpos : 0 < q).
  { apply Qle_lteq in H0. destruct H0 as [H|H]; [exact H|].
    symmetry in H. contradiction. }
  destruct (nearest_error q Hpos) as (Hlo & Hhi).
  assert (He : (exponent q <= -55)%Z).
  { pose proof (exponent_below q (-2) Hpos) as H. simpl Z.max in H. apply H.
    change (2 ^ (-2)) with (1 # 4). exact H1. }
  apply pow2_le in He. change (2 ^ (-55)) with (1 # 36028797018963968) in He.
  pose proof (pow2_pos (exponent q)) as Hp.
  pose proof (nearest_nonneg q Hpos) as Hn.
  exists (Qred (nearest q)). split.
  - apply round_positive; [exact Hpos|].
    apply Qlt_trans with 1; [lra | reflexivity].
  - rewrite Qred_correct. repeat split; lra.
Qed.

(** Rounding a number between one half and two moves it by [2^-53] at
    most. *)
Lemma round_unit q :
  1 # 2 <= q -> q < 2 ->
  exists v, round q = Finite v /\ v - u53 <= q /\ q <= v + u53.
Proof.
  intros H0 H1. assert (Hpos : 0 < q) by lra.
  destruct (nearest_error q Hpos) as (Hlo & Hhi).
  assert (He : (exponent q <= -52)%Z).
  { pose proof (exponent_below q 1 Hpos) as H. simpl Z.max in H. apply H.
    change (2 ^ 1) with 2. exact H1. }
  apply pow2_le in He. change (2 ^ (-52)) with (1 # 4503599627370496) in He.
  pose proof (pow2_pos (exponent q)) as Hp.
  exists (Qred (nearest q)). split.
  - apply round_positive; [exact Hpos|].
    apply Qlt_trans with 3; [lra | reflexivity].
  - rewrite Qred_correct. split; lra.
Qed.

(** Rounding a number of the normal range moves it by [2^-53] of itself at
    most. *)
Lemma round_normal q :
  2 ^ (-1022) <= q -> q < 2 ^ 1023 ->
  exists v, round q = Finite v /\ q * (1 - u53) <= v /\ v <= q * (1 + u53).
Proof.
  intros H0 H1. assert (Hpos : 0 < q) by (pose proof (pow2_pos (-1022)); lra).
  destruct (nearest_error q Hpos) as (Hlo & Hhi).
  pose proof (exponent_normal q H0) as He.
  change (2 ^ 52) with (4503599627370496 # 1) in He.
  pose proof (pow2_pos (exponent q)) as Hp.
  assert (Hv : q * (1 - u53) <= nearest q /\ nearest q <= q * (1 + u53)) by (split; lra).
  exists (Qred (nearest q)). split.
  - apply round_positive; [exact Hpos|].
    apply Qle_lt_trans with (q * (1 + u53)); [apply Hv|].
    apply Qlt_le_trans with (2 ^ 1023 * 2); [|now vm_compute].
    pose proof (pow2_pos 1023). nra.
  - rewrite Qred_correct. exact Hv.
Qed.

Lemma round_integer q (n k : Z) :
  (0 < n < 2 ^ 53)%Z -> (0 <= k <= 960)%Z -> q == inject_Z n * 2 ^ k ->
  exists v, round q = Finite v /\ v == inject_Z n * 2 ^ k.
Proof.
  intros Hn Hk Hq.
  assert (H1 : inject_Z 1 <= inject_Z n) by (rewrite <- Zle_Qle; lia).
  assert (H2 : inject_Z n < inject_Z (2 ^ 53)) by (rewrite <- Zlt_Qlt; lia).
  rewrite <- (pow2_Z 53) in H2 by lia. change (inject_Z 1) with 1 in H1.
  pose proof (pow2_pos k) as Hpk.
  destruct (round_exact q) as (v & Hv & E).
  - rewrite Hq. nra.
  - rewrite Hq. apply Qlt_le_trans with (2 ^ 53 * 2 ^ k); [nra|].
    rewrite <- Qpower_plus by discriminate. apply pow2_le. lia.
  - apply (binary64_scaled q n k); [exact Hn | lia | exact Hq].
  - exists v. split; [exact Hv|]. now rewrite E.
Qed.

End NumberFacts.

Lemma append_nil_r (s : string) : s +:+ "" = s.
Proof. induction s as [|c s IH]; [reflexivity|]. now rewrite append_cons, IH. Qed.

(** The message of the proxy-unreachable response holds the message of the
    last error. *)
Lemma unreachable_message request e :
  exists text,
    errorMessage (unreachable request (Some e)) = VStr text
    /\ includes text (message e) = true.
Proof.
  unfold unreachable. eexists. split; [reflexivity|].
  apply includes_spec. destruct (String.eqb (message e) "") eqn:E.
  - apply String.eqb_eq in E. rewrite E. now exists "", ("Failed to communicate with MCP proxy: Unknown error").
  - exists "Failed to communicate with MCP proxy: ", "". now rewrite append_nil_r.
Qed.

Section Backoff.

Variable cfg : Config.
Variables (request : value) (body : string) (cacheKey : option string).

(** An attempt that fails as [fails] says ends in an error that is not the
    abort. *)
Lemma attempt_fails ta outcome :
  attempt_of cfg body ta outcome ->
  forallb fails ta = true ->
  exists e,
    outcome = inl e /\ is_abort e = false
    /\ schedule ta = [Post] /\ randoms ta = [] /\ attempts ta = 1%nat
    /\ forall last, lastThrown ta last = Some e.
Proof.
  intros Ha Hf.
  inversion Ha; subst; simpl in Hf; unfold posted in Hf; simpl in Hf;
    repeat match goal with
           | H : ok _ = _ |- _ => rewrite H in Hf; simpl in Hf
           end;
    try discriminate.
  - exists e. rewrite andb_true_r in Hf. apply negb_true_iff in Hf. repeat split; auto.
  - exists e. rewrite andb_true_r in Hf. apply negb_true_iff in Hf. repeat split; auto.
  - eexists. repeat split; auto.
Qed.

(** The loop when every attempt fails: as many attempts as turns, a wait by
    the backoff formula between two attempts, and the proxy-unreachable
    response with the last error. *)
Lemma loop_all_fail st remaining attempt lastError t res :
  loop_of cfg request body cacheKey st remaining attempt lastError t res ->
  forallb fails t = true ->
  Z.of_nat remaining = maxRetries cfg + 1 - attempt ->
  remaining <> O ->
  schedule t = backoffSchedule cfg attempt (randoms t)
  /\ attempts t = remaining
  /\ exists e,
       lastThrown t lastError = Some e
       /\ res = (Normal (unreachable request (Some e)), st).
Proof.
  induction 1 as [ | ? ? ? ta ? Ha | ? ? ? ta ? ? ? ? Ha | ? ? ? ta ? Ha
                 | ? ? ? ta e Ha | n attempt ? ta e random tr ? Ha ? ? ? IH ];
    intros Hf Hturns Hpos.
  - contradiction.
  - destruct (attempt_fails _ _ Ha Hf) as (e & [=] & _).
  - rewrite forallb_app in Hf. apply andb_true_iff in Hf. destruct Hf as [Hf _].
    destruct (attempt_fails _ _ Ha Hf) as (e & [=] & _).
  - destruct (attempt_fails _ _ Ha Hf) as (e' & [= <-] & Hab & _). congruence.
  - destruct (attempt_fails _ _ Ha Hf) as (e' & [= <-] & _ & Hs & Hr & Hn & Hl).
    rewrite Hs, Hr, Hn. simpl. repeat split; [lia|]. eauto.
  - rewrite forallb_app in Hf. apply andb_true_iff in Hf. destruct Hf as [Hf Hf'].
    destruct (attempt_fails _ _ Ha Hf) as (e' & [= <-] & _ & Hs & Hr & Hn & Hl).
    simpl in Hf'. destruct IH as (Hsched & Hatt & e'' & Hlast & Hres);
      [assumption | lia | lia |].
    rewrite schedule_app, randoms_app, attempts_app, lastThrown_app, Hs, Hr, Hn, Hl.
    change (schedule (ORandom random :: OWait (backoffDelay cfg attempt random) :: tr))
      with (Pause (backoffDelay cfg attempt random) :: schedule tr).
    change (randoms (ORandom random :: OWait (backoffDelay cfg attempt random) :: tr))
      with (random :: randoms tr).
    change (attempts (ORandom random :: OWait (backoffDelay cfg attempt random) :: tr))
      with (attempts tr).
    simpl. rewrite Hsched, Hatt. repeat split. eauto.
Qed.

End Backoff.

(** C5: when a request is posted and every attempt fails with a transport
    error or a status outside 2xx, the forwarder makes exactly
    [maxRetries + 1] attempts, attempt 0 to attempt [maxRetries]; between two
    attempts it waits
    [min(maxDelay, initialDelay * 2^attempt * jitterFactor)], the attempt
    counted from 0 and the jitter factor being [0.9 + random * 0.2] for the
    value [random] of [Math.random()], all in the arithmetic of doubles, so
    that the jitter factor lies within the doubles [0.9] and [1.1]; it then
    returns the proxy-unreachable response, with code -32003, the id of the
    request, and a message that ends with the message of the last error: of
    what the last [fetch] or body reader threw, or [HTTP error <status>:
    <text>] after a status outside 2xx. *)
Theorem forward_unreachable_after_retries cfg (W : Type) (h : handler W) (w : W)
        request st :
  let r := exec h (forwardToProxy cfg request st) w in
  let t := trace_of r in
  (0 < attempts t)%nat ->
  forallb fails t = true ->
  Forall (fun random => 0 <= random /\ random < 1)%Q (randoms t) ->
  Z.of_nat (attempts t) = maxRetries cfg + 1
  /\ schedule t = backoffSchedule cfg 0 (randoms t)
  /\ Forall (fun random => withinJitter (jitterFactor random)) (randoms t)
  /\ exists e,
       lastThrown t None = Some e
       /\ let response :=
            createErrorResponse (prop request "id") (-32003)
              (VStr ("Failed to communicate with MCP proxy: "
                     +:+ (if String.eqb (message e) "" then "Unknown error"
                          else message e))) in
          fst (result_of r) = Normal response
          /\ errorCode response = VNum (-32003)
          /\ prop response "id" = prop request "id"
          /\ exists text,
               errorMessage response = VStr text /\ includes text (message e) = true.
Proof.
  intros r t. subst t r. intros Hposted Hfails Hrandom.
  assert (Hjitter : Forall (fun random => withinJitter (jitterFactor random))
            (randoms (trace_of (exec h (forwardToProxy cfg request st) w)))).
  { eapply List.Forall_impl; [|exact Hrandom].
    intros random. apply NumberFacts.jitterFactor_range. }
  revert Hposted Hfails Hjitter. clear Hrandom.
  destruct (forwardable_or_not cfg request) as [Hf|Hnot].
  2:{ destruct (forward_local cfg request Hnot) as (res & Hrun & _).
      rewrite (Hrun st). simpl. unfold attempts. simpl. lia. }
  rewrite (exec_forward cfg h request st w Hf).
  pose proof (throttle_quiet cfg h st w) as Hq1.
  destruct (exec h (throttle cfg st) w) as [[t1 [exceeded st2]] w2].
  unfold trace_of, result_of in *. simpl in Hq1.
  destruct exceeded.
  { simpl. destruct (quiet_silent _ Hq1) as (_ & _ & -> & _). lia. }
  destruct (cache.createKey request) as [key|e].
  2:{ simpl. destruct (quiet_silent _ Hq1) as (_ & _ & -> & _). lia. }
  pose proof (lookup_quiet cfg h key st2 w2) as Hq2.
  destruct (exec h (lookup cfg key st2) w2) as [[t2 [[cachedResponse|] st3]] w3];
    unfold trace_of in Hq2; simpl in Hq2.
  { simpl. destruct (quiet_silent _ (quiet_app _ _ Hq1 Hq2)) as (_ & _ & -> & _). lia. }
  pose proof (retryLoop_loop_of cfg request (template (stringify request)) key h
                (Z.to_nat (maxRetries cfg + 1)) 0 None st3 w3) as Hloop.
  cbv zeta in Hloop.
  destruct (exec h (retryLoop _ _ _ _ _ _ _ _) w3) as [[t3 res] w4].
  unfold trace_of, result_of in *. simpl in *.
  destruct (quiet_silent _ (quiet_app _ _ Hq1 Hq2)) as (Hs & Hr & Ha & Hl & _).
  rewrite app_assoc, attempts_app, schedule_app, randoms_app, lastThrown_app, forallb_app.
  rewrite Hs, Hr, Ha, Hl. simpl.
  intros Hposted Hfails Hjitter.
  apply andb_true_iff in Hfails. destruct Hfails as [_ Hfails].
  destruct (Z.to_nat (maxRetries cfg + 1)) as [|turns] eqn:Hturns.
  { inversion Hloop; subst. unfold attempts in Hposted. simpl in Hposted. lia. }
  destruct (loop_all_fail _ _ _ _ _ _ _ _ _ _ Hloop Hfails) as (Hsched & Hatt & e & Hlast & ->);
    [lia | discriminate |].
  split; [rewrite Hatt; lia|]. split; [exact Hsched|]. split; [exact Hjitter|].
  exists e. split; [exact Hlast|]. cbv zeta.
  split; [reflexivity|]. split; [reflexivity|]. split; [reflexivity|].
  apply unreachable_message.
Qed.

(** A proxy that refuses the first connection and then answers 503, 500 and
    502: four attempts under the default settings, the waits of the formula
    between them, and the last status and text in the message. *)
Lemma forward_unreachable_after_retries_witness :
  let r := exec Script.answer (forwardToProxy defaults (readRequest 1 "/tmp/x") empty_store)
                failing in
  attempts (trace_of r) = 4%nat
  /\ schedule (trace_of r) = backoffSchedule defaults 0 [3 # 8; 5 # 8; 0 # 1]
  /\ fst (result_of r)
     = Normal (createErrorResponse (VNum 1) (-32003)
                 (VStr "Failed to communicate with MCP proxy: HTTP error 502: Bad Gateway")).
Proof.
  cbv zeta.
  assert (Hposted :
    (0 < attempts (trace_of (exec Script.answer
            (forwardToProxy defaults (readRequest 1 "/tmp/x") empty_store)
            failing)))%nat) by (apply Nat.ltb_lt; vm_compute; reflexivity).
  assert (Hrandom :
    Forall (fun random => 0 <= random /\ random < 1)%Q
      (randoms (trace_of (exec Script.answer
            (forwardToProxy defaults (readRequest 1 "/tmp/x") empty_store)
            failing)))).
  { change (Forall (fun random => 0 <= random /\ random < 1)%Q [3 # 8; 5 # 8; 0 # 1]).
    repeat constructor; unfold Qle, Qlt; simpl; lia. }
  destruct (forward_unreachable_after_retries defaults _ Script.answer failing
              (readRequest 1 "/tmp/x") empty_store Hposted eq_refl Hrandom)
    as (Hattempts & Hschedule & _ & e & Hlast & Hresult & _).
  split; [apply Nat2Z.inj; exact Hattempts|]. split; [exact Hschedule|].
  vm_compute in Hlast. injection Hlast as <-. exact Hresult.
Defined.

(** The waits of that run: 97.50000000000001 ms, 204.99999999999997 ms and
    360 ms. *)
Example backoffSchedule_defaults :
  backoffSchedule defaults 0 [3 # 8; 5 # 8; 0 # 1]
  = [ Post; Pause (Number.literal (9750000000000001 # 100000000000000));
      Post; Pause (Number.literal (20499999999999997 # 100000000000000));
      Post; Pause (Number.ofZ 360);
      Post ].
Proof. vm_compute. reflexivity. Qed.

(** A wait is never longer than [retryMaxDelayMs]. *)
Example backoffDelay_capped :
  backoffDelay tight 1 (1 # 2) = Number.ofZ 150.
Proof. vm_compute. reflexivity. Qed.

(** The operations on doubles agree with those of the Standard Library's
    [SpecFloat] (binary64: 53 bits of precision, exponents up to 1024). *)
Example mul_as_SpecFloat :
  let x := SpecFloat.S754_finite false 8106479329266893 (-53) in
  let y := SpecFloat.S754_finite false 7036874417766400 (-46) in
  Number.mul (Number.ofSpecFloat x) (Number.ofSpecFloat y)
  = Number.ofSpecFloat (SpecFloat.SFmul 53 1024 x y).
Proof. vm_compute. reflexivity. Qed.

Example add_as_SpecFloat :
  let x := SpecFloat.S754_finite false 8106479329266893 (-53) in
  let y := SpecFloat.S754_finite false 5404319552844595 (-56) in
  Number.add (Number.ofSpecFloat x) (Number.ofSpecFloat y)
  = Number.ofSpecFloat (SpecFloat.SFadd 53 1024 x y).
Proof. vm_compute. reflexivity. Qed.

(** The first wait of the run above, computed with [SpecFloat]:
    [100 * 1 * (0.9 + 0.375 * 0.2)]. *)
Example backoffDelay_as_SpecFloat :
  let binary (m e : Z) := SpecFloat.S754_finite false (Z.to_pos m) e in
  let mul := SpecFloat.SFmul 53 1024 in
  let add := SpecFloat.SFadd 53 1024 in
  backoffDelay defaults 0 (3 # 8)
  = Number.ofSpecFloat
      (mul (mul (binary 7036874417766400 (-46)) (binary 4503599627370496 (-52)))
           (add (binary 8106479329266893 (-53))
                (mul (binary 6755399441055744 (-54)) (binary 7205759403792794 (-55))))).
Proof. vm_compute. reflexivity. Qed.

Example mul_overflows :
  let x := SpecFloat.S754_finite false 9007199254740991 971 in
  let y := SpecFloat.S754_finite true 4503599627370497 (-51) in
  Number.mul (Number.ofSpecFloat x) (Number.ofSpecFloat y) = Number.Infinity true
  /\ Number.ofSpecFloat (SpecFloat.SFmul 53 1024 x y) = Number.Infinity true.
Proof. split; vm_compute; reflexivity. Qed.

Example mul_underflows :
  let x := SpecFloat.S754_finite false 3 (-1074) in
  let y := SpecFloat.S754_finite false 4503599627370496 (-53) in
  Number.mul (Number.ofSpecFloat x) (Number.ofSpecFloat y)
  = Number.ofSpecFloat (SpecFloat.SFmul 53 1024 x y).
Proof. vm_compute. reflexivity. Qed.

(** *** The delay against the exact formula *)

Section DelayError.

Import Number NumberFacts.

Local Open Scope Q_scope.

#[local] Abbreviation c02 := (3602879701896397 # 18014398509481984).
#[local] Abbreviation c09 := (8106479329266893 # 9007199254740992).
#[local] Abbreviation u53 := (1 # 9007199254740992).
#[local] Abbreviation u56 := (1 # 72057594037927936).
#[local] Abbreviation u51 := (1 # 2251799813685248).

(** X23: the backoff delay is the formula of the specification up to the
    rounding of doubles.  For settings [retryInitialDelayMs] and
    [retryMaxDelayMs] that are positive safe integers, an attempt number up
    to 960 and a value of [Math.random()] in [0, 1), the delay is a finite
    number, it is at most [retryMaxDelayMs], and it differs from the exact
    value of [min(maxDelay, initialDelay * 2^attempt * (0.9 + 0.2 * random))]
    by at most [2^-51] of that value. *)
Theorem backoffDelay_near_formula cfg attempt random :
  (0 < retryInitialDelayMs cfg <= maxSafeInteger)%Z ->
  (0 < retryMaxDelayMs cfg <= maxSafeInteger)%Z ->
  (0 <= attempt <= 960)%Z ->
  0 <= random /\ random < 1 ->
  exists ms,
    backoffDelay cfg attempt random = Number.Finite ms
    /\ ms <= inject_Z (retryMaxDelayMs cfg)
    /\ let exact :=
         Qmin (inject_Z (retryMaxDelayMs cfg))
              (inject_Z (retryInitialDelayMs cfg) * 2 ^ attempt
               * ((9 # 10) + random * (2 # 10))) in
       exact * (1 - 2 ^ (-51)) <= ms /\ ms <= exact * (1 + 2 ^ (-51)).
Proof.
  intros Hn HM Hk [Hr0 Hr1]. unfold maxSafeInteger in Hn, HM.
  set (maxD := retryMaxDelayMs cfg) in *. set (initial := retryInitialDelayMs cfg) in *.
  assert (Hn' : (0 < initial < 2 ^ 53)%Z) by lia.
  assert (HM' : (0 < maxD < 2 ^ 53)%Z) by lia.
  clear Hn HM. rename Hn' into Hn. rename HM' into HM.
  change (2 ^ (-51)) with u51.
  unfold backoffDelay. fold maxD initial. unfold ofZ, pow2.
  destruct (round_integer (inject_Z maxD) maxD 0 HM) as (vM & -> & EM);
    [lia | change (2 ^ 0) with 1; ring |].
  change (2 ^ 0) with 1 in EM. rewrite Qmult_1_r in EM.
  destruct (round_integer (inject_Z initial) initial 0 Hn) as (vn & -> & En);
    [lia | change (2 ^ 0) with 1; ring |].
  change (2 ^ 0) with 1 in En. rewrite Qmult_1_r in En.
  destruct (round_integer (2 ^ attempt) 1 attempt) as (vk & -> & Ek);
    [lia | exact Hk | change (inject_Z 1) with 1; ring |].
  change (inject_Z 1) with 1 in Ek. rewrite Qmult_1_l in Ek.
  unfold mul at 2.
  destruct (round_integer (vn * vk) initial attempt Hn Hk) as (vb & -> & Eb);
    [now rewrite En, Ek|].
  rewrite literal_02, literal_09. unfold mul at 2.
  destruct (round_small (random * c02)) as (va & -> & Ha0 & Ha1 & Ha2); [nra | nra |].
  unfold add.
  destruct (round_unit (c09 + va)) as (vj & -> & Hj1 & Hj2); [lra | lra |].
  set (B := inject_Z initial * 2 ^ attempt) in *.
  set (J := (9 # 10) + random * (2 # 10)).
  assert (HB : 1 <= B).
  { unfold B. pose proof (pow2_le 0 attempt ltac:(lia)) as Hp. change (2 ^ 0) with 1 in Hp.
    assert (H1 : inject_Z 1 <= inject_Z initial) by (rewrite <- Zle_Qle; lia).
    change (inject_Z 1) with 1 in H1. nra. }
  assert (HBmax : B < 2 ^ 1013).
  { unfold B. assert (H2 : inject_Z initial < inject_Z (2 ^ 53)) by (rewrite <- Zlt_Qlt; lia).
    rewrite <- (pow2_Z 53) in H2 by lia.
    pose proof (pow2_le attempt 960 ltac:(lia)) as Hp. pose proof (pow2_pos attempt) as Hp0.
    apply Qlt_le_trans with (2 ^ 53 * 2 ^ 960); [nra | now vm_compute]. }
  assert (HJ : vj * (1 + u53) <= J * (1 + u51) /\ J * (1 - u51) <= vj * (1 - u53)
               /\ (8 # 10) <= vj /\ vj <= 12 # 10).
  { unfold J. repeat split; lra. }
  destruct HJ as (HJ1 & HJ2 & HJ3 & HJ4).
  unfold mul.
  destruct (round_normal (vb * vj)) as (vc & -> & Hc1 & Hc2).
  { apply Qle_trans with (8 # 10); [now vm_compute|]. rewrite Eb. nra. }
  { rewrite Eb. apply Qlt_le_trans with (2 ^ 1013 * 2); [nra | now vm_compute]. }
  assert (Hc : B * J * (1 - u51) <= vc /\ vc <= B * J * (1 + u51)).
  { rewrite Eb in Hc1, Hc2. split.
    - apply Qle_trans with (B * (vj * (1 - u53))); [|lra].
      assert (E : B * J * (1 - u51) == B * (J * (1 - u51))) by ring. rewrite E.
      apply Qmult_le_l; [lra | exact HJ2].
    - apply Qle_trans with (B * (vj * (1 + u53))); [lra|].
      assert (E : B * J * (1 + u51) == B * (J * (1 + u51))) by ring. rewrite E.
      apply Qmult_le_l; [lra | exact HJ1]. }
  clear Hc1 Hc2. destruct Hc as (Hc1 & Hc2).
  assert (Hx : 0 < B * J) by (unfold J; nra).
  set (x := B * J) in *.
  assert (HMpos : 0 < inject_Z maxD)
    by (change 0 with (inject_Z 0); rewrite <- Zlt_Qlt; lia).
  unfold min. cbv zeta.
  destruct (Q.min_spec (inject_Z maxD) x) as [(Hlt & Hmin)|(Hle & Hmin)];
    destruct (Qle_bool vM vc) eqn:E.
  - apply Qle_bool_iff in E. exists vM. split; [reflexivity|]. rewrite Hmin. lra.
  - assert (Hlt' : vc < vM)
      by (apply Qnot_le_lt; intros H; apply Qle_bool_iff in H; congruence).
    exists vc. split; [reflexivity|]. rewrite Hmin. lra.
  - apply Qle_bool_iff in E. exists vM. split; [reflexivity|]. rewrite Hmin. lra.
  - assert (Hlt' : vc < vM)
      by (apply Qnot_le_lt; intros H; apply Qle_bool_iff in H; congruence).
    exists vc. split; [reflexivity|]. rewrite Hmin. lra.
Qed.

(** The first wait under the default settings, for [Math.random()] = 0.375:
    the double 97.50000000000001, where the exact value is 97.5. *)
Lemma backoffDelay_near_formula_witness :
  let exact := Qmin 5000 (100 * 2 ^ 0 * ((9 # 10) + (3 # 8) * (2 # 10))) in
  exact == 195 # 2
  /\ exists ms,
       backoffDelay defaults 0 (3 # 8) = Number.Finite ms
       /\ ms <= 5000
       /\ exact * (1 - 2 ^ (-51)) <= ms /\ ms <= exact * (1 + 2 ^ (-51)).
Proof.
  cbv zeta. split; [reflexivity|].
  destruct (backoffDelay_near_formula defaults 0 (3 # 8)) as (ms & Hms & Hmax & Hlo & Hhi);
    [ vm_compute; split; [reflexivity | discriminate]
    | vm_compute; split; [reflexivity | discriminate]
    | lia
    | split; [discriminate | reflexivity]
    | ].
  exists ms. split; [exact Hms|]. split; [exact Hmax|]. split; [exact Hlo | exact Hhi].
Defined.

End DelayError.

(* ===================================================================== *)
(** ** Timeouts (C6) *)
(* ===================================================================== *)





Section Timeout.

Variable cfg : Config.
Variables (request : value) (body : string) (cacheKey : option string).




End Timeout.






(* ===================================================================== *)
(** ** Requests that are never cached (C9) *)
(* ===================================================================== *)

Lemma isUncacheable_spec request :
  cache.isUncacheable request = true <->
  is_string (prop request "method") "tools/call" = true
  /\ exists name,
       prop (prop request "params") "name" = VStr name
       /\ exists marker, In marker cache.writeOperations /\ includes name marker = true.
Proof.
  unfold cache.isUncacheable.
  destruct (is_string (prop request "method") "tools/call");
    cbn -[existsb includes cache.writeOperations].
  2:{ split; [discriminate | intros [H _]; discriminate]. }
  destruct (prop (prop request "params") "name") as [| |b|n|name|xs|ps];
    cbn -[existsb includes cache.writeOperations];
    try (split; [discriminate | intros (_ & name' & [=] & _)]).
  rewrite existsb_exists. split.
  - intros (marker & Hin & Hinc). split; [reflexivity|]. exists name. eauto.
  - intros (_ & name' & [= <-] & marker & Hin & Hinc). eauto.
Qed.

Section NoKey.

Context (cfg : Config) {W : Type} (h : handler W).
Variables (request : value) (body : string) (cacheKey : option string).
Hypothesis no_key : usable cacheKey = None.

(** Without a cache key the loop leaves the store as it is, and runs the
    same whatever the store holds. *)
Lemma retryLoop_no_key remaining : forall attempt lastError st st' w,
  let r := exec h (retryLoop cfg request body cacheKey remaining attempt lastError st) w in
  let r' := exec h (retryLoop cfg request body cacheKey remaining attempt lastError st') w in
  snd (result_of r) = st
  /\ trace_of r' = trace_of r
  /\ fst (result_of r') = fst (result_of r)
  /\ snd r' = snd r.
Proof.
  induction remaining as [|remaining IH]; intros attempt lastError st st' w; cbv zeta.
  - simpl. auto.
  - rewrite !exec_retryLoop_S.
    destruct (exec h (attemptOnce cfg body) w) as [[ta [e|responseData]] w1].
    + destruct (String.eqb (name e) "AbortError"); [simpl; auto|].
      destruct (maxRetries cfg <=? attempt); [simpl; auto|].
      destruct (h _ MathRandom w1) as [random w2].
      destruct (h _ (SetTimeout _) w2) as [[] w3].
      specialize (IH (attempt + 1) (Some e) st st' w3). cbv zeta in IH.
      destruct (exec h (retryLoop _ _ _ _ _ _ _ st) w3) as [[tr res] w4].
      destruct (exec h (retryLoop _ _ _ _ _ _ _ st') w3) as [[tr' res'] w4'].
      unfold trace_of, result_of in *. simpl in *.
      destruct IH as (Hst & -> & Hres & Hw). auto.
    + rewrite no_key. destruct (truthy (prop responseData "error")); simpl; auto.
Qed.

End NoKey.

(** C9: a request is uncacheable exactly when its method is [tools/call] and
    its tool name is a string that contains one of the eleven mutation
    markers.  Such a request has no cache key; [forwardToProxy] then leaves
    the cache entries as they are and runs the same, with the same response,
    whatever the cache holds.  Every other request has a cache key (unless
    [request.method] has no string form and the key cannot be built), and
    that key passes the test [if (cacheKey)]. *)
Theorem uncacheable_requests_skip_cache request :
  (cache.isUncacheable request = true <->
   is_string (prop request "method") "tools/call" = true
   /\ exists name,
        prop (prop request "params") "name" = VStr name
        /\ exists marker, In marker cache.writeOperations /\ includes name marker = true)
  /\ cache.writeOperations =
     [ "write_file"; "edit_file"; "create_directory"; "move_file"; "delete";
       "create_entities"; "delete_entities"; "create_relations"; "delete_relations";
       "add_observations"; "delete_observations" ]
  /\ (cache.isUncacheable request = true ->
      cache.createKey request = Normal None
      /\ forall cfg (W : Type) (h : handler W) (w : W) st,
           let r := exec h (forwardToProxy cfg request st) w in
           entries (snd (result_of r)) = entries st
           /\ forall st',
                requests st' = requests st ->
                let r' := exec h (forwardToProxy cfg request st') w in
                trace_of r' = trace_of r
                /\ fst (result_of r') = fst (result_of r)
                /\ snd r' = snd r)
  /\ (cache.isUncacheable request = false ->
      cache.createKey request <> Normal None
      /\ forall method,
           prop request "method" = VStr method ->
           exists key,
             cache.createKey request = Normal (Some key) /\ usable (Some key) = Some key).
Proof.
  split; [apply isUncacheable_spec|]. split; [reflexivity|]. split.
  - intros Hun.
    assert (Hkey : cache.createKey request = Normal None).
    { unfold cache.createKey. now rewrite Hun. }
    split; [exact Hkey|]. intros cfg W h w st. cbv zeta.
    destruct (forwardable_or_not cfg request) as [Hf|Hnot].
    2:{ destruct (forward_local cfg request Hnot) as (res & Hrun & _).
        rewrite (Hrun st). split; [reflexivity|]. intros st' _. now rewrite (Hrun st'). }
    rewrite (exec_forward cfg h request st w Hf). split.
    + rewrite exec_throttle, Hkey. cbv zeta.
      destruct (rateLimitPerMinute cfg <=? _); [reflexivity|].
      rewrite exec_lookup. simpl usable. cbv iota.
      match goal with
      | |- context [exec h (retryLoop ?c ?rq ?b ?k ?n ?a ?l ?s) ?w0] =>
          pose proof (retryLoop_no_key c h rq b k eq_refl n a l s s w0) as (Hst & _);
          destruct (exec h (retryLoop c rq b k n a l s) w0) as [[t3 res] w4]
      end.
      unfold result_of in *. simpl in *. now rewrite Hst.
    + intros st' Hreq. rewrite (exec_forward cfg h request st' w Hf).
      rewrite !exec_throttle, Hkey, Hreq. cbv zeta.
      destruct (rateLimitPerMinute cfg <=? _); [now repeat split|].
      rewrite !exec_lookup. simpl usable. cbv iota.
      match goal with
      | |- context [exec h (retryLoop ?c ?rq ?b ?k ?n ?a ?l ?s') ?w0] =>
          match goal with
          | |- context [exec h (retryLoop c rq b k n a l ?s) w0] =>
              lazymatch s with
              | s' => fail
              | _ =>
                  pose proof (retryLoop_no_key c h rq b k eq_refl n a l s s' w0)
                    as (_ & Ht & Hr & Hw);
                  destruct (exec h (retryLoop c rq b k n a l s) w0) as [[t3 res] w4];
                  destruct (exec h (retryLoop c rq b k n a l s') w0) as [[t3' res'] w4']
              end
          end
      end.
      unfold trace_of, result_of in *. simpl in *. now subst.
  - intros Hcan. unfold cache.createKey. rewrite Hcan. split.
    + now destruct (toString (prop request "method")).
    + intros method ->. simpl. eexists. split; [reflexivity|].
      unfold usable. now destruct method.
Qed.

Lemma uncacheable_requests_skip_cache_witness :
  cache.createKey writeRequest = Normal None
  /\ (let r := exec Script.answer (forwardToProxy defaults writeRequest warmStore)
                    (Script.answering written) in
      entries (snd (result_of r)) = entries warmStore
      /\ fst (result_of r) = Normal written).
Proof.
  destruct (uncacheable_requests_skip_cache writeRequest) as (_ & _ & Hun & _).
  destruct (Hun eq_refl) as (Hkey & Hrun).
  split; [exact Hkey|]. cbv zeta. split.
  - apply (Hrun defaults _ Script.answer (Script.answering written) warmStore).
  - destruct (Hrun defaults _ Script.answer (Script.answering written) empty_store)
      as (_ & Hsame).
    destruct (Hsame warmStore eq_refl) as (_ & -> & _). reflexivity.
Defined.

(* ===================================================================== *)
(** ** What a rejection leaves in the request (C10) *)
(* ===================================================================== *)

Module RejectionFacts.
Import pathSecurity.

Lemma set_prop_object o k v : is_object o -> is_object (set_prop o k v).
Proof. intros [ps ->]. simpl. eexists. reflexivity. Qed.

Lemma prop_set_prop o k v : is_object o -> prop (set_prop o k v) k = v.
Proof. intros [ps ->]. apply assoc_set_same. Qed.

(** A check that passes keeps an object, and touches its own field only. *)
Lemma checkPath_passes cfg args args1 :
  is_object args -> checkPath cfg args = (args1, None) ->
  is_object args1 /\ forall k, k <> "path" -> prop args1 k = prop args k.
Proof.
  unfold checkPath. intros Hobj.
  destruct (prop args "path") as [| | | |path| |]; try (intros [= <-]; now split).
  destruct (sanitizePath cfg (VStr path)); [|discriminate].
  intros [= <-]. split; [now apply set_prop_object|].
  intros k Hk. now apply prop_set_prop_other.
Qed.

Lemma checkPaths_passes cfg args args1 :
  is_object args -> checkPaths cfg args = (args1, None) ->
  is_object args1 /\ forall k, k <> "paths" -> prop args1 k = prop args k.
Proof.
  unfold checkPaths. intros Hobj.
  destruct (prop args "paths") as [| | | | |paths|]; try (intros [= <-]; now split).
  destruct (sanitizePaths cfg paths); [|discriminate].
  intros [= <-]. split; [now apply set_prop_object|].
  intros k Hk. now apply prop_set_prop_other.
Qed.

Lemma checkEndpoint_passes cfg field message args args1 :
  is_object args -> checkEndpoint cfg field message args = (args1, None) ->
  is_object args1 /\ forall k, k <> field -> prop args1 k = prop args k.
Proof.
  unfold checkEndpoint. intros Hobj.
  destruct (prop args field) as [| | | |path| |]; try (intros [= <-]; now split).
  destruct (sanitizePath cfg (VStr path)); [|discriminate].
  intros [= <-]. split; [now apply set_prop_object|].
  intros k Hk. now apply prop_set_prop_other.
Qed.

(** A failing endpoint is overwritten with [null]. *)
Lemma checkEndpoint_fails cfg field message args path :
  is_object args -> prop args field = VStr path -> sanitizePath cfg (VStr path) = None ->
  checkEndpoint cfg field message args = (set_prop args field VNull, Some message)
  /\ prop (set_prop args field VNull) field = VNull.
Proof.
  intros Hobj Hfield Hbad. unfold checkEndpoint. rewrite Hfield, Hbad.
  split; [reflexivity | now apply prop_set_prop].
Qed.

Lemma assoc_has_key k ps : assoc k ps <> VUndefined -> has_key k ps = true.
Proof.
  induction ps as [|[k' v] ps IH]; simpl; [congruence|].
  destruct (String.eqb k k'); simpl; auto.
Qed.

Section Request.

Variables (cfg : Config) (request : value) (aps : list (string * value)).
Hypothesis filesystem : serverName cfg = "filesystem".
Hypothesis toolCall : is_string (prop request "method") "tools/call" = true.
Hypothesis arguments : prop (prop request "params") "arguments" = VObj aps.

Lemma request_shape :
  exists ps qs, request = VObj ps /\ assoc "params" ps = VObj qs
                /\ assoc "arguments" qs = VObj aps.
Proof using arguments.
  clear toolCall.
  destruct request as [| | | | | |ps]; try discriminate arguments.
  simpl in arguments. destruct (assoc "params" ps) as [| | | | | |qs] eqn:E;
    try discriminate arguments.
  exists ps, qs. auto.
Qed.

Lemma processRequestUnlogged_checks :
  processRequestUnlogged cfg request =
  let '(args, found) := checkArguments cfg (VObj aps) in
  match found with
  | Some message => violation (with_arguments request args) message
  | None => with_arguments request args
  end.
Proof.
  unfold processRequestUnlogged. rewrite filesystem, toolCall, arguments. simpl.
  destruct request_shape as (ps & qs & -> & _). reflexivity.
Qed.

Lemma processRequest_steps :
  processRequest cfg request =
  let '(args1, found1) := checkPath cfg (VObj aps) in
  match found1 with
  | Some message => violation (with_arguments request args1) message
  | None =>
      let '(args2, found2) := checkPaths cfg args1 in
      match found2 with
      | Some message =>
          if joinable (prop args1 "paths")
          then violation (with_arguments request args2) message
          else with_arguments request args1
      | None =>
          let '(args, found) :=
            and_then (checkEndpoint cfg "source" "Access denied to source path")
                     (checkEndpoint cfg "destination"
                                    "Access denied to destination path") args2 in
          match found with
          | Some message => violation (with_arguments request args) message
          | None => with_arguments request args
          end
      end
  end.
Proof.
  unfold processRequest. rewrite filesystem, toolCall, arguments. simpl.
  destruct request_shape as (ps & qs & -> & _). reflexivity.
Qed.

Lemma with_arguments_read args :
  prop (prop (with_arguments request args) "params") "arguments" = args.
Proof.
  destruct request_shape as (ps & qs & -> & Hq & _).
  unfold with_arguments. simpl. rewrite assoc_set_same, Hq. apply assoc_set_same.
Qed.

Lemma with_arguments_same : with_arguments request (VObj aps) = request.
Proof.
  destruct request_shape as (ps & qs & -> & Hq & Ha).
  unfold with_arguments. simpl. rewrite Hq. simpl.
  rewrite <- Ha, assoc_set_id by (apply assoc_has_key; congruence).
  rewrite <- Hq, assoc_set_id by (apply assoc_has_key; congruence).
  reflexivity.
Qed.

Lemma violation_read args message :
  let result := violation (with_arguments request args) message in
  truthy (prop result "__securityViolation") = true
  /\ prop result "__errorMessage" = VStr message
  /\ prop (prop result "params") "arguments" = args.
Proof.
  cbv zeta. pose proof (with_arguments_read args) as Hread.
  destruct request_shape as (ps & qs & Hreq & _).
  unfold violation. rewrite Hreq in Hread |- *.
  unfold with_arguments in Hread |- *. simpl in Hread |- *.
  split; [|split].
  - now rewrite assoc_set_other, assoc_set_same by discriminate.
  - now rewrite assoc_set_same.
  - now rewrite !assoc_set_other by discriminate.
Qed.

End Request.

End RejectionFacts.

(** C10: a rejection by [processRequest] can leave the request changed.  For
    a [tools/call] request to the filesystem server whose [arguments] is an
    object:
    - when [path] fails sanitation, the marked request is the original one
      with the two marker fields added, its arguments as they were, and the
      path is part of the message;
    - when [paths] fails (after [path] passed), the request returned still
      has the original [paths] array, nothing of it written back; it is
      marked when the warning's [args.paths.join(', ')] can be evaluated, and
      otherwise comes from the [catch], with no marker added;
    - when [source] fails (after [path] and [paths] passed), the marked
      request has [source] overwritten with [null], and likewise
      [destination] (after [source] passed). *)
Theorem processRequest_rejection_not_atomic cfg request aps :
  serverName cfg = "filesystem" ->
  is_string (prop request "method") "tools/call" = true ->
  prop (prop request "params") "arguments" = VObj aps ->
  let args := VObj aps in
  let result := pathSecurity.processRequest cfg request in
  let args' := prop (prop result "params") "arguments" in
  (forall path,
      prop args "path" = VStr path ->
      pathSecurity.sanitizePath cfg (VStr path) = None ->
      result = pathSecurity.violation request ("Access denied to path: " +:+ path)
      /\ marked result
      /\ includes ("Access denied to path: " +:+ path) path = true
      /\ args' = args)
  /\ (forall args1 paths,
         pathSecurity.checkPath cfg args = (args1, None) ->
         prop args "paths" = VArr paths ->
         pathSecurity.sanitizePaths cfg paths = None ->
         prop args' "paths" = VArr paths
         /\ if joinable (VArr paths)
            then marked result
                 /\ reason result = VStr "Access denied to one or more requested paths"
            else prop result "__securityViolation" = prop request "__securityViolation")
  /\ (forall args1 args2 source,
         pathSecurity.checkPath cfg args = (args1, None) ->
         pathSecurity.checkPaths cfg args1 = (args2, None) ->
         prop args "source" = VStr source ->
         pathSecurity.sanitizePath cfg (VStr source) = None ->
         marked result
         /\ reason result = VStr "Access denied to source path"
         /\ prop args' "source" = VNull)
  /\ (forall args1 args2 args3 destination,
         pathSecurity.checkPath cfg args = (args1, None) ->
         pathSecurity.checkPaths cfg args1 = (args2, None) ->
         pathSecurity.checkEndpoint cfg "source" "Access denied to source path" args2
         = (args3, None) ->
         prop args "destination" = VStr destination ->
         pathSecurity.sanitizePath cfg (VStr destination) = None ->
         marked result
         /\ reason result = VStr "Access denied to destination path"
         /\ prop args' "destination" = VNull).
Proof.
  intros Hfs Hcall Hargs args result args'. subst args' result args.
  rewrite (RejectionFacts.processRequest_steps cfg request aps Hfs Hcall Hargs).
  assert (Hobj : is_object (VObj aps)) by (eexists; reflexivity).
  unfold pathSecurity.and_then.
  split; [|split; [|split]].
  - intros path Hpath Hbad.
    assert (E : pathSecurity.checkPath cfg (VObj aps)
                = (VObj aps, Some ("Access denied to path: " +:+ path))).
    { unfold pathSecurity.checkPath. now rewrite Hpath, Hbad. }
    rewrite E.
    destruct (RejectionFacts.violation_read request aps Hcall Hargs (VObj aps)
                ("Access denied to path: " +:+ path)) as (Hm & _ & Ha).
    rewrite (RejectionFacts.with_arguments_same request aps Hcall Hargs) in *.
    split; [reflexivity|]. split; [exact Hm|]. split; [|exact Ha].
    apply includes_spec. exists "Access denied to path: ", "". now rewrite append_nil_r.
  - intros args1 paths H1 Hpaths Hbad. rewrite H1.
    destruct (RejectionFacts.checkPath_passes _ _ _ Hobj H1) as (Hobj1 & Hframe1).
    unfold pathSecurity.checkPaths. rewrite Hframe1, Hpaths, Hbad by discriminate.
    destruct (RejectionFacts.violation_read request aps Hcall Hargs args1
                "Access denied to one or more requested paths") as (Hm & Hr & Ha).
    destruct (joinable (VArr paths)).
    + split; [|split; [exact Hm | exact Hr]].
      rewrite Ha, Hframe1 by discriminate. exact Hpaths.
    + rewrite (RejectionFacts.with_arguments_read request aps Hcall Hargs args1).
      split; [rewrite Hframe1 by discriminate; exact Hpaths|].
      unfold pathSecurity.with_arguments. apply prop_set_prop_other. discriminate.
  - intros args1 args2 source H1 H2 Hsource Hbad. rewrite H1, H2.
    destruct (RejectionFacts.checkPath_passes _ _ _ Hobj H1) as (Hobj1 & Hframe1).
    destruct (RejectionFacts.checkPaths_passes _ _ _ Hobj1 H2) as (Hobj2 & Hframe2).
    assert (Hsource2 : prop args2 "source" = VStr source)
      by (rewrite Hframe2, Hframe1 by discriminate; exact Hsource).
    destruct (RejectionFacts.checkEndpoint_fails cfg "source" "Access denied to source path"
                args2 source Hobj2 Hsource2 Hbad) as (-> & Hnull).
    destruct (RejectionFacts.violation_read request aps Hcall Hargs
                (set_prop args2 "source" VNull) "Access denied to source path")
      as (Hm & Hr & Ha).
    split; [exact Hm|]. split; [exact Hr|]. rewrite Ha. exact Hnull.
  - intros args1 args2 args3 destination H1 H2 H3 Hdest Hbad. rewrite H1, H2, H3.
    destruct (RejectionFacts.checkPath_passes _ _ _ Hobj H1) as (Hobj1 & Hframe1).
    destruct (RejectionFacts.checkPaths_passes _ _ _ Hobj1 H2) as (Hobj2 & Hframe2).
    destruct (RejectionFacts.checkEndpoint_passes _ _ _ _ _ Hobj2 H3) as (Hobj3 & Hframe3).
    assert (Hdest3 : prop args3 "destination" = VStr destination)
      by (rewrite Hframe3, Hframe2, Hframe1 by discriminate; exact Hdest).
    destruct (RejectionFacts.checkEndpoint_fails cfg "destination"
                "Access denied to destination path" args3 destination Hobj3 Hdest3 Hbad)
      as (-> & Hnull).
    destruct (RejectionFacts.violation_read request aps Hcall Hargs
                (set_prop args3 "destination" VNull) "Access denied to destination path")
      as (Hm & Hr & Ha).
    split; [exact Hm|]. split; [exact Hr|]. rewrite Ha. exact Hnull.
Qed.

Lemma processRequest_rejection_not_atomic_witness :
  let args' := prop (prop (pathSecurity.processRequest tight moveRequest) "params")
                    "arguments" in
  marked (pathSecurity.processRequest tight moveRequest)
  /\ prop args' "source" = VNull
  /\ prop args' "path" = VStr "/srv/data/a"
  /\ prop args' "destination" = VStr "/srv/data/b".
Proof.
  cbv zeta.
  destruct (processRequest_rejection_not_atomic tight moveRequest _ eq_refl eq_refl eq_refl)
    as (_ & _ & Hsource & _).
  destruct (Hsource _ _ "/etc/passwd" eq_refl eq_refl eq_refl eq_refl)
    as (Hmarked & _ & Hnull).
  split; [exact Hmarked|]. split; [exact Hnull|]. split; reflexivity.
Defined.

(* ===================================================================== *)
(** ** Oversized lines (C4) *)
(* ===================================================================== *)

(** No parse-error response of the line handler prints as [tooLargeText]. *)
Lemma tooLargeText_not_parseError e :
  template (stringify (parseError e)) <> tooLargeText.
Proof.
  intros H. vm_compute in H. discriminate H.
Qed.

(** C4 as stated fails: for the oversized [longLine] the handler writes the
    invalid-request response [tooLargeText], which is no parse-error response. *)
Lemma oversized_line_not_parse_error :
  ~ (forall cfg line st (W : Type) (h : handler W) (w : W),
        maxRequestSize cfg < strlen line ->
        exists e,
          trace_of (exec h (onLine cfg line st) w)
          = [OPrint (template (stringify (parseError e)))]).
Proof.
  intros H.
  destruct (H tight longLine empty_store _ Script.answer Script.offline eq_refl)
    as [e He].
  apply (tooLargeText_not_parseError e).
  change (trace_of (exec Script.answer (onLine tight longLine empty_store) Script.offline))
    with [OPrint tooLargeText] in He.
  now inversion He.
Qed.

(** C4, amended: for every input line whose length is above the configured
    maximum request size, the line handler writes one line, the
    invalid-request response with [id: null], code -32600 and the message
    "Request too large"; it does not hand the line to [JSON.parse], it leaves
    the cache and the rate limiter as they are, and the next lines are
    handled as if this one had not been there. *)
Theorem oversized_line_rejected cfg line st :
  maxRequestSize cfg < strlen line ->
  onLine cfg line st = Vis (ConsoleLog tooLargeText) (fun _ => Ret st)
  /\ template (stringify (createErrorResponse VNull (-32600) (VStr "Request too large")))
     = tooLargeText
  /\ forall (W : Type) (h : handler W) (w : W),
       exec h (onLine cfg line st) w
       = ([OPrint tooLargeText], st, snd (h _ (ConsoleLog tooLargeText) w))
       /\ forall rest,
            exec h (onLines cfg (line :: rest) st) w
            = let '(t, st', w') :=
                exec h (onLines cfg rest st) (snd (h _ (ConsoleLog tooLargeText) w)) in
              (OPrint tooLargeText :: t, st', w').
Proof.
  intros Hlong.
  assert (Hrun : onLine cfg line st = Vis (ConsoleLog tooLargeText) (fun _ => Ret st)).
  { unfold onLine. apply Z.ltb_lt in Hlong. now rewrite Hlong. }
  split; [exact Hrun|]. split; [reflexivity|].
  intros W h w. split.
  - rewrite Hrun. simpl. now destruct (h _ (ConsoleLog tooLargeText) w) as [[] w1].
  - intros rest. simpl onLines. rewrite Hrun. simpl.
    destruct (h _ (ConsoleLog tooLargeText) w) as [[] w1]. simpl.
    now destruct (exec h (onLines cfg rest st) w1) as [[t st'] w'].
Qed.

Lemma oversized_line_rejected_witness :
  trace_of (exec Script.answer
              (onLines tight [longLine; "{}"] empty_store)
              (Script.World 1000 1 [] [] [] [] [inr (VObj [])]))
  = [ OPrint tooLargeText;
      OParse "{}" (inr (VObj []));
      ONow 1000; ONow 1001;
      OFetch "http://localhost:9876/filesystem"
             [("Content-Type", "application/json"); ("Authorization", "Bearer secret")]
             "{}" 500 (inl Script.refused);
      ORandom (1 # 2); OWait (backoffDelay tight 0 (1 # 2));
      OFetch "http://localhost:9876/filesystem"
             [("Content-Type", "application/json"); ("Authorization", "Bearer secret")]
             "{}" 500 (inl Script.refused);
      ORandom (1 # 2); OWait (backoffDelay tight 1 (1 # 2));
      OFetch "http://localhost:9876/filesystem"
             [("Content-Type", "application/json"); ("Authorization", "Bearer secret")]
             "{}" 500 (inl Script.refused);
      OPrint (json_text
        "{'jsonrpc':'2.0','error':{'code':-32003,'message':'Failed to communicate with MCP proxy: connect ECONNREFUSED'}}") ].
Proof.
  destruct (oversized_line_rejected tight longLine empty_store eq_refl) as (_ & _ & Hrun).
  destruct (Hrun _ Script.answer (Script.World 1000 1 [] [] [] [] [inr (VObj [])]))
    as (_ & Hnext).
  rewrite (Hnext ["{}"]). vm_compute. reflexivity.
Defined.

(* ===================================================================== *)
(** ** The cache by itself *)
(* ===================================================================== *)

(** X1: with caching enabled, [cache.set] followed by [cache.get] of the
    same key returns the stored value as long as the clock of the [get] is not
    past the clock of the [set] plus the time to live (equal is still valid);
    past it, the [get] answers [undefined] and removes the entry.  The [set]
    leaves all other keys and the rate limiter as they were. *)
Theorem cache_set_then_get cfg (W : Type) (h : handler W) (w : W) key v st :
  responseCache cfg = true ->
  let stored_at := fst (h _ DateNow w) in
  let read_at := fst (h _ DateNow (snd (h _ DateNow w))) in
  let after_set := exec h (cache.set cfg key v st) w in
  let st1 := result_of after_set in
  let r := exec h (cache.get cfg key st1) (snd after_set) in
  trace_of after_set = [ONow stored_at]
  /\ trace_of r = [ONow read_at]
  /\ (read_at <= stored_at + cacheTTLMs cfg -> result_of r = (v, st1))
  /\ (stored_at + cacheTTLMs cfg < read_at ->
      fst (result_of r) = VUndefined
      /\ entries (snd (result_of r)) !! key = None
      /\ forall key', key' <> key ->
           entries (snd (result_of r)) !! key' = entries st !! key')
  /\ (forall key', key' <> key -> entries st1 !! key' = entries st !! key')
  /\ requests st1 = requests st.
Proof.
  intros Hon. cbv zeta. rewrite exec_cache_set, Hon.
  destruct (h _ DateNow w) as [stored_at w1] eqn:E0. simpl.
  unfold cache.get. rewrite Hon. simpl.
  rewrite lookup_insert_eq. simpl.
  destruct (h _ DateNow w1) as [read_at w2]. simpl.
  split; [reflexivity|].
  destruct (stored_at + cacheTTLMs cfg <? read_at) eqn:Hexp; simpl.
  - apply Z.ltb_lt in Hexp. split; [reflexivity|]. split; [lia|]. split.
    + intros _. split; [reflexivity|]. split; [apply lookup_delete_eq|].
      intros key' Hne. rewrite lookup_delete_ne, lookup_insert_ne by congruence.
      reflexivity.
    + split; [|reflexivity]. intros key' Hne. now rewrite lookup_insert_ne by congruence.
  - apply Z.ltb_ge in Hexp. split; [reflexivity|]. split; [reflexivity|]. split; [lia|].
    split; [|reflexivity]. intros key' Hne. now rewrite lookup_insert_ne by congruence.
Qed.

(** A response stored at 1000 with a time to live of one second is still
    served at 1001. *)
Lemma cache_set_then_get_witness :
  let after_set :=
    exec Script.answer (cache.set tight "resources/list:{}" written empty_store)
         Script.offline in
  let r := exec Script.answer (cache.get tight "resources/list:{}" (result_of after_set))
                (snd after_set) in
  trace_of after_set = [ONow 1000]
  /\ trace_of r = [ONow 1001]
  /\ fst (result_of r) = written.
Proof.
  destruct (cache_set_then_get tight _ Script.answer Script.offline
              "resources/list:{}" written empty_store eq_refl)
    as (Hset & Hget & Hvalid & _).
  split; [exact Hset|]. split; [exact Hget|].
  exact (f_equal fst (Hvalid ltac:(vm_compute; discriminate))).
Defined.

(* ===================================================================== *)
(** ** The runs of the forwarder as a relation *)
(* ===================================================================== *)

Section ForwardSound.

Context (cfg : Config) {W : Type} (h : handler W).

Lemma lookup_looked cacheKey st w :
  let r := exec h (lookup cfg cacheKey st) w in
  looked cfg cacheKey st (trace_of r) (result_of r).
Proof.
  cbv zeta. rewrite exec_lookup.
  destruct (usable cacheKey) as [key|] eqn:Hkey; [|now constructor].
  destruct (responseCache cfg) eqn:Hon; [|now apply looked_off with key].
  destruct (entries st !! key) as [entry|] eqn:Hentry; [|now apply looked_absent with key].
  destruct (h _ DateNow w) as [now w1].
  destruct (expiry entry <? now) eqn:Hexp.
  - apply looked_expired with entry; auto. now apply Z.ltb_lt.
  - apply looked_valid with key; auto. now apply Z.ltb_ge.
Qed.

(** Every run of [forwardToProxy] is one of the relation. *)
Lemma forwardToProxy_forward_of request st w :
  let r := exec h (forwardToProxy cfg request st) w in
  forward_of cfg request st (trace_of r) (result_of r).
Proof.
  cbv zeta.
  destruct (nullish request) eqn:Hnull.
  { unfold forwardToProxy. rewrite Hnull. now constructor. }
  destruct (truthy (prop request "__securityViolation")) eqn:Hmark.
  { unfold forwardToProxy. rewrite Hnull, Hmark. now constructor. }
  destruct (maxRequestSize cfg <? byteLength (template (stringify request))) eqn:Hsize.
  { unfold forwardToProxy. rewrite Hnull, Hmark, Hsize.
    apply forward_too_large; auto. now apply Z.ltb_lt. }
  assert (Hf : forwardable cfg request) by (unfold forwardable; auto).
  rewrite (exec_forward cfg h request st w Hf).
  pose proof (exec_throttle cfg h st w) as Ht. cbv zeta in Ht. rewrite Ht. clear Ht.
  destruct (h Z DateNow w) as [now w1]. simpl fst. simpl snd.
  destruct (rateLimitPerMinute cfg <=? _) eqn:Hlim.
  { apply forward_limited; auto. unfold passes. apply Z.leb_le in Hlim. lia. }
  assert (Hpass : passes cfg st now) by (unfold passes; apply Z.leb_gt in Hlim; lia).
  destruct (h Z DateNow w1) as [now' w2]. simpl fst. simpl snd.
  fold (recorded st now now').
  destruct (cache.createKey request) as [cacheKey|e] eqn:Hkey.
  2:{ now apply forward_key_thrown. }
  pose proof (lookup_looked cacheKey (recorded st now now') w2) as Hl. cbv zeta in Hl.
  destruct (exec h (lookup cfg cacheKey _) w2) as [[t2 [[cachedResponse|] st3]] w3].
  - now apply forward_hit with cacheKey.
  - pose proof (retryLoop_loop_of cfg request (template (stringify request)) cacheKey h
                  (Z.to_nat (maxRetries cfg + 1)) 0 None st3 w3) as Hloop.
    cbv zeta in Hloop.
    destruct (exec h (retryLoop _ _ _ _ _ _ _ _) w3) as [[t3 res] w4].
    exact (forward_posted cfg request st now now' cacheKey t2 st3 t3 res Hf Hpass Hkey Hl Hloop).
Qed.

End ForwardSound.

(* ===================================================================== *)
(** ** What every run of the retry loop has *)
(* ===================================================================== *)

Lemma prints_app t1 t2 : prints (t1 ++ t2) = (prints t1 ++ prints t2)%list.
Proof. unfold prints. now rewrite flat_map_app. Qed.

Lemma readings_app t1 t2 : readings (t1 ++ t2) = (readings t1 ++ readings t2)%list.
Proof. unfold readings. now rewrite flat_map_app. Qed.

Lemma quiet_prints t : quiet t -> prints t = [].
Proof.
  unfold quiet. induction t as [|o t IH]; simpl; [auto|].
  destruct o; simpl; try discriminate. exact IH.
Qed.

Lemma quiet_posted cfg request t : quiet t -> Forall (postedBy cfg request) t.
Proof.
  unfold quiet. induction t as [|o t IH]; simpl; [constructor|].
  destruct o; simpl; try discriminate. intros H. constructor; [exact I | auto].
Qed.

Section LoopFacts.

Variable cfg : Config.
Variables (request : value) (body : string) (cacheKey : option string).

Lemma attempt_counts ta outcome :
  attempt_of cfg body ta outcome ->
  attempts ta = 1%nat /\ schedule ta = [Post] /\ randoms ta = []
  /\ prints ta = [] /\ readings ta = [].
Proof. intros Ha. inversion Ha; subst; repeat split; reflexivity. Qed.

Lemma attempt_posted ta outcome :
  body = template (stringify request) ->
  attempt_of cfg body ta outcome -> Forall (postedBy cfg request) ta.
Proof.
  intros Hb Ha. inversion Ha; subst; repeat constructor; simpl; auto.
Qed.

Lemma stored_counts key v st ts st' :
  stored cfg key v st ts st' ->
  quiet ts /\ requests st' = requests st.
Proof. intros Hs. inversion Hs; subst; split; reflexivity. Qed.

(** The loop makes at most as many attempts as it has turns, writes nothing
    to stdout, posts the request each time, and leaves the rate limiter
    alone. *)
Lemma loop_counts st remaining attempt lastError t res :
  loop_of cfg request body cacheKey st remaining attempt lastError t res ->
  (attempts t <= remaining)%nat
  /\ prints t = []
  /\ (body = template (stringify request) -> Forall (postedBy cfg request) t)
  /\ requests (snd res) = requests st.
Proof.
  induction 1 as [ | ? ? ? ta ? Ha | ? ? ? ta ? ? ? ? Ha ? Hs | ? ? ? ta ? Ha
                 | ? ? ? ta ? Ha | ? ? ? ta ? random ? ? Ha ? ? ? IH ].
  - repeat split; auto.
  - destruct (attempt_counts _ _ Ha) as (Hn & _ & _ & Hp & _).
    rewrite Hn, Hp. repeat split; [lia|]. intros Hb. now apply attempt_posted with (inr responseData).
  - destruct (attempt_counts _ _ Ha) as (Hn & _ & _ & Hp & _).
    destruct (stored_counts _ _ _ _ _ Hs) as (Hq & Hr).
    destruct (quiet_silent _ Hq) as (_ & _ & Hn' & _).
    pose proof (quiet_prints _ Hq) as Hp'.
    rewrite attempts_app, prints_app, Hn, Hp, Hn', Hp'. repeat split; [lia | | exact Hr].
    intros Hb. apply Forall_app. split.
    + now apply attempt_posted with (inr responseData).
    + now apply quiet_posted.
  - destruct (attempt_counts _ _ Ha) as (Hn & _ & _ & Hp & _).
    rewrite Hn, Hp. repeat split; [lia|]. intros Hb. now apply attempt_posted with (inl e).
  - destruct (attempt_counts _ _ Ha) as (Hn & _ & _ & Hp & _).
    rewrite Hn, Hp. repeat split; [lia|]. intros Hb. now apply attempt_posted with (inl e).
  - destruct (attempt_counts _ _ Ha) as (Hn & _ & _ & Hp & _).
    destruct IH as (IHn & IHp & IHposted & IHr).
    rewrite attempts_app, prints_app, Hn, Hp.
    change (attempts (ORandom random :: OWait (backoffDelay cfg attempt random) :: tr))
      with (attempts tr).
    change (prints (ORandom random :: OWait (backoffDelay cfg attempt random) :: tr))
      with (prints tr).
    repeat split; [simpl; lia | exact IHp | | exact IHr].
    intros Hb. apply Forall_app. split.
    + now apply attempt_posted with (inl e).
    + constructor; [exact I|]. constructor; [exact I|]. now apply IHposted.
Qed.


(** What the loop returns and what it leaves in the cache, by the body it
    read. *)
Lemma loop_result st remaining attempt lastError t res :
  loop_of cfg request body cacheKey st remaining attempt lastError t res ->
  match body_of t with
  | Some v =>
      fst res = Normal v
      /\ match (if truthy (prop v "error") then None else usable cacheKey) with
         | Some key =>
             if responseCache cfg then
               exists now,
                 In now (readings t)
                 /\ snd res = with_entries st
                      (<[key := {| entry_value := v; expiry := now + cacheTTLMs cfg |}]>
                         (entries st))
             else snd res = st
         | None => snd res = st
         end
  | None => snd res = st
  end.
Proof.
  induction 1 as [ | ? ? ? ta ? Ha Hk | ? ? ? ta ? ? ? ? Ha Hk Hs | ? ? ? ta ? Ha
                 | ? ? ? ta ? Ha | ? ? ? ta ? random ? ? Ha ? ? ? IH ].
  - reflexivity.
  - rewrite <- (app_nil_r ta). rewrite (attempt_parsed_body _ _ _ _ _ Ha).
    simpl. now rewrite Hk.
  - rewrite (attempt_parsed_body _ _ _ _ _ Ha). simpl. rewrite Hk.
    inversion Hs as [Hoff | now Hon]; subst.
    + now rewrite Hoff.
    + rewrite Hon. split; [reflexivity|]. exists now. split; [|reflexivity].
      rewrite readings_app. apply in_or_app. right. now left.
  - rewrite <- (app_nil_r ta). now rewrite (attempt_failed_body _ _ _ _ _ Ha).
  - rewrite <- (app_nil_r ta). now rewrite (attempt_failed_body _ _ _ _ _ Ha).
  - rewrite (attempt_failed_body _ _ _ _ _ Ha). simpl.
    destruct (body_of tr) as [v|]; [|exact IH].
    destruct IH as (Hres & IH). split; [exact Hres|].
    destruct (if truthy (prop v "error") then None else usable cacheKey); [|exact IH].
    destruct (responseCache cfg); [|exact IH].
    destruct IH as (now & Hin & Hst). exists now. split; [|exact Hst].
    rewrite readings_app. apply in_or_app. right. exact Hin.
Qed.

End LoopFacts.

(* ===================================================================== *)
(** ** What every run of the forwarder has *)
(* ===================================================================== *)

Lemma usable_Some cacheKey key : usable cacheKey = Some key -> cacheKey = Some key.
Proof.
  destruct cacheKey as [k|]; simpl; [|discriminate].
  destruct (String.eqb k ""); [discriminate | congruence].
Qed.

(** A cache key is never the empty string: it passes the test
    [if (cacheKey)]. *)
Lemma createKey_usable request key :
  cache.createKey request = Normal (Some key) -> usable (Some key) = Some key.
Proof.
  unfold cache.createKey. destruct (cache.isUncacheable request); [discriminate|].
  destruct (toString (prop request "method")) as [m|]; [|discriminate].
  intros [= <-]. simpl. destruct m; reflexivity.
Qed.

Section ForwardFacts.

Variable cfg : Config.
Variable request : value.

Lemma looked_entries cacheKey st tl found st3 :
  looked cfg cacheKey st tl (found, st3) ->
  quiet tl /\ requests st3 = requests st
  /\ (entries st3 = entries st
      \/ exists key,
           cacheKey = Some key /\ responseCache cfg = true /\ found = None
           /\ entries st3 = delete key (entries st)).
Proof.
  intros Hl. inversion Hl; subst; repeat split; auto.
  right. exists key. repeat split; auto. now apply usable_Some.
Qed.

Lemma loop_entries cacheKey st remaining attempt lastError t res :
  loop_of cfg request (template (stringify request)) cacheKey st remaining attempt
          lastError t res ->
  entries (snd res) = entries st
  \/ exists key v now,
       cacheKey = Some key /\ responseCache cfg = true
       /\ body_of t = Some v /\ fst res = Normal v
       /\ truthy (prop v "error") = false
       /\ In now (readings t)
       /\ entries (snd res)
          = <[key := {| entry_value := v; expiry := now + cacheTTLMs cfg |}]> (entries st).
Proof.
  intros Hloop. apply loop_result in Hloop.
  destruct (body_of t) as [v|]; [|left; now rewrite Hloop].
  destruct Hloop as (Hres & Hst).
  destruct (truthy (prop v "error")) eqn:Herr; [left; now rewrite Hst|].
  destruct (usable cacheKey) as [key|] eqn:Hkey; [|left; now rewrite Hst].
  destruct (responseCache cfg) eqn:Hon; [|left; now rewrite Hst].
  destruct Hst as (now & Hin & Hst). right. exists key, v, now.
  rewrite Hst. repeat split; auto. now apply usable_Some.
Qed.

End ForwardFacts.

(** X2: [forwardToProxy] touches the cache at the key of its request only.
    Every other entry is left as it was; the entry of the request is left as
    it was, or (with caching enabled) it is removed because it had expired and
    the proxy gave no body to store, or it is replaced by the 2xx body that
    the run read and returns, with the expiry one time-to-live after a clock
    reading of the run.  A body with a truthy [error] is never stored. *)
Theorem forward_cache_writes cfg (W : Type) (h : handler W) (w : W) request st key :
  let r := exec h (forwardToProxy cfg request st) w in
  let st' := snd (result_of r) in
  entries st' !! key = entries st !! key
  \/ (responseCache cfg = true
      /\ cache.createKey request = Normal (Some key)
      /\ (entries st' !! key = None
          \/ exists v now,
               body_of (trace_of r) = Some v
               /\ fst (result_of r) = Normal v
               /\ truthy (prop v "error") = false
               /\ In now (readings (trace_of r))
               /\ entries st' !! key
                  = Some {| entry_value := v; expiry := now + cacheTTLMs cfg |})).
Proof.
  cbv zeta.
  pose proof (forwardToProxy_forward_of cfg h request st w) as Hrun. cbv zeta in Hrun.
  destruct (exec h (forwardToProxy cfg request st) w) as [[t [res st']] w'].
  unfold trace_of, result_of in *. simpl in *.
  inversion Hrun as [ | | | now Hf Hlim | now now' e Hf Hpass Hkey
                    | now now' cacheKey tl cachedResponse st3 Hf Hpass Hkey Hl
                    | now now' cacheKey tl st3 tp res' Hf Hpass Hkey Hl Hloop ];
    subst; try (left; reflexivity).
  - apply looked_entries in Hl. destruct Hl as (_ & _ & [He | (k & _ & _ & [=] & _)]).
    left. now rewrite He.
  - apply looked_entries in Hl. destruct Hl as (Hq & _ & Hl).
    apply loop_entries in Hloop. simpl in Hloop.
    assert (Hbody : body_of (ONow now :: ONow now' :: tl ++ tp) = body_of tp).
    { change (ONow now :: ONow now' :: tl ++ tp)%list
        with ((ONow now :: ONow now' :: tl) ++ tp)%list.
      now apply body_of_quiet. }
    assert (Hread : forall time, In time (readings tp) ->
                                 In time (readings (ONow now :: ONow now' :: tl ++ tp))).
    { intros time Hin. simpl. right. right. rewrite readings_app.
      apply in_or_app. now right. }
    destruct Hloop as [Hsame | (k & v & time & -> & Hon & Hb & Hres & Herr & Hin & Hst)].
    + rewrite Hsame. destruct Hl as [He | (k & -> & Hon & _ & He)].
      * left. now rewrite He.
      * rewrite He. simpl. destruct (decide (k = key)) as [->|Hne].
        -- right. repeat split; auto. left. apply lookup_delete_eq.
        -- left. now apply lookup_delete_ne.
    + rewrite Hst. destruct (decide (k = key)) as [->|Hne].
      * right. repeat split; auto. right. exists v, time.
        rewrite Hbody. repeat split; auto. apply lookup_insert_eq.
      * rewrite lookup_insert_ne by assumption.
        destruct Hl as [He | (k' & [= <-] & _ & _ & He)].
        -- left. now rewrite He.
        -- left. rewrite He. simpl. now apply lookup_delete_ne.
Qed.

(* ===================================================================== *)
(** ** What the forwarder reads of the cache *)
(* ===================================================================== *)

Section StoreBlind.

Context (cfg : Config) {W : Type} (h : handler W).
Variables (request : value) (body : string) (cacheKey : option string).

(** The retry loop never reads the store: it runs the same, with the same
    response, whatever the store holds. *)
Lemma retryLoop_store_blind remaining : forall attempt lastError st st' w,
  let r := exec h (retryLoop cfg request body cacheKey remaining attempt lastError st) w in
  let r' := exec h (retryLoop cfg request body cacheKey remaining attempt lastError st') w in
  trace_of r' = trace_of r
  /\ fst (result_of r') = fst (result_of r)
  /\ snd r' = snd r.
Proof.
  induction remaining as [|remaining IH]; intros attempt lastError st st' w; cbv zeta.
  - simpl. auto.
  - rewrite !exec_retryLoop_S.
    destruct (exec h (attemptOnce cfg body) w) as [[ta [e|responseData]] w1].
    + destruct (String.eqb (name e) "AbortError"); [simpl; auto|].
      destruct (maxRetries cfg <=? attempt); [simpl; auto|].
      destruct (h _ MathRandom w1) as [random w2].
      destruct (h _ (SetTimeout _) w2) as [[] w3].
      specialize (IH (attempt + 1) (Some e) st st' w3). cbv zeta in IH.
      destruct (exec h (retryLoop _ _ _ _ _ _ _ st) w3) as [[tr res] w4].
      destruct (exec h (retryLoop _ _ _ _ _ _ _ st') w3) as [[tr' res'] w4'].
      unfold trace_of, result_of in *. simpl in *.
      destruct IH as (-> & Hres & Hw). auto.
    + destruct (if truthy (prop responseData "error") then None else usable cacheKey)
        as [key|]; [|simpl; auto].
      rewrite !exec_cache_set. destruct (responseCache cfg); [|simpl; auto].
      destruct (h _ DateNow w1) as [now w2]. simpl. auto.
  Qed.

End StoreBlind.

(** The two loops of the goal, from the stores [sa] and [sb], run the same. *)
Ltac same_loop cfg h request key sa sb w :=
  let Hblind := fresh "Hblind" in
  pose proof (retryLoop_store_blind cfg h request (template (stringify request)) key
                (Z.to_nat (maxRetries cfg + 1)) 0 None sa sb w) as Hblind;
  cbv zeta in Hblind;
  destruct (exec h (retryLoop _ _ _ _ _ _ _ sa) w) as [[? ?] ?];
  destruct (exec h (retryLoop _ _ _ _ _ _ _ sb) w) as [[? ?] ?];
  unfold trace_of, result_of in *; simpl in *;
  destruct Hblind as (-> & ? & ?); auto.

(** X3: of the cache, [forwardToProxy] reads the entry of its request at
    most.  Two runs against the same environment, from stores with the same
    rate-limiter record whose caches agree at the key of the request, make
    the same events and return the same response; with caching disabled this
    holds whatever the two caches hold. *)
Theorem forward_reads_own_entry cfg (W : Type) (h : handler W) (w : W) request st st' :
  requests st' = requests st ->
  (responseCache cfg = true ->
   forall key, cache.createKey request = Normal (Some key) ->
               entries st' !! key = entries st !! key) ->
  let r := exec h (forwardToProxy cfg request st) w in
  let r' := exec h (forwardToProxy cfg request st') w in
  trace_of r' = trace_of r
  /\ fst (result_of r') = fst (result_of r)
  /\ snd r' = snd r.
Proof.
  intros Hreq Hentry. cbv zeta.
  destruct (forwardable_or_not cfg request) as [Hf|Hnot].
  2:{ destruct (forward_local cfg request Hnot) as (res & Hrun & _).
      rewrite (Hrun st), (Hrun st'). simpl. auto. }
  rewrite !(exec_forward cfg h request _ w Hf).
  pose proof (exec_throttle cfg h st w) as Ht. cbv zeta in Ht. rewrite Ht. clear Ht.
  pose proof (exec_throttle cfg h st' w) as Ht. cbv zeta in Ht. rewrite Ht. clear Ht.
  rewrite Hreq.
  destruct (h Z DateNow w) as [now w1]. simpl fst. simpl snd.
  destruct (rateLimitPerMinute cfg <=? _); [simpl; auto|].
  destruct (h Z DateNow w1) as [now' w2]. simpl fst. simpl snd.
  set (kept := (rateLimit.recent now (requests st) ++ [now'])%list).
  destruct (cache.createKey request) as [cacheKey|e] eqn:Hkey; [|simpl; auto].
  rewrite !exec_lookup.
  destruct (usable cacheKey) as [key|] eqn:Husable.
  2:{ same_loop cfg h request cacheKey (with_requests st kept) (with_requests st' kept) w2. }
  apply usable_Some in Husable. subst cacheKey.
  destruct (responseCache cfg) eqn:Hon.
  2:{ same_loop cfg h request (Some key) (with_requests st kept) (with_requests st' kept) w2. }
  simpl entries. rewrite (Hentry eq_refl key eq_refl).
  destruct (entries st !! key) as [entry|].
  2:{ same_loop cfg h request (Some key) (with_requests st kept) (with_requests st' kept) w2. }
  destruct (h Z DateNow w2) as [now'' w3].
  destruct (expiry entry <? now'').
  - same_loop cfg h request (Some key)
              (with_entries (with_requests st kept) (delete key (entries st)))
              (with_entries (with_requests st' kept) (delete key (entries st'))) w3.
  - destruct (truthy (entry_value entry)); [simpl; auto|].
    same_loop cfg h request (Some key) (with_requests st kept) (with_requests st' kept) w3.
Qed.

(** An entry under another key changes nothing of the run. *)
Lemma forward_reads_own_entry_witness :
  let st' := with_entries warmStore
               (<["resources/list:{}" := {| entry_value := VNull; expiry := 0 |}]>
                  (entries warmStore)) in
  let r := exec Script.answer (forwardToProxy defaults (readRequest 1 "/tmp/x") warmStore)
                Script.offline in
  let r' := exec Script.answer (forwardToProxy defaults (readRequest 1 "/tmp/x") st')
                 Script.offline in
  trace_of r' = trace_of r
  /\ fst (result_of r') = fst (result_of r)
  /\ snd r' = snd r.
Proof.
  apply (forward_reads_own_entry defaults _ Script.answer Script.offline
           (readRequest 1 "/tmp/x") warmStore); [reflexivity|].
  intros _ key Hkey. injection Hkey as <-. vm_compute. reflexivity.
Defined.

(* ===================================================================== *)
(** ** The rate limiter within the forwarder *)
(* ===================================================================== *)

Lemma forwardable_not_local cfg request :
  forwardable cfg request ->
  nullish request = false
  /\ truthy (prop request "__securityViolation") = false
  /\ ~ maxRequestSize cfg < byteLength (template (stringify request)).
Proof.
  intros (Hn & Hm & Hs). repeat split; auto. apply Z.ltb_ge in Hs. lia.
Qed.

(** X4: what a call of [forwardToProxy] does to the record of the rate
    limiter.  A request that is answered locally for its marker or its size is
    not counted and reads no clock.  Any other request reads the clock; if the
    limiter does not let it pass, the run ends there with the response -32029
    and the request is not counted (the record only loses its old
    timestamps); if it passes, the old timestamps are dropped and exactly one,
    the next clock reading, is added, whether the response then comes from
    the cache, from the proxy, or is an error. *)
Theorem forward_limiter_record cfg (W : Type) (h : handler W) (w : W) request st :
  let r := exec h (forwardToProxy cfg request st) w in
  let t := trace_of r in
  let st' := snd (result_of r) in
  (~ forwardable cfg request -> t = [] /\ st' = st)
  /\ (forwardable cfg request ->
      exists now,
        hd_error t = Some (ONow now)
        /\ (~ passes cfg st now ->
            t = [ONow now]
            /\ fst (result_of r)
               = Normal (createErrorResponse (prop request "id") (-32029)
                           (VStr "Rate limit exceeded"))
            /\ st' = with_requests st (rateLimit.recent now (requests st)))
        /\ (passes cfg st now ->
            exists now',
              nth_error t 1 = Some (ONow now')
              /\ requests st' = (rateLimit.recent now (requests st) ++ [now'])%list)).
Proof.
  cbv zeta.
  pose proof (forwardToProxy_forward_of cfg h request st w) as Hrun. cbv zeta in Hrun.
  destruct (exec h (forwardToProxy cfg request st) w) as [[t [res st']] w'].
  unfold trace_of, result_of in *. simpl in *.
  inversion Hrun as [ Hnull | Hnull Hmark | Hnull Hmark Hsize | now Hf Hlim
                    | now now' e Hf Hpass Hkey
                    | now now' cacheKey tl cachedResponse st3 Hf Hpass Hkey Hl
                    | now now' cacheKey tl st3 tp res' Hf Hpass Hkey Hl Hloop ];
    subst.
  - split; [auto|].
    intros Hf. apply forwardable_not_local in Hf. destruct Hf as (Hf & _). congruence.
  - split; [auto|].
    intros Hf. apply forwardable_not_local in Hf. destruct Hf as (_ & Hf & _). congruence.
  - split; [auto|].
    intros Hf. apply forwardable_not_local in Hf. destruct Hf as (_ & _ & Hf). contradiction.
  - split; [intros Hnot; contradiction|].
    intros _. exists now. split; [reflexivity|]. split; [auto|].
    intros Hpass. contradiction.
  - split; [intros Hnot; contradiction|].
    intros _. exists now. split; [reflexivity|]. split; [intros Hnot; contradiction|].
    intros _. now exists now'.
  - apply looked_entries in Hl. destruct Hl as (_ & Hreq & _).
    split; [intros Hnot; contradiction|].
    intros _. exists now. split; [reflexivity|]. split; [intros Hnot; contradiction|].
    intros _. now exists now'.
  - apply looked_entries in Hl. destruct Hl as (_ & Hreq & _).
    apply loop_counts in Hloop. destruct Hloop as (_ & _ & _ & Hreq').
    simpl in Hreq'.
    split; [intros Hnot; contradiction|].
    intros _. exists now. split; [reflexivity|]. split; [intros Hnot; contradiction|].
    intros _. exists now'. split; [reflexivity|]. now rewrite Hreq', Hreq.
Qed.


(** X6: no HTTP request without need.  When a call of [forwardToProxy]
    makes an HTTP attempt, the request is not [null], carries no
    security-violation marker and is within the size limit; the rate limiter
    let it pass at the first clock reading of the run; its cache key could be
    built; and the cache held no response for it that was still valid at the
    third clock reading and truthy. *)
Theorem forward_attempt_only_if cfg (W : Type) (h : handler W) (w : W) request st :
  let t := trace_of (exec h (forwardToProxy cfg request st) w) in
  (0 < attempts t)%nat ->
  forwardable cfg request
  /\ (exists now, hd_error t = Some (ONow now) /\ passes cfg st now)
  /\ exists cacheKey,
       cache.createKey request = Normal cacheKey
       /\ forall key entry,
            cacheKey = Some key -> responseCache cfg = true ->
            entries st !! key = Some entry ->
            truthy (entry_value entry) = true ->
            exists now, nth_error t 2 = Some (ONow now) /\ expiry entry < now.
Proof.
  cbv zeta.
  pose proof (forwardToProxy_forward_of cfg h request st w) as Hrun. cbv zeta in Hrun.
  destruct (exec h (forwardToProxy cfg request st) w) as [[t [res st']] w'].
  unfold trace_of, result_of in *. simpl in *.
  assert (Hquiet : quiet t -> ~ (0 < attempts t)%nat).
  { intros Hq. destruct (quiet_silent _ Hq) as (_ & _ & -> & _). lia. }
  inversion Hrun as [ | | | now Hf Hlim | now now' e Hf Hpass Hkey
                    | now now' cacheKey tl cachedResponse st3 Hf Hpass Hkey Hl
                    | now now' cacheKey tl st3 tp res' Hf Hpass Hkey Hl Hloop ];
    subst; intros Hpos; try (exfalso; apply Hquiet; [reflexivity | exact Hpos]).
  - exfalso. apply looked_entries in Hl. destruct Hl as (Hq & _).
    apply Hquiet; [exact Hq | exact Hpos].
  - split; [exact Hf|]. split; [now exists now|].
    exists cacheKey. split; [exact Hkey|].
    intros key entry -> Hon Hentry Htruthy.
    pose proof (createKey_usable _ _ Hkey) as Hus.
    inversion Hl as [ Hno | key' Hk Hoff | key' Hk _ Habsent
                    | key' entry' now'' Hk _ Hentry' Hexp
                    | key' entry' now'' Hk _ Hentry' Hvalid ]; subst;
      try congruence;
      rewrite Hus in Hk; injection Hk as <-; simpl in *.
    + congruence.
    + exists now''. split; [reflexivity|]. congruence.
    + assert (entry' = entry) by congruence. subst entry'.
      match goal with
      | H : (if truthy _ then _ else _) = None |- _ => rewrite Htruthy in H; discriminate H
      end.
Qed.

Lemma forward_attempt_only_if_witness :
  forwardable tight (readRequest 1 "/srv/data/x")
  /\ passes tight empty_store 1000.
Proof.
  destruct (forward_attempt_only_if tight _ Script.answer Script.offline
              (readRequest 1 "/srv/data/x") empty_store)
    as (Hf & (now & Hnow & Hpass) & _).
  - vm_compute. lia.
  - split; [exact Hf|]. injection Hnow as <-. exact Hpass.
Defined.

(* ===================================================================== *)
(** ** A response served again from the cache *)
(* ===================================================================== *)

(** X7: a response is served from the cache the next time.  When a call of
    [forwardToProxy] (caching enabled) read a 2xx body that is truthy and has
    no truthy [error], a following call for a request with the same cache key,
    whatever its id, that is forwardable and passes the rate limiter, and
    whose clock readings are at most one time-to-live after those of the first
    call, makes no HTTP attempt: it returns that body with the id of the new
    request, and leaves the cache entries as they are. *)
Theorem forward_again_from_cache cfg (W : Type) (h : handler W) (w : W)
        request request' st key v :
  let r := exec h (forwardToProxy cfg request st) w in
  let r' := exec h (forwardToProxy cfg request' (snd (result_of r))) (snd r) in
  responseCache cfg = true ->
  cache.createKey request = Normal (Some key) ->
  cache.createKey request' = Normal (Some key) ->
  body_of (trace_of r) = Some v ->
  truthy v = true ->
  truthy (prop v "error") = false ->
  forwardable cfg request' ->
  passes cfg (snd (result_of r)) (fst (h Z DateNow (snd r))) ->
  (forall t1 t2, In t1 (readings (trace_of r)) -> In t2 (readings (trace_of r')) ->
                 t2 <= t1 + cacheTTLMs cfg) ->
  attempts (trace_of r') = 0%nat
  /\ fst (result_of r') = Normal (VObj (assoc_set (spread v) "id" (prop request' "id")))
  /\ entries (snd (result_of r')) = entries (snd (result_of r)).
Proof.
  cbv zeta. intros Hon Hkey Hkey' Hbody Htruthy Herr Hf' Hpass.
  pose proof (forwardToProxy_forward_of cfg h request st w) as Hrun. cbv zeta in Hrun.
  destruct (exec h (forwardToProxy cfg request st) w) as [[t [res st1]] w1].
  unfold trace_of, result_of in *. simpl in *.
  (* the first call stored the body *)
  assert (Hstored : exists time,
             In time (readings t)
             /\ entries st1 !! key
                = Some {| entry_value := v; expiry := time + cacheTTLMs cfg |}).
  { inversion Hrun as [ | | | now Hf Hlim | now now' e Hf Hp Hk
                      | now now' cacheKey tl cachedResponse st3 Hf Hp Hk Hl
                      | now now' cacheKey tl st3 tp res' Hf Hp Hk Hl Hloop ];
      subst; try discriminate Hbody.
    - apply looked_entries in Hl. destruct Hl as (Hq & _).
      assert (Hpre : quiet (ONow now :: ONow now' :: tl)) by exact Hq.
      rewrite (body_of_none_quiet _ Hpre) in Hbody. discriminate.
    - apply looked_entries in Hl. destruct Hl as (Hq & _).
      assert (Hpre : quiet (ONow now :: ONow now' :: tl)) by exact Hq.
      change (ONow now :: ONow now' :: tl ++ tp)%list
        with ((ONow now :: ONow now' :: tl) ++ tp)%list in Hbody.
      rewrite (body_of_quiet _ _ Hpre) in Hbody.
      apply loop_result in Hloop. rewrite Hbody, Herr in Hloop. simpl in Hloop.
      assert (cacheKey = Some key) by congruence. subst cacheKey.
      rewrite (createKey_usable _ _ Hkey), Hon in Hloop.
      destruct Hloop as (_ & time & Hin & ->). exists time. split.
      + simpl. right. right. rewrite readings_app. apply in_or_app. now right.
      + simpl. apply lookup_insert_eq. }
  destruct Hstored as (time & Hin & Hentry).
  clear Hrun Hbody.
  (* the second call finds it *)
  rewrite (exec_forward cfg h request' st1 w1 Hf').
  pose proof (exec_throttle cfg h st1 w1) as Ht. cbv zeta in Ht. rewrite Ht. clear Ht.
  destruct (h Z DateNow w1) as [now w2]. simpl fst in *. simpl snd.
  replace (rateLimitPerMinute cfg <=? _) with false
    by (symmetry; apply Z.leb_gt; exact Hpass).
  destruct (h Z DateNow w2) as [now' w3]. simpl fst. simpl snd.
  rewrite Hkey', exec_lookup, (createKey_usable _ _ Hkey'), Hon. simpl entries.
  rewrite Hentry. simpl expiry. simpl entry_value.
  destruct (h Z DateNow w3) as [now'' w4].
  destruct (time + cacheTTLMs cfg <? now'') eqn:Hexp.
  - apply Z.ltb_lt in Hexp.
    destruct (exec h (retryLoop _ _ _ _ _ _ _ _) w4) as [[t3 res3] w5].
    simpl. intros Htime. exfalso.
    specialize (Htime time now'' Hin). simpl in Htime.
    assert (now'' <= time + cacheTTLMs cfg) by (apply Htime; auto). lia.
  - rewrite Htruthy. simpl. intros _. auto.
Qed.

Lemma forward_again_from_cache_witness :
  let r := exec Script.answer (forwardToProxy tight (readRequest 1 "/srv/data/x") empty_store)
                (Script.answering written) in
  let r' := exec Script.answer
                 (forwardToProxy tight (readRequest 2 "/srv/data/x") (snd (result_of r)))
                 (snd r) in
  attempts (trace_of r) = 1%nat
  /\ attempts (trace_of r') = 0%nat
  /\ fst (result_of r')
     = Normal (VObj [ ("jsonrpc", VStr "2.0"); ("id", VNum 2); ("result", VObj []) ]).
Proof.
  split; [vm_compute; reflexivity|].
  destruct (forward_again_from_cache tight _ Script.answer (Script.answering written)
              (readRequest 1 "/srv/data/x") (readRequest 2 "/srv/data/x") empty_store
              (json_text "tools/call:{'name':'read_file','arguments':{'path':'/srv/data/x'}}")
              written)
    as (Hnone & Hres & _);
    [ reflexivity | vm_compute; reflexivity | vm_compute; reflexivity
    | vm_compute; reflexivity | reflexivity | reflexivity
    | repeat split; vm_compute; reflexivity
    | vm_compute; reflexivity
    | intros t1 t2 H1 H2; vm_compute in H1, H2;
      change (cacheTTLMs tight) with 1000; lia
    | split; [exact Hnone | exact Hres] ].
Defined.

(* ===================================================================== *)
(** ** Runs of the line handler *)
(* ===================================================================== *)

(** A run of [forwardToProxy] leaves at most one timestamp more, and never
    more than the limit. *)
Lemma forward_of_requests cfg request st t res :
  forward_of cfg request st t res ->
  Z.of_nat (List.length (requests (snd res)))
  <= Z.max (Z.of_nat (List.length (requests st))) (rateLimitPerMinute cfg).
Proof.
  intros Hrun.
  assert (Hkept : forall now,
             (List.length (rateLimit.recent now (requests st))
              <= List.length (requests st))%nat) by (intros; apply recent_length).
  inversion Hrun as [ | | | now Hf Hlim | now now' e Hf Hpass Hkey
                    | now now' cacheKey tl cachedResponse st3 Hf Hpass Hkey Hl
                    | now now' cacheKey tl st3 tp res' Hf Hpass Hkey Hl Hloop ];
    subst; simpl; try lia.
  - specialize (Hkept now). lia.
  - rewrite List.length_app. simpl. unfold passes in Hpass. lia.
  - apply looked_entries in Hl. destruct Hl as (_ & -> & _).
    simpl. rewrite List.length_app. simpl. unfold passes in Hpass. lia.
  - apply looked_entries in Hl. destruct Hl as (_ & Hreq & _).
    apply loop_counts in Hloop. destruct Hloop as (_ & _ & _ & ->).
    rewrite Hreq. simpl. rewrite List.length_app. simpl. unfold passes in Hpass. lia.
Qed.

Lemma forward_of_prints cfg request st t res :
  forward_of cfg request st t res -> prints t = [].
Proof.
  intros Hrun.
  inversion Hrun as [ | | | now Hf Hlim | now now' e Hf Hpass Hkey
                    | now now' cacheKey tl cachedResponse st3 Hf Hpass Hkey Hl
                    | now now' cacheKey tl st3 tp res' Hf Hpass Hkey Hl Hloop ];
    subst; try reflexivity.
  - apply looked_entries in Hl. destruct Hl as (Hq & _). simpl. now apply quiet_prints.
  - apply looked_entries in Hl. destruct Hl as (Hq & _).
    apply loop_counts in Hloop. destruct Hloop as (_ & Hp & _).
    simpl. now rewrite prints_app, (quiet_prints _ Hq), Hp.
Qed.

Section LineRuns.

Context (cfg : Config) {W : Type} (h : handler W).

(** The handler of a line that is not too long, by the answers of the
    environment. *)
Lemma exec_onLine line st w :
  strlen line <= maxRequestSize cfg ->
  exec h (onLine cfg line st) w =
  let '(parsed, w1) := h _ (JSONParse line) w in
  match parsed with
  | inl e =>
      ([OParse line (inl e); OPrint (template (stringify (parseError e)))], st,
       snd (h _ (ConsoleLog (template (stringify (parseError e)))) w1))
  | inr request =>
      let '(t, (res, st'), w2) :=
        exec h (forwardToProxy cfg (pathSecurity.processRequest cfg request) st) w1 in
      let text :=
        template (stringify match res with
                            | Normal response => response
                            | Throw e => parseError e
                            end) in
      ((OParse line (inr request) :: t ++ [OPrint text])%list, st',
       snd (h _ (ConsoleLog text) w2))
  end.
Proof.
  intros Hshort. unfold onLine.
  replace (maxRequestSize cfg <? strlen line) with false by (symmetry; apply Z.ltb_ge; lia).
  simpl. destruct (h _ (JSONParse line) w) as [[e|request] w1].
  - unfold print. simpl. now destruct (h _ (ConsoleLog _) w1) as [[] w2].
  - rewrite exec_bind.
    destruct (exec h (forwardToProxy cfg _ st) w1) as [[t [[response|e] st']] w2];
      unfold print; simpl; now destruct (h _ (ConsoleLog _) w2) as [[] w3].
Qed.

(** One line is answered by one line, written last. *)
Lemma onLine_answer line st w :
  let r := exec h (onLine cfg line st) w in
  (exists pre text, trace_of r = (pre ++ [OPrint text])%list /\ prints pre = [])
  /\ Z.of_nat (List.length (requests (result_of r)))
     <= Z.max (Z.of_nat (List.length (requests st))) (rateLimitPerMinute cfg).
Proof.
  cbv zeta. destruct (Z.ltb_spec (maxRequestSize cfg) (strlen line)) as [Hlong|Hshort].
  - assert (Hrun : onLine cfg line st = Vis (ConsoleLog tooLargeText) (fun _ => Ret st)).
    { unfold onLine. apply Z.ltb_lt in Hlong. now rewrite Hlong. }
    rewrite Hrun. simpl. destruct (h _ (ConsoleLog tooLargeText) w) as [[] w1].
    split; [now exists [], tooLargeText | unfold result_of; simpl; lia].
  - rewrite (exec_onLine line st w Hshort).
    destruct (h _ (JSONParse line) w) as [[e|request] w1].
    + split; [|unfold result_of; simpl; lia].
      now exists [OParse line (inl e)], (template (stringify (parseError e))).
    + pose proof (forwardToProxy_forward_of cfg h
                    (pathSecurity.processRequest cfg request) st w1) as Hrun.
      cbv zeta in Hrun.
      destruct (exec h (forwardToProxy cfg _ st) w1) as [[t [res st']] w2].
      unfold trace_of, result_of in *. simpl in *. split.
      * eexists (OParse line (inr request) :: t), _. split; [reflexivity|].
        simpl. now apply forward_of_prints in Hrun.
      * now apply forward_of_requests in Hrun.
Qed.

Lemma exec_onLines_cons line rest st w :
  exec h (onLines cfg (line :: rest) st) w =
  let '(t1, st1, w1) := exec h (onLine cfg line st) w in
  let '(t2, st2, w2) := exec h (onLines cfg rest st1) w1 in
  ((t1 ++ t2)%list, st2, w2).
Proof.
  change (onLines cfg (line :: rest) st)
    with (let* st' := onLine cfg line st in onLines cfg rest st').
  apply exec_bind.
Qed.

End LineRuns.

(** X8: every input line is answered by exactly one line on stdout, and
    that line is the last event of its handling: whatever the line is (too
    long, no JSON, rejected, rate limited, served from the cache, answered by
    the proxy or not), its handler writes one line, after all its other
    events.  So the handling of [n] lines, one after the other, writes [n]
    lines. *)
Theorem onLines_one_answer_per_line cfg (W : Type) (h : handler W) (w : W) lines st :
  (forall line,
      exists pre text,
        trace_of (exec h (onLine cfg line st) w) = (pre ++ [OPrint text])%list
        /\ prints pre = [])
  /\ List.length (prints (trace_of (exec h (onLines cfg lines st) w)))
     = List.length lines.
Proof.
  split; [intros line; apply (onLine_answer cfg h line st w)|].
  revert st w. induction lines as [|line rest IH]; intros st w; [reflexivity|].
  rewrite exec_onLines_cons.
  destruct (onLine_answer cfg h line st w) as ((pre & text & Ht & Hpre) & _).
  destruct (exec h (onLine cfg line st) w) as [[t1 st1] w1].
  specialize (IH st1 w1).
  destruct (exec h (onLines cfg rest st1) w1) as [[t2 st2] w2].
  unfold trace_of in *. simpl in *. subst t1.
  rewrite !prints_app, Hpre, List.length_app. simpl. now rewrite IH.
Qed.

(** X9: the record of the rate limiter stays bounded.  Over the handling of
    any number of lines, the list [rateLimit.requests] never holds more
    timestamps than the larger of what it held at the start and the
    configured limit; started empty, it never holds more than the limit. *)
Theorem onLines_limiter_bounded cfg (W : Type) (h : handler W) (w : W) lines st :
  let st' := result_of (exec h (onLines cfg lines st) w) in
  Z.of_nat (List.length (requests st'))
  <= Z.max (Z.of_nat (List.length (requests st))) (rateLimitPerMinute cfg)
  /\ (requests st = [] ->
      Z.of_nat (List.length (requests st')) <= Z.max 0 (rateLimitPerMinute cfg)).
Proof.
  cbv zeta.
  assert (Hbound : forall lines st w,
             Z.of_nat (List.length (requests (result_of (exec h (onLines cfg lines st) w))))
             <= Z.max (Z.of_nat (List.length (requests st))) (rateLimitPerMinute cfg)).
  { clear. intros lines. induction lines as [|line rest IH]; intros st w.
    - unfold result_of. simpl. lia.
    - rewrite exec_onLines_cons.
      destruct (onLine_answer cfg h line st w) as (_ & Hone).
      destruct (exec h (onLine cfg line st) w) as [[t1 st1] w1].
      specialize (IH st1 w1).
      destruct (exec h (onLines cfg rest st1) w1) as [[t2 st2] w2].
      unfold result_of in *. simpl in *. lia. }
  split; [apply Hbound|].
  intros Hempty. specialize (Hbound lines st w). rewrite Hempty in Hbound.
  simpl in Hbound. exact Hbound.
Qed.

(** X10: a line that is no request.  When a line (not too long) does not
    parse, the handler writes the parse-error response, with [id: null], code
    -32700 and the message of the parser after "Parse error: ".  The same
    response, with the message of a [TypeError], answers a line that parses to
    [null]: reading a property of [null] throws into the same [catch].  In
    both cases nothing is posted, and the cache and the rate limiter stay as
    they are. *)
Theorem onLine_not_a_request cfg (W : Type) (h : handler W) (w : W) line st :
  strlen line <= maxRequestSize cfg ->
  let parsed := fst (h _ (JSONParse line) w) in
  let r := exec h (onLine cfg line st) w in
  (forall e,
      parsed = inl e ->
      trace_of r = [OParse line (inl e); OPrint (template (stringify (parseError e)))]
      /\ result_of r = st)
  /\ (parsed = inr VNull ->
      exists e,
        name e = "TypeError"
        /\ trace_of r
           = [OParse line (inr VNull); OPrint (template (stringify (parseError e)))]
        /\ result_of r = st)
  /\ forall e,
       prop (parseError e) "id" = VNull
       /\ errorCode (parseError e) = VNum (-32700)
       /\ errorMessage (parseError e) = VStr ("Parse error: " +:+ message e).
Proof.
  intros Hshort. cbv zeta. rewrite (exec_onLine cfg h line st w Hshort).
  destruct (h _ (JSONParse line) w) as [parsed w1]. simpl fst.
  split; [|split].
  - intros e ->. split; reflexivity.
  - intros ->.
    exists (TypeError "Cannot read properties of null (reading '__securityViolation')").
    split; [reflexivity|].
    replace (pathSecurity.processRequest cfg VNull) with VNull
      by (unfold pathSecurity.processRequest; now destruct (negb _)).
    split; reflexivity.
  - intros e. repeat split.
Qed.

Lemma onLine_not_a_request_witness :
  trace_of (exec Script.answer (onLine tight "{" empty_store) Script.offline)
  = [ OParse "{" (inl Script.badJson);
      OPrint (json_text
        "{'jsonrpc':'2.0','id':null,'error':{'code':-32700,'message':'Parse error: Unexpected end of JSON input'}}") ].
Proof.
  destruct (onLine_not_a_request tight _ Script.answer Script.offline "{" empty_store)
    as (Hbad & _); [vm_compute; discriminate|].
  exact (proj1 (Hbad Script.badJson eq_refl)).
Defined.

(* ===================================================================== *)
(** ** Denied requests end at the line handler *)
(* ===================================================================== *)

Section Denial.

Import pathSecurity.

Variable cfg : Config.

Lemma checkPath_message args args1 message :
  checkPath cfg args = (args1, Some message) ->
  exists rest, message = "Access denied to " +:+ rest.
Proof.
  unfold checkPath. destruct (prop args "path") as [| | | |path| |]; try discriminate.
  destruct (sanitizePath cfg (VStr path)); [discriminate|].
  intros [= _ <-]. now exists ("path: " +:+ path).
Qed.

Lemma checkPaths_message args args1 message :
  checkPaths cfg args = (args1, Some message) ->
  exists rest, message = "Access denied to " +:+ rest.
Proof.
  unfold checkPaths. destruct (prop args "paths") as [| | | | |paths|]; try discriminate.
  destruct (sanitizePaths cfg paths); [discriminate|].
  intros [= _ <-]. now exists "one or more requested paths".
Qed.

Lemma checkEndpoint_message field rest args args1 message :
  checkEndpoint cfg field ("Access denied to " +:+ rest) args = (args1, Some message) ->
  message = "Access denied to " +:+ rest.
Proof.
  unfold checkEndpoint. destruct (prop args field) as [| | | |path| |]; try discriminate.
  destruct (sanitizePath cfg (VStr path)); [discriminate|].
  now intros [= _ <-].
Qed.

(** Every message of a rejection starts the same way; none is empty. *)
Lemma checkArguments_message args args' message :
  checkArguments cfg args = (args', Some message) ->
  exists rest, message = "Access denied to " +:+ rest.
Proof.
  unfold checkArguments, and_then.
  destruct (checkPath cfg args) as [args1 [m1|]] eqn:E1.
  { intros [= _ <-]. eapply checkPath_message, E1. }
  destruct (checkPaths cfg args1) as [args2 [m2|]] eqn:E2.
  { intros [= _ <-]. eapply checkPaths_message, E2. }
  destruct (checkEndpoint cfg "source" _ args2) as [args3 [m3|]] eqn:E3.
  { intros [= _ <-]. exists "source path".
    apply (checkEndpoint_message "source" "source path" args2 args3). exact E3. }
  intros E4. exists "destination path".
  apply (checkEndpoint_message "destination" "destination path" args3 args'). exact E4.
Qed.

End Denial.

Section Warning.

Import pathSecurity.

Variable cfg : Config.

Lemma checkPath_other args args1 found k :
  checkPath cfg args = (args1, found) -> k <> "path" -> prop args1 k = prop args k.
Proof.
  unfold checkPath. destruct (prop args "path") as [| | | |path| |];
    try (intros [= <- _]; reflexivity).
  destruct (sanitizePath cfg (VStr path)); intros [= <- _] Hk; [|reflexivity].
  apply prop_set_prop_other. congruence.
Qed.

Lemma checkPaths_fails args args2 message :
  checkPaths cfg args = (args2, Some message) ->
  args2 = args /\ exists paths, prop args "paths" = VArr paths
                                /\ sanitizePaths cfg paths = None.
Proof.
  unfold checkPaths. destruct (prop args "paths") as [| | | | |paths|]; try discriminate.
  destruct (sanitizePaths cfg paths) eqn:E; [discriminate|].
  intros [= <- _]. split; [reflexivity|]. now exists paths.
Qed.

Lemma checkArguments_steps args :
  checkArguments cfg args =
  let '(args1, found1) := checkPath cfg args in
  match found1 with
  | Some _ => (args1, found1)
  | None =>
      let '(args2, found2) := checkPaths cfg args1 in
      match found2 with
      | Some _ => (args2, found2)
      | None =>
          and_then (checkEndpoint cfg "source" "Access denied to source path")
                   (checkEndpoint cfg "destination" "Access denied to destination path")
                   args2
      end
  end.
Proof. reflexivity. Qed.

(** With a [paths] argument that can be joined, the warning changes
    nothing. *)
Lemma processRequest_agrees request :
  joinable (prop (prop (prop request "params") "arguments") "paths") = true ->
  processRequest cfg request = processRequestUnlogged cfg request.
Proof.
  intros Hjoin. unfold processRequestUnlogged, processRequest.
  destruct (negb _); [reflexivity|]. destruct (nullish request); [reflexivity|].
  destruct (_ && _); [|reflexivity].
  rewrite checkArguments_steps.
  destruct (checkPath cfg _) as [args1 [m1|]] eqn:E1; [reflexivity|].
  destruct (checkPaths cfg args1) as [args2 [m2|]] eqn:E2; [|reflexivity].
  rewrite (checkPath_other _ _ _ "paths" E1) by discriminate.
  now rewrite Hjoin.
Qed.

End Warning.

(** X11: a denied request ends at the line handler.  For a [tools/call]
    request to the filesystem server whose arguments fail a check of
    [processRequest] (the [paths] argument being one that the warning can
    print), the handler of its line writes the invalid-request response, with
    code -32600, the message of the check and the id of the request, right
    after the parse: no clock is read, nothing is posted, and the cache and
    the rate limiter stay as they are. *)
Theorem onLine_denied cfg (W : Type) (h : handler W) (w : W) line st request aps message :
  serverName cfg = "filesystem" ->
  strlen line <= maxRequestSize cfg ->
  fst (h _ (JSONParse line) w) = inr request ->
  is_string (prop request "method") "tools/call" = true ->
  prop (prop request "params") "arguments" = VObj aps ->
  joinable (assoc "paths" aps) = true ->
  snd (pathSecurity.checkArguments cfg (VObj aps)) = Some message ->
  let r := exec h (onLine cfg line st) w in
  pathSecurity.processRequest cfg request = processRequestUnlogged cfg request
  /\ marked (pathSecurity.processRequest cfg request)
  /\ trace_of r
     = [ OParse line (inr request);
         OPrint (template (stringify (createErrorResponse (prop request "id") (-32600)
                                                           (VStr message)))) ]
  /\ result_of r = st.
Proof.
  intros Hfs Hshort Hparse Hcall Hargs Hjoin Hden. cbv zeta.
  assert (Hagree : pathSecurity.processRequest cfg request
                   = processRequestUnlogged cfg request)
    by (apply processRequest_agrees; rewrite Hargs; exact Hjoin).
  split; [exact Hagree|].
  rewrite (exec_onLine cfg h line st w Hshort).
  destruct (h _ (JSONParse line) w) as [parsed w1]. simpl in Hparse. subst parsed.
  rewrite Hagree.
  rewrite (RejectionFacts.processRequestUnlogged_checks cfg request aps Hfs Hcall Hargs).
  destruct (pathSecurity.checkArguments cfg (VObj aps)) as [args found] eqn:E.
  simpl in Hden. subst found.
  split; [apply (RejectionFacts.violation_read request aps Hcall Hargs)|].
  destruct (checkArguments_message cfg _ _ _ E) as [rest ->].
  destruct (RejectionFacts.request_shape request aps Hargs) as (ps & qs & -> & _).
  unfold pathSecurity.with_arguments. simpl set_prop.
  rewrite forward_violation by (intros H; discriminate H).
  simpl. rewrite assoc_set_other by discriminate. split; reflexivity.
Qed.

Lemma onLine_denied_witness :
  trace_of (exec Script.answer (onLine tight "(a move)" empty_store)
                 (Script.World 1000 1 [] [] [] [] [inr moveRequest]))
  = [ OParse "(a move)" (inr moveRequest);
      OPrint (json_text
        "{'jsonrpc':'2.0','id':4,'error':{'code':-32600,'message':'Access denied to source path'}}") ].
Proof.
  destruct (onLine_denied tight _ Script.answer
              (Script.World 1000 1 [] [] [] [] [inr moveRequest])
              "(a move)" empty_store moveRequest
              [ ("path", VStr "/srv/data/./a"); ("source", VStr "/etc/passwd");
                ("destination", VStr "/srv/data/b") ]
              "Access denied to source path")
    as (_ & _ & Htrace & _);
    [ reflexivity | vm_compute; discriminate | reflexivity | reflexivity | reflexivity
    | reflexivity | vm_compute; reflexivity | exact Htrace ].
Defined.

(** X12: the warning that defeats the check of [paths].  When the [paths]
    argument of a [tools/call] request to the filesystem server holds a path
    that fails sanitation and an entry without a string form (an object with
    an own property [toString], say), building the warning about the failing
    array throws, and [processRequest] returns the request from its [catch]:
    without the security-violation marker (unless it came with one), with the
    [paths] array as it was sent.  Left aside the warning, the request
    would be marked. *)
Theorem processRequest_unjoinable_paths cfg request aps paths :
  serverName cfg = "filesystem" ->
  is_string (prop request "method") "tools/call" = true ->
  prop (prop request "params") "arguments" = VObj aps ->
  snd (pathSecurity.checkPath cfg (VObj aps)) = None ->
  assoc "paths" aps = VArr paths ->
  pathSecurity.sanitizePaths cfg paths = None ->
  joinable (VArr paths) = false ->
  let result := pathSecurity.processRequest cfg request in
  result = pathSecurity.with_arguments request (fst (pathSecurity.checkPath cfg (VObj aps)))
  /\ prop result "__securityViolation" = prop request "__securityViolation"
  /\ prop (prop (prop result "params") "arguments") "paths" = VArr paths
  /\ marked (processRequestUnlogged cfg request).
Proof.
  intros Hfs Hcall Hargs Hpath Hpaths Hbad Hjoin. cbv zeta.
  assert (Hrun : pathSecurity.processRequest cfg request
                 = pathSecurity.with_arguments request
                     (fst (pathSecurity.checkPath cfg (VObj aps)))).
  { unfold pathSecurity.processRequest. rewrite Hfs, Hcall, Hargs. simpl.
    destruct (RejectionFacts.request_shape request aps Hargs) as (ps & qs & -> & _).
    simpl nullish. cbv iota.
    destruct (pathSecurity.checkPath cfg (VObj aps)) as [args1 found1] eqn:E1.
    simpl in Hpath. subst found1. simpl fst.
    assert (Hp1 : prop args1 "paths" = VArr paths).
    { rewrite (checkPath_other cfg _ _ _ "paths" E1) by discriminate. exact Hpaths. }
    unfold pathSecurity.checkPaths. rewrite Hp1, Hbad, Hjoin. reflexivity. }
  split; [exact Hrun|]. rewrite Hrun.
  destruct (pathSecurity.checkPath cfg (VObj aps)) as [args1 found1] eqn:E1.
  simpl in Hpath. subst found1. simpl fst.
  split; [|split].
  - unfold pathSecurity.with_arguments. apply prop_set_prop_other. discriminate.
  - rewrite (RejectionFacts.with_arguments_read request aps Hcall Hargs).
    rewrite (checkPath_other cfg _ _ _ "paths" E1) by discriminate. exact Hpaths.
  - rewrite (RejectionFacts.processRequestUnlogged_checks cfg request aps Hfs Hcall Hargs).
    rewrite checkArguments_steps, E1. unfold pathSecurity.checkPaths.
    rewrite (checkPath_other cfg _ _ _ "paths" E1) by discriminate.
    simpl prop. rewrite Hpaths, Hbad.
    apply (RejectionFacts.violation_read request aps Hcall Hargs).
Qed.

(** The request [unjoinableRequest] asks for [/etc/passwd] under the
    allow-list [/srv/data]: it comes back unmarked, and is posted. *)
Lemma processRequest_unjoinable_paths_witness :
  pathSecurity.processRequest tight unjoinableRequest = unjoinableRequest
  /\ attempts (trace_of (exec Script.answer
                           (forwardToProxy tight
                              (pathSecurity.processRequest tight unjoinableRequest)
                              empty_store)
                           Script.offline)) = 3%nat.
Proof.
  split; [|vm_compute; reflexivity].
  destruct (processRequest_unjoinable_paths tight unjoinableRequest
              [ ("paths", VArr [ VStr "/etc/passwd"; VObj [ ("toString", VNum 1) ] ]) ]
              [ VStr "/etc/passwd"; VObj [ ("toString", VNum 1) ] ])
    as (Hrun & _);
    [ reflexivity | reflexivity | reflexivity | reflexivity | reflexivity | reflexivity
    | reflexivity | exact Hrun ].
Defined.

(* ===================================================================== *)
(** ** The shape of a normalized path *)
(* ===================================================================== *)

Module NormalFacts.
Import Path.

Lemma split_nonempty p : split p <> [].
Proof.
  destruct p as [|c p]; simpl; [discriminate|].
  destruct (Ascii.eqb c slash); [discriminate|]. destruct (split p); discriminate.
Qed.

Lemma split_slashFree p : Forall (fun seg => slashFree seg = true) (split p).
Proof.
  induction p as [|c p IH]; simpl.
  - repeat constructor.
  - destruct (Ascii.eqb c slash) eqn:E.
    + constructor; [reflexivity | exact IH].
    + destruct (split p) as [|s rest]; [repeat constructor; simpl; now rewrite E|].
      inversion IH; subst. constructor; [|assumption]. simpl. now rewrite E.
Qed.

Lemma split_slash a b : split (a +:+ String slash b) = (split a ++ split b)%list.
Proof.
  induction a as [|c a IH].
  - reflexivity.
  - rewrite append_cons. simpl. rewrite IH.
    destruct (Ascii.eqb c slash); [reflexivity|].
    pose proof (split_nonempty a) as Hne. now destruct (split a).
Qed.

Lemma split_segment seg : slashFree seg = true -> split seg = [seg].
Proof.
  induction seg as [|c seg IH]; simpl; [reflexivity|].
  intros H. apply andb_true_iff in H. destruct H as [Hc Hseg].
  apply negb_true_iff in Hc. rewrite Hc, (IH Hseg). reflexivity.
Qed.

Lemma split_join segs :
  segs <> [] -> Forall (fun seg => slashFree seg = true) segs ->
  split (join sep segs) = segs.
Proof.
  induction segs as [|x segs IH]; [contradiction|].
  intros _ Hall. inversion Hall as [|? ? Hx Hrest]; subst.
  destruct segs as [|y segs]; [now apply split_segment|].
  change (join sep (x :: y :: segs)) with (x +:+ String slash (join sep (y :: segs))).
  rewrite split_slash, (split_segment x Hx), IH by (assumption || discriminate).
  reflexivity.
Qed.

Lemma plain_slashFree seg : plainSegment seg -> slashFree seg = true.
Proof. now intros (_ & _ & _ & H). Qed.

Lemma plain_kept seg : plainSegment seg -> keptSegment seg.
Proof.
  intros (Hne & _ & _ & Hfree). split; [exact Hne|].
  destruct seg as [|c seg]; [reflexivity|]. simpl in *.
  apply andb_true_iff in Hfree. destruct Hfree as [Hc _]. now apply negb_true_iff in Hc.
Qed.

Lemma step_plain allow stack seg : plainSegment seg -> step allow stack seg = seg :: stack.
Proof.
  intros (H0 & H1 & H2 & _). unfold step.
  replace (String.eqb seg "") with false by (symmetry; now apply String.eqb_neq).
  replace (String.eqb seg ".") with false by (symmetry; now apply String.eqb_neq).
  replace (String.eqb seg "..") with false by (symmetry; now apply String.eqb_neq).
  reflexivity.
Qed.

Lemma fold_step_plain allow segs stack :
  Forall plainSegment segs ->
  fold_left (step allow) segs stack = (rev segs ++ stack)%list.
Proof.
  revert stack. induction segs as [|seg segs IH]; intros stack Hall; simpl; [reflexivity|].
  inversion Hall; subst. rewrite step_plain, IH by assumption.
  now rewrite <- app_assoc.
Qed.

Lemma fold_step_climbs k j :
  fold_left (step true) (List.repeat ".." k) (List.repeat ".." j)
  = List.repeat ".." (k + j).
Proof.
  revert j. induction k as [|k IH]; intros j; simpl; [reflexivity|].
  replace (step true (List.repeat ".." j) "..") with (List.repeat ".." (S j))
    by (destruct j; reflexivity).
  rewrite IH, Nat.add_succ_r. reflexivity.
Qed.

Lemma rev_repeat {A : Type} (x : A) k : rev (List.repeat x k) = List.repeat x k.
Proof.
  induction k as [|k IH]; simpl; [reflexivity|].
  rewrite IH. clear IH. induction k as [|k IH]; simpl; [reflexivity|]. now rewrite IH.
Qed.

(** One step keeps the stack normal. *)
Lemma step_normal allow stack seg :
  normalStack allow stack -> slashFree seg = true -> normalStack allow (step allow stack seg).
Proof.
  intros (plain & climbs & -> & Hplain & Hclimbs) Hfree. unfold step.
  destruct (String.eqb seg "") eqn:E0; simpl orb.
  { exists plain, climbs. auto. }
  destruct (String.eqb seg ".") eqn:E1; simpl orb.
  { exists plain, climbs. auto. }
  destruct (String.eqb seg "..") eqn:E2.
  - apply String.eqb_eq in E2. subst seg.
    destruct plain as [|top plain].
    + simpl. destruct climbs as [|climbs]; simpl.
      * destruct allow.
        -- exists [], 1%nat. repeat split; auto. discriminate.
        -- exists [], O. repeat split; auto.
      * destruct allow.
        -- exists [], (S (S climbs)). repeat split; auto. discriminate.
        -- exists [], (S climbs). repeat split; auto.
    + simpl. inversion Hplain as [|? ? Htop Hrest]; subst.
      replace (String.eqb top "..") with false
        by (symmetry; apply String.eqb_neq; apply Htop).
      exists plain, climbs. auto.
  - exists (seg :: plain), climbs. repeat split; auto.
    constructor; [|assumption].
    apply String.eqb_neq in E0, E1, E2. repeat split; assumption.
Qed.

Lemma fold_step_normal allow segs stack :
  normalStack allow stack -> Forall (fun seg => slashFree seg = true) segs ->
  normalStack allow (fold_left (step allow) segs stack).
Proof.
  revert stack. induction segs as [|seg segs IH]; intros stack Hs Hall; simpl; [assumption|].
  inversion Hall; subst. apply IH; [now apply step_normal | assumption].
Qed.

Lemma normalStack_nil allow : normalStack allow [].
Proof. exists [], O. repeat split; auto. Qed.

(** Folding the kept segments again gives them back. *)
Lemma fold_step_again allow stack :
  normalStack allow stack -> fold_left (step allow) (rev stack) [] = stack.
Proof.
  intros (plain & climbs & -> & Hplain & Hclimbs).
  rewrite rev_app_distr, rev_repeat, fold_left_app.
  destruct allow.
  - pose proof (fold_step_climbs climbs 0) as Hfold. simpl in Hfold.
    rewrite Hfold, Nat.add_0_r.
    rewrite fold_step_plain by (now apply Forall_rev). now rewrite rev_involutive.
  - rewrite (Hclimbs eq_refl). simpl.
    rewrite fold_step_plain by (now apply Forall_rev).
    now rewrite rev_involutive.
Qed.

Lemma normalStack_slashFree allow stack :
  normalStack allow stack -> Forall (fun seg => slashFree seg = true) stack.
Proof.
  intros (plain & climbs & -> & Hplain & _). apply Forall_app. split.
  - eapply List.Forall_impl; [|exact Hplain]. apply plain_slashFree.
  - clear. induction climbs; simpl; constructor; auto.
Qed.

Lemma normalStack_kept allow stack :
  normalStack allow stack -> Forall keptSegment stack.
Proof.
  intros (plain & climbs & -> & Hplain & _). apply Forall_app. split.
  - eapply List.Forall_impl; [|exact Hplain]. apply plain_kept.
  - clear. induction climbs; simpl; constructor; auto. split; [discriminate | reflexivity].
Qed.

Lemma kept_join_nonempty segs :
  segs <> [] -> Forall keptSegment segs -> join sep segs <> "".
Proof.
  destruct segs as [|x segs]; [contradiction|].
  intros _ Hall. inversion Hall as [|? ? [Hx _] _]; subst.
  destruct x as [|c x]; [contradiction|].
  destruct segs; [discriminate|]. simpl. rewrite append_cons. discriminate.
Qed.

Lemma endsWithSlash_app a b : b <> "" -> endsWithSlash (a +:+ b) = endsWithSlash b.
Proof.
  intros Hb. induction a as [|c a IH]; [reflexivity|].
  rewrite append_cons. simpl. rewrite IH.
  destruct (a +:+ b) eqn:E; [|reflexivity].
  destruct a; simpl in E; [contradiction | discriminate].
Qed.

Lemma endsWithSlash_segment seg : slashFree seg = true -> endsWithSlash seg = false.
Proof.
  induction seg as [|c seg IH]; [reflexivity|]. simpl.
  intros H. apply andb_true_iff in H. destruct H as [Hc Hseg].
  apply negb_true_iff in Hc. destruct seg; [exact Hc | now apply IH].
Qed.

Lemma endsWithSlash_join segs :
  segs <> [] -> Forall keptSegment segs ->
  Forall (fun seg => slashFree seg = true) segs ->
  endsWithSlash (join sep segs) = false.
Proof.
  induction segs as [|x segs IH]; [contradiction|].
  intros _ Hkept Hfree.
  inversion Hkept as [|? ? Hx Hkept']; inversion Hfree as [|? ? Hfx Hfree']; subst.
  destruct segs as [|y segs]; [now apply endsWithSlash_segment|].
  change (join sep (x :: y :: segs)) with (x +:+ sep +:+ join sep (y :: segs)).
  rewrite <- append_assoc, endsWithSlash_app.
  - apply IH; [discriminate | assumption | assumption].
  - apply kept_join_nonempty; [discriminate | assumption].
Qed.

(** [normalizeString], by the stack it builds. *)
Lemma normalizeString_stack p allow :
  exists stack,
    normalStack allow stack /\ normalizeString p allow = join sep (rev stack).
Proof.
  exists (fold_left (step allow) (split p) []). split; [|reflexivity].
  apply fold_step_normal; [apply normalStack_nil | apply split_slashFree].
Qed.

(** A normalized string, with or without a separator before and after it,
    normalizes to itself. *)
Lemma normalizeString_again allow stack (before after : bool) :
  normalStack allow stack -> stack <> [] ->
  normalizeString ((if before then "/" else "") +:+ join sep (rev stack)
                   +:+ (if after then "/" else "")) allow
  = join sep (rev stack).
Proof.
  intros Hn Hne. unfold normalizeString. f_equal. f_equal.
  assert (Hsplit : split (join sep (rev stack)) = rev stack).
  { apply split_join.
    - intros H. apply Hne. apply (f_equal (@rev string)) in H.
      now rewrite rev_involutive in H.
    - apply Forall_rev. now apply normalStack_slashFree with allow. }
  assert (Hafter : fold_left (step allow)
                     (split (join sep (rev stack) +:+ (if after then "/" else ""))) []
                   = stack).
  { destruct after.
    - change "/" with (String slash ""). rewrite split_slash, Hsplit, fold_left_app.
      rewrite (fold_step_again allow stack Hn). reflexivity.
    - rewrite append_nil_r, Hsplit. now apply fold_step_again. }
  destruct before; [|exact Hafter].
  change ("/" +:+ join sep (rev stack) +:+ (if after then "/" else ""))
    with (String slash (join sep (rev stack) +:+ (if after then "/" else ""))).
  exact Hafter.
Qed.

(** [normalize], by the stack that [normalizeString] builds. *)
Lemma normalize_stack p :
  p <> "" ->
  exists stack,
    normalStack (negb (isAbsolute p)) stack
    /\ normalize p
       = match stack with
         | [] => if isAbsolute p then "/" else if endsWithSlash p then "./" else "."
         | _ :: _ =>
             (if isAbsolute p then "/" else "") +:+ join sep (rev stack)
             +:+ (if endsWithSlash p then "/" else "")
         end.
Proof.
  intros Hp. destruct (normalizeString_stack p (negb (isAbsolute p))) as (stack & Hn & Hq).
  exists stack. split; [exact Hn|]. unfold normalize.
  replace (String.eqb p "") with false by (symmetry; now apply String.eqb_neq).
  cbv zeta. rewrite Hq.
  destruct stack as [|top stack]; [reflexivity|].
  assert (Hne : join sep (rev (top :: stack)) <> "").
  { apply kept_join_nonempty.
    - intros H. apply (f_equal (@rev string)) in H. rewrite rev_involutive in H.
      discriminate H.
    - apply Forall_rev. now apply normalStack_kept with (negb (isAbsolute p)). }
  replace (String.eqb (join sep (rev (top :: stack))) "") with false
    by (symmetry; now apply String.eqb_neq).
  destruct (isAbsolute p), (endsWithSlash p); try reflexivity.
  - now rewrite append_nil_r.
  - now rewrite append_nil_r.
Qed.

(** A normalized path is normalized. *)
Lemma normalize_again allow stack (after : bool) :
  normalStack allow stack -> stack <> [] ->
  let n := (if allow then "" else "/") +:+ join sep (rev stack)
           +:+ (if after then "/" else "") in
  normalize n = n.
Proof.
  intros Hn Hne n.
  assert (Hq : join sep (rev stack) <> "").
  { apply kept_join_nonempty.
    - intros H. apply Hne. apply (f_equal (@rev string)) in H.
      now rewrite rev_involutive in H.
    - apply Forall_rev. now apply normalStack_kept with allow. }
  assert (Hrel : isAbsolute (join sep (rev stack)) = false).
  { apply PathFacts.join_kept. apply Forall_rev. now apply normalStack_kept with allow. }
  assert (Habs : isAbsolute n = negb allow).
  { subst n. destruct allow; [|reflexivity]. simpl negb.
    change ("" +:+ join sep (rev stack) +:+ (if after then "/" else ""))
      with (join sep (rev stack) +:+ (if after then "/" else "")).
    now rewrite PathFacts.isAbsolute_app. }
  assert (Hends : endsWithSlash n = after).
  { subst n. destruct after.
    - rewrite <- append_assoc. now rewrite endsWithSlash_app.
    - rewrite append_nil_r, endsWithSlash_app by assumption.
      apply endsWithSlash_join.
      + intros H. apply Hne. apply (f_equal (@rev string)) in H.
        now rewrite rev_involutive in H.
      + apply Forall_rev. now apply normalStack_kept with allow.
      + apply Forall_rev. now apply normalStack_slashFree with allow. }
  assert (Hnn : n <> "").
  { subst n. destruct allow.
    - change ("" +:+ join sep (rev stack) +:+ (if after then "/" else ""))
        with (join sep (rev stack) +:+ (if after then "/" else "")).
      destruct (join sep (rev stack)); [contradiction | discriminate].
    - discriminate. }
  unfold normalize.
  replace (String.eqb n "") with false by (symmetry; now apply String.eqb_neq).
  cbv zeta. rewrite Habs, Hends, Bool.negb_involutive.
  assert (Hagain : normalizeString n allow = join sep (rev stack)).
  { subst n. destruct allow.
    - apply (normalizeString_again true stack false after Hn Hne).
    - apply (normalizeString_again false stack true after Hn Hne). }
  rewrite Hagain.
  replace (String.eqb (join sep (rev stack)) "") with false
    by (symmetry; now apply String.eqb_neq).
  subst n. destruct allow, after; simpl negb; cbv iota; try reflexivity.
  - now rewrite append_nil_r.
  - now rewrite append_nil_r.
Qed.

(** The normal form of an absolute path: the separator, plain segments
    joined by the separator, and a trailing separator if the path had one and
    is not the root. *)
Lemma normalize_absolute p :
  isAbsolute p = true ->
  exists segs (trailing : bool),
    Forall plainSegment segs
    /\ (segs = [] -> trailing = false)
    /\ normalize p = "/" +:+ join sep segs +:+ (if trailing then "/" else "")
    /\ normalize (normalize p) = normalize p.
Proof.
  intros Habs.
  assert (Hp : p <> "") by (intros ->; discriminate).
  destruct (normalize_stack p Hp) as (stack & Hn & Hrun).
  rewrite Habs in Hn, Hrun. simpl negb in Hn.
  destruct stack as [|top stack].
  - exists [], false. rewrite Hrun. repeat split; auto.
  - exists (rev (top :: stack)), (endsWithSlash p). rewrite Hrun. split; [|split; [|split]].
    + destruct Hn as (plain & climbs & Hst & Hplain & Hc).
      rewrite (Hc eq_refl), app_nil_r in Hst. rewrite Hst. now apply Forall_rev.
    + intros H. apply (f_equal (@rev string)) in H. rewrite rev_involutive in H.
      discriminate H.
    + reflexivity.
    + apply (normalize_again false (top :: stack) (endsWithSlash p) Hn). discriminate.
Qed.

Lemma endsWithSlash_inv a : endsWithSlash a = true -> exists a', a = a' +:+ "/".
Proof.
  induction a as [|c a IH]; [discriminate|]. simpl.
  destruct a as [|d a].
  - intros H. apply Ascii.eqb_eq in H. subst c. now exists "".
  - intros H. destruct (IH H) as [a' ->]. now exists (String c a').
Qed.

(** No normalized absolute path continues after two separators in a
    row. *)
Lemma normal_no_double segs (trailing : bool) a rest :
  Forall plainSegment segs -> (segs = [] -> trailing = false) ->
  "/" +:+ join sep segs +:+ (if trailing then "/" else "")
  <> a +:+ "/" +:+ "/" +:+ rest.
Proof.
  intros Hplain Hroot Heq. apply (f_equal split) in Heq.
  change (a +:+ "/" +:+ "/" +:+ rest)
    with (a +:+ String slash (String slash rest)) in Heq.
  rewrite split_slash in Heq.
  change (split (String slash rest)) with ("" :: split rest) in Heq.
  change ("/" +:+ join sep segs +:+ (if trailing then "/" else ""))
    with (String slash (join sep segs +:+ (if trailing then "/" else ""))) in Heq.
  change (split (String slash (join sep segs +:+ (if trailing then "/" else ""))))
    with ("" :: split (join sep segs +:+ (if trailing then "/" else ""))) in Heq.
  pose proof (split_nonempty a) as Ha. pose proof (split_nonempty rest) as Hr.
  destruct (split a) as [|a0 la]; [contradiction|].
  destruct (split rest) as [|r0 lr]; [contradiction|].
  simpl in Heq. injection Heq as _ Heq.
  destruct segs as [|x segs].
  { rewrite (Hroot eq_refl) in Heq.
    change (split (join sep [] +:+ "")) with [""] in Heq.
    destruct la as [|? [|? ?]]; discriminate Heq. }
  assert (Hsplit : split (join sep (x :: segs) +:+ (if trailing then "/" else ""))
                   = ((x :: segs) ++ (if trailing then [""] else []))%list).
  { assert (Hs : split (join sep (x :: segs)) = x :: segs).
    { apply split_join; [discriminate|].
      eapply List.Forall_impl; [|exact Hplain]. apply plain_slashFree. }
    destruct trailing.
    - change "/" with (String slash ""). now rewrite split_slash, Hs.
    - now rewrite append_nil_r, Hs, app_nil_r. }
  rewrite Hsplit in Heq.
  assert (Hnth : nth (List.length la) ((x :: segs) ++ (if trailing then [""] else [])) "x"
                 = "").
  { rewrite Heq. rewrite app_nth2 by lia. now rewrite Nat.sub_diag. }
  assert (Hlen : (List.length la < List.length (x :: segs))%nat).
  { apply (f_equal (@List.length string)) in Heq. rewrite !List.length_app in Heq.
    destruct trailing; simpl in Heq |- *; lia. }
  rewrite app_nth1 in Hnth by exact Hlen.
  assert (Hin : In "" (x :: segs)).
  { rewrite <- Hnth. now apply nth_In. }
  rewrite List.Forall_forall in Hplain. destruct (Hplain "" Hin) as (Hne & _). now apply Hne.
Qed.

End NormalFacts.

(** [path.normalize] is idempotent: a normalized path, absolute or
    relative, with or without a trailing separator, normalizes to itself. *)
Lemma normalize_idempotent p : Path.normalize (Path.normalize p) = Path.normalize p.
Proof.
  destruct (String.eqb p "") eqn:E.
  { apply String.eqb_eq in E. subst p. reflexivity. }
  apply String.eqb_neq in E.
  destruct (NormalFacts.normalize_stack p E) as (stack & Hn & ->).
  destruct stack as [|top stack].
  - destruct (Path.isAbsolute p); [reflexivity|].
    destruct (Path.endsWithSlash p); reflexivity.
  - pose proof (NormalFacts.normalize_again (negb (Path.isAbsolute p)) (top :: stack)
                  (Path.endsWithSlash p) Hn) as Hagain.
    cbv zeta in Hagain.
    destruct (Path.isAbsolute p); simpl negb in Hagain; cbv iota in Hagain;
      apply Hagain; discriminate.
Qed.

(* ===================================================================== *)
(** ** What the path sanitizer accepts *)
(* ===================================================================== *)

(** What [sanitizePath] returns is the normal form of a string. *)
Lemma sanitizePath_Some cfg filePath sanitized :
  pathSecurity.sanitizePath cfg filePath = Some sanitized ->
  exists rawPath,
    filePath = VStr rawPath /\ Path.isAbsolute rawPath = true
    /\ sanitized = Path.normalize rawPath
    /\ (allowedPaths cfg <> [] -> pathSecurity.isAllowed cfg sanitized = true).
Proof.
  destruct filePath as [| | | |rawPath| |];
    try (unfold pathSecurity.sanitizePath; destruct (_ || _); discriminate).
  rewrite sanitizePath_string. intros H. exists rawPath.
  destruct (Path.isAbsolute rawPath); [|discriminate].
  destruct (allowedPaths cfg) as [|a l] eqn:El.
  - injection H as <-. repeat split. intros Hne. now contradiction Hne.
  - destruct (pathSecurity.isAllowed cfg (Path.normalize rawPath)) eqn:Hal; [|discriminate].
    injection H as <-. repeat split. intros _. exact Hal.
Qed.

(** X13: what [sanitizePath] returns is in normal form, and is accepted as
    it is.  The path returned is the separator followed by plain segments
    (none empty, none [.] or [..], none with a separator inside) joined by the
    separator, with at most a trailing separator; sanitizing it again returns
    it unchanged. *)
Theorem sanitizePath_normal_form cfg filePath sanitized :
  pathSecurity.sanitizePath cfg filePath = Some sanitized ->
  pathSecurity.sanitizePath cfg (VStr sanitized) = Some sanitized
  /\ exists segs (trailing : bool),
       Forall plainSegment segs
       /\ (segs = [] -> trailing = false)
       /\ sanitized = "/" +:+ join Path.sep segs +:+ (if trailing then "/" else "").
Proof.
  intros Hs. destruct (sanitizePath_Some _ _ _ Hs) as (rawPath & -> & Habs & -> & Hal).
  destruct (NormalFacts.normalize_absolute rawPath Habs)
    as (segs & trailing & Hplain & Hroot & Hshape & Hagain).
  split; [|now exists segs, trailing].
  rewrite sanitizePath_string, Hagain.
  rewrite PathFacts.normalize_isAbsolute, Habs by (intros ->; discriminate).
  destruct (allowedPaths cfg) as [|a l] eqn:El; [reflexivity|].
  rewrite Hal; [reflexivity | discriminate].
Qed.

Lemma sanitizePath_normal_form_witness :
  pathSecurity.sanitizePath tight (VStr "/srv/data/a/../b/./c/") = Some "/srv/data/b/c/"
  /\ pathSecurity.sanitizePath tight (VStr "/srv/data/b/c/") = Some "/srv/data/b/c/".
Proof.
  split; [reflexivity|].
  exact (proj1 (sanitizePath_normal_form tight (VStr "/srv/data/a/../b/./c/")
                  "/srv/data/b/c/" eq_refl)).
Defined.

(** X14: an allowed path that ends with the separator admits itself only.
    The test for a path below an allowed path is
    [startsWith(allowedPath + sep)], and no normalized path has two
    separators in a row: when every entry of the allow-list ends with the
    separator (as [/] does, and [/srv/data/]), the only paths accepted are the
    entries themselves. *)
Theorem allowedPath_trailing_separator cfg filePath sanitized :
  allowedPaths cfg <> [] ->
  Forall (fun allowedPath => Path.endsWithSlash allowedPath = true) (allowedPaths cfg) ->
  pathSecurity.sanitizePath cfg filePath = Some sanitized ->
  In sanitized (allowedPaths cfg).
Proof.
  intros Hlist Hends Hs.
  destruct (sanitizePath_Some _ _ _ Hs) as (rawPath & -> & Habs & -> & Hal).
  specialize (Hal Hlist). apply isAllowed_spec in Hal.
  destruct Hal as (a & Hin & [Heq | [rest Hbelow]]); [now rewrite Heq|].
  exfalso. rewrite List.Forall_forall in Hends.
  destruct (NormalFacts.endsWithSlash_inv a (Hends a Hin)) as [a' ->].
  destruct (NormalFacts.normalize_absolute rawPath Habs)
    as (segs & trailing & Hplain & Hroot & Hshape & _).
  rewrite Hshape in Hbelow.
  apply (NormalFacts.normal_no_double segs trailing a' rest Hplain Hroot).
  rewrite Hbelow. unfold Path.sep. now rewrite !append_assoc.
Qed.

Lemma allowedPath_trailing_separator_witness :
  pathSecurity.sanitizePath (with_allowedPaths defaults ["/srv/data/"]) (VStr "/srv/data/")
  = Some "/srv/data/"
  /\ pathSecurity.sanitizePath (with_allowedPaths defaults ["/srv/data/"])
                               (VStr "/srv/data/x") = None
  /\ In "/srv/data/" (allowedPaths (with_allowedPaths defaults ["/srv/data/"])).
Proof.
  split; [reflexivity|]. split; [reflexivity|].
  apply (allowedPath_trailing_separator (with_allowedPaths defaults ["/srv/data/"])
           (VStr "/srv/data/") "/srv/data/"); [discriminate | | reflexivity].
  repeat constructor.
Defined.

(** X15: the entries of the allow-list after start-up.  Start-up
    normalizes every entry, and a normalized entry is its own normal form, as
    the comparison with the normalized path of a request needs it.  An entry
    that is then absolute is itself accepted by [sanitizePath]; an entry that
    is relative admits no path at all, so that with relative entries only
    every path is rejected. *)
Theorem allowedPath_after_startup cfg0 allowedPath :
  let cfg := normalizeAllowedPaths cfg0 in
  In allowedPath (allowedPaths cfg) ->
  (exists configured, In configured (allowedPaths cfg0)
                      /\ allowedPath = Path.normalize configured)
  /\ Path.normalize allowedPath = allowedPath
  /\ (Path.isAbsolute allowedPath = true ->
      pathSecurity.sanitizePath cfg (VStr allowedPath) = Some allowedPath)
  /\ (Path.isAbsolute allowedPath = false ->
      forall filePath,
        pathSecurity.sanitizePath (with_allowedPaths cfg [allowedPath]) filePath = None).
Proof.
  cbv zeta. intros Hin.
  assert (Hmap : allowedPaths (normalizeAllowedPaths cfg0)
                 = List.map Path.normalize (allowedPaths cfg0)).
  { unfold normalizeAllowedPaths. destruct (allowedPaths cfg0) eqn:E; simpl.
    - now rewrite E.
    - replace (0 <? Z.pos (Pos.of_succ_nat (List.length l))) with true
        by (symmetry; apply Z.ltb_lt; lia).
      reflexivity. }
  assert (Hfrom : exists configured, In configured (allowedPaths cfg0)
                                     /\ allowedPath = Path.normalize configured).
  { rewrite Hmap in Hin. apply in_map_iff in Hin. destruct Hin as (c & <- & Hc). eauto. }
  split; [exact Hfrom|]. destruct Hfrom as (configured & Hc & ->).
  split; [apply normalize_idempotent|]. split.
  - intros Habs.
    assert (Habs0 : Path.isAbsolute configured = true).
    { destruct (String.eqb configured "") eqn:E.
      - apply String.eqb_eq in E. subst configured. discriminate Habs.
      - apply String.eqb_neq in E. now rewrite <- (PathFacts.normalize_isAbsolute _ E). }
    destruct (NormalFacts.normalize_absolute configured Habs0)
      as (_ & _ & _ & _ & _ & Hagain).
    rewrite sanitizePath_string, Habs, Hagain.
    destruct (allowedPaths (normalizeAllowedPaths cfg0)) as [|a l] eqn:El;
      [reflexivity|].
    replace (pathSecurity.isAllowed (normalizeAllowedPaths cfg0) (Path.normalize configured))
      with true; [reflexivity|].
    symmetry. apply isAllowed_spec. exists (Path.normalize configured).
    split; [rewrite El; exact Hin | now left].
  - intros Hrel filePath.
    destruct (pathSecurity.sanitizePath _ filePath) as [sanitized|] eqn:Hs; [|reflexivity].
    exfalso.
    destruct (sanitizePath_Some _ _ _ Hs) as (rawPath & -> & Habs & -> & Hal).
    specialize (Hal ltac:(discriminate)). apply isAllowed_spec in Hal.
    destruct Hal as (a & [<-|[]] & Hcase).
    assert (Hn : Path.isAbsolute (Path.normalize rawPath) = true).
    { rewrite PathFacts.normalize_isAbsolute; [exact Habs | intros ->; discriminate]. }
    assert (Hne : Path.normalize configured <> "").
    { unfold Path.normalize. destruct (String.eqb configured ""); [discriminate|].
      cbv zeta. destruct (String.eqb _ "") eqn:Eq.
      - destruct (Path.isAbsolute configured); [discriminate|].
        destruct (Path.endsWithSlash configured); discriminate.
      - apply String.eqb_neq in Eq.
        destruct (Path.isAbsolute configured); [discriminate|].
        destruct (Path.endsWithSlash configured); [|exact Eq].
        destruct (Path.normalizeString configured _); [contradiction | discriminate]. }
    destruct Hcase as [Heq | [rest Hbelow]].
    + rewrite Heq in Hn. congruence.
    + rewrite Hbelow in Hn. rewrite PathFacts.isAbsolute_app in Hn by exact Hne. congruence.
Qed.

Lemma allowedPath_after_startup_witness :
  pathSecurity.sanitizePath
    (normalizeAllowedPaths (with_allowedPaths defaults ["/srv/./data"; "data"]))
    (VStr "/srv/data") = Some "/srv/data"
  /\ pathSecurity.sanitizePath (with_allowedPaths defaults ["data"]) (VStr "/data/x") = None.
Proof.
  destruct (allowedPath_after_startup (with_allowedPaths defaults ["/srv/./data"; "data"])
              "/srv/data") as (_ & _ & Hself & _); [simpl; auto|].
  destruct (allowedPath_after_startup (with_allowedPaths defaults ["/srv/./data"; "data"])
              "data") as (_ & _ & _ & Hnone); [simpl; auto|].
  split; [exact (Hself eq_refl) | exact (Hnone eq_refl (VStr "/data/x"))].
Defined.

(* ===================================================================== *)
(** ** What [processRequest] changes of a request *)
(* ===================================================================== *)

Section Checks.

Import pathSecurity.

Variable cfg : Config.

Lemma checkPaths_other args args2 found k :
  checkPaths cfg args = (args2, found) -> k <> "paths" -> prop args2 k = prop args k.
Proof.
  unfold checkPaths. destruct (prop args "paths") as [| | | | |paths|];
    try (intros [= <- _]; reflexivity).
  destruct (sanitizePaths cfg paths); intros [= <- _] Hk; [|reflexivity].
  apply prop_set_prop_other. congruence.
Qed.

Lemma checkEndpoint_other field message args args' found k :
  checkEndpoint cfg field message args = (args', found) -> k <> field ->
  prop args' k = prop args k.
Proof.
  unfold checkEndpoint. destruct (prop args field) as [| | | |path| |];
    try (intros [= <- _]; reflexivity).
  destruct (sanitizePath cfg (VStr path)); intros [= <- _] Hk;
    apply prop_set_prop_other; congruence.
Qed.

(** The checks touch the four path arguments only. *)
Lemma checkArguments_other args args' found k :
  checkArguments cfg args = (args', found) ->
  k <> "path" -> k <> "paths" -> k <> "source" -> k <> "destination" ->
  prop args' k = prop args k.
Proof.
  rewrite checkArguments_steps. intros Hrun H1 H2 H3 H4.
  destruct (checkPath cfg args) as [args1 found1] eqn:E1.
  pose proof (checkPath_other cfg _ _ _ k E1 H1) as Hk1.
  destruct found1; [injection Hrun as <- _; exact Hk1|].
  destruct (checkPaths cfg args1) as [args2 found2] eqn:E2.
  pose proof (checkPaths_other _ _ _ k E2 H2) as Hk2.
  destruct found2; [injection Hrun as <- _; congruence|].
  unfold and_then in Hrun.
  destruct (checkEndpoint cfg "source" _ args2) as [args3 found3] eqn:E3.
  pose proof (checkEndpoint_other _ _ _ _ _ k E3 H3) as Hk3.
  destruct found3; [injection Hrun as <- _; congruence|].
  pose proof (checkEndpoint_other _ _ _ _ _ k Hrun H4) as Hk4. congruence.
Qed.

Lemma checkPath_sets args args1 path :
  is_object args -> checkPath cfg args = (args1, None) -> prop args "path" = VStr path ->
  exists sanitized,
    sanitizePath cfg (VStr path) = Some sanitized /\ prop args1 "path" = VStr sanitized.
Proof.
  intros Hobj Hrun Hpath. unfold checkPath in Hrun. rewrite Hpath in Hrun.
  destruct (sanitizePath cfg (VStr path)) as [sanitized|]; [|discriminate].
  injection Hrun as <-. exists sanitized. split; [reflexivity|].
  now apply RejectionFacts.prop_set_prop.
Qed.

Lemma checkPaths_sets args args2 paths :
  is_object args -> checkPaths cfg args = (args2, None) -> prop args "paths" = VArr paths ->
  exists sanitized,
    sanitizePaths cfg paths = Some sanitized
    /\ prop args2 "paths" = VArr (List.map VStr sanitized).
Proof.
  intros Hobj Hrun Hpaths. unfold checkPaths in Hrun. rewrite Hpaths in Hrun.
  destruct (sanitizePaths cfg paths) as [sanitized|]; [|discriminate].
  injection Hrun as <-. exists sanitized. split; [reflexivity|].
  now apply RejectionFacts.prop_set_prop.
Qed.

Lemma checkEndpoint_sets field message args args' path :
  is_object args -> checkEndpoint cfg field message args = (args', None) ->
  prop args field = VStr path ->
  exists sanitized,
    sanitizePath cfg (VStr path) = Some sanitized /\ prop args' field = VStr sanitized.
Proof.
  intros Hobj Hrun Hpath. unfold checkEndpoint in Hrun. rewrite Hpath in Hrun.
  destruct (sanitizePath cfg (VStr path)) as [sanitized|]; [|discriminate].
  injection Hrun as <-. exists sanitized. split; [reflexivity|].
  now apply RejectionFacts.prop_set_prop.
Qed.

(** When all checks pass, each path argument has been replaced by what
    [sanitizePath] returns for it. *)
Lemma checkArguments_sets aps args' :
  checkArguments cfg (VObj aps) = (args', None) ->
  (forall path,
      assoc "path" aps = VStr path ->
      exists sanitized,
        sanitizePath cfg (VStr path) = Some sanitized
        /\ prop args' "path" = VStr sanitized)
  /\ (forall paths,
         assoc "paths" aps = VArr paths ->
         exists sanitized,
           sanitizePaths cfg paths = Some sanitized
           /\ prop args' "paths" = VArr (List.map VStr sanitized))
  /\ (forall source,
         assoc "source" aps = VStr source ->
         exists sanitized,
           sanitizePath cfg (VStr source) = Some sanitized
           /\ prop args' "source" = VStr sanitized)
  /\ (forall destination,
         assoc "destination" aps = VStr destination ->
         exists sanitized,
           sanitizePath cfg (VStr destination) = Some sanitized
           /\ prop args' "destination" = VStr sanitized).
Proof.
  rewrite checkArguments_steps. intros Hrun.
  assert (Hobj : is_object (VObj aps)) by (now exists aps).
  destruct (checkPath cfg (VObj aps)) as [args1 [m1|]] eqn:E1; [discriminate|].
  destruct (RejectionFacts.checkPath_passes cfg _ _ Hobj E1) as (Hobj1 & Hk1).
  destruct (checkPaths cfg args1) as [args2 [m2|]] eqn:E2; [discriminate|].
  destruct (RejectionFacts.checkPaths_passes cfg _ _ Hobj1 E2) as (Hobj2 & Hk2).
  unfold and_then in Hrun.
  destruct (checkEndpoint cfg "source" _ args2) as [args3 [m3|]] eqn:E3; [discriminate|].
  destruct (RejectionFacts.checkEndpoint_passes cfg _ _ _ _ Hobj2 E3) as (Hobj3 & Hk3).
  destruct (RejectionFacts.checkEndpoint_passes cfg _ _ _ _ Hobj3 Hrun) as (_ & Hk4).
  split; [|split; [|split]].
  - intros path Hpath.
    destruct (checkPath_sets _ _ _ Hobj E1 Hpath) as (sanitized & Hs & Hset).
    exists sanitized. split; [exact Hs|].
    now rewrite Hk4, Hk3, Hk2 by discriminate.
  - intros paths Hpaths.
    assert (Hp1 : prop args1 "paths" = VArr paths) by (now rewrite Hk1 by discriminate).
    destruct (checkPaths_sets _ _ _ Hobj1 E2 Hp1) as (sanitized & Hs & Hset).
    exists sanitized. split; [exact Hs|].
    now rewrite Hk4, Hk3 by discriminate.
  - intros source Hsource.
    assert (Hp2 : prop args2 "source" = VStr source)
      by (now rewrite Hk2, Hk1 by discriminate).
    destruct (checkEndpoint_sets _ _ _ _ _ Hobj2 E3 Hp2) as (sanitized & Hs & Hset).
    exists sanitized. split; [exact Hs|].
    now rewrite Hk4 by discriminate.
  - intros destination Hdestination.
    assert (Hp3 : prop args3 "destination" = VStr destination)
      by (now rewrite Hk3, Hk2, Hk1 by discriminate).
    exact (checkEndpoint_sets _ _ _ _ _ Hobj3 Hrun Hp3).
Qed.

End Checks.

(** X16: what is forwarded has been sanitized.  When [processRequest]
    returns a [tools/call] request to the filesystem server without the
    security-violation marker (its [paths] argument being one that the warning
    can print), each of the arguments [path], [source] and [destination] that
    was a string, and [paths] if it was an array, has been replaced by what
    [sanitizePath] returns for it; so every entry of [paths] was a string
    that [sanitizePath] accepts. *)
Theorem processRequest_accepted_sanitized cfg request aps :
  serverName cfg = "filesystem" ->
  is_string (prop request "method") "tools/call" = true ->
  prop (prop request "params") "arguments" = VObj aps ->
  joinable (assoc "paths" aps) = true ->
  let result := pathSecurity.processRequest cfg request in
  let args' := prop (prop result "params") "arguments" in
  truthy (prop result "__securityViolation") = false ->
  result = processRequestUnlogged cfg request
  /\ (forall path,
         assoc "path" aps = VStr path ->
         exists sanitized,
           pathSecurity.sanitizePath cfg (VStr path) = Some sanitized
           /\ prop args' "path" = VStr sanitized)
  /\ (forall paths,
         assoc "paths" aps = VArr paths ->
         exists sanitized,
           pathSecurity.sanitizePaths cfg paths = Some sanitized
           /\ prop args' "paths" = VArr (List.map VStr sanitized))
  /\ (forall source,
         assoc "source" aps = VStr source ->
         exists sanitized,
           pathSecurity.sanitizePath cfg (VStr source) = Some sanitized
           /\ prop args' "source" = VStr sanitized)
  /\ (forall destination,
         assoc "destination" aps = VStr destination ->
         exists sanitized,
           pathSecurity.sanitizePath cfg (VStr destination) = Some sanitized
           /\ prop args' "destination" = VStr sanitized).
Proof.
  intros Hfs Hcall Hargs Hjoin. cbv zeta.
  rewrite (processRequest_agrees cfg request) by (rewrite Hargs; exact Hjoin).
  intros Hunmarked. split; [reflexivity|].
  revert Hunmarked.
  rewrite (RejectionFacts.processRequestUnlogged_checks cfg request aps Hfs Hcall Hargs).
  destruct (pathSecurity.checkArguments cfg (VObj aps)) as [args' [message|]] eqn:E.
  - destruct (RejectionFacts.violation_read request aps Hcall Hargs args' message)
      as (Hmarked & _).
    cbv zeta in Hmarked. congruence.
  - intros _. rewrite (RejectionFacts.with_arguments_read request aps Hcall Hargs).
    now apply checkArguments_sets.
Qed.

Lemma processRequest_accepted_sanitized_witness :
  prop (prop (prop (pathSecurity.processRequest tight (readRequest 1 "/srv/data/a/../x"))
                   "params") "arguments") "path"
  = VStr "/srv/data/x".
Proof.
  destruct (processRequest_accepted_sanitized tight (readRequest 1 "/srv/data/a/../x")
              [ ("path", VStr "/srv/data/a/../x") ])
    as (_ & Hpath & _);
    [reflexivity | reflexivity | reflexivity | reflexivity | reflexivity |].
  destruct (Hpath "/srv/data/a/../x" eq_refl) as (sanitized & Hs & Hset).
  rewrite Hset. f_equal. vm_compute in Hs. congruence.
Defined.

(** X17: [processRequest] touches nothing else.  Of the request it returns,
    marked or not, every top-level property other than [params] and the two
    marker properties ([id], [method] and [jsonrpc] among them) is as in the
    request it was given; so is every property of [params] other than
    [arguments], and every argument other than [path], [paths], [source] and
    [destination]. *)
Theorem processRequest_frame cfg request k :
  let result := pathSecurity.processRequest cfg request in
  (k <> "params" -> k <> "__securityViolation" -> k <> "__errorMessage" ->
   prop result k = prop request k)
  /\ (k <> "arguments" ->
      prop (prop result "params") k = prop (prop request "params") k)
  /\ (k <> "path" -> k <> "paths" -> k <> "source" -> k <> "destination" ->
      prop (prop (prop result "params") "arguments") k
      = prop (prop (prop request "params") "arguments") k).
Proof.
  cbv zeta. unfold pathSecurity.processRequest.
  destruct (negb _); [repeat split|]. destruct (nullish request); [repeat split|].
  destruct (_ && _) eqn:Hcond; [|repeat split].
  apply andb_true_iff in Hcond. destruct Hcond as [Hcall Hobj].
  destruct request as [| | | | | |ps]; try discriminate Hcall.
  simpl prop in *.
  destruct (assoc "params" ps) as [| | | | | |qs] eqn:Hparams; try discriminate Hobj.
  simpl prop in *.
  assert (Hkept : forall args',
            (k <> "path" -> k <> "paths" -> k <> "source" -> k <> "destination" ->
             prop args' k = prop (assoc "arguments" qs) k) ->
            (k <> "params" ->
             prop (VObj (assoc_set ps "params" (VObj (assoc_set qs "arguments" args')))) k = assoc k ps)
            /\ (k <> "arguments" ->
                prop (prop (VObj (assoc_set ps "params" (VObj (assoc_set qs "arguments" args')))) "params") k
                = assoc k qs)
            /\ (k <> "path" -> k <> "paths" -> k <> "source" -> k <> "destination" ->
                prop (prop (prop (VObj (assoc_set ps "params" (VObj (assoc_set qs "arguments" args')))) "params")
                           "arguments") k
                = prop (assoc "arguments" qs) k)).
  { intros args' Hargs'. simpl. split; [|split].
    - intros Hk. apply assoc_set_other. congruence.
    - intros Hk. rewrite assoc_set_same. simpl. apply assoc_set_other. congruence.
    - intros H1 H2 H3 H4. rewrite assoc_set_same. simpl. rewrite assoc_set_same.
      now apply Hargs'. }
  assert (Hmarked : forall args' message,
            (k <> "path" -> k <> "paths" -> k <> "source" -> k <> "destination" ->
             prop args' k = prop (assoc "arguments" qs) k) ->
            let result :=
              pathSecurity.violation (VObj (assoc_set ps "params" (VObj (assoc_set qs "arguments" args'))))
                                     message in
            (k <> "params" -> k <> "__securityViolation" -> k <> "__errorMessage" ->
             prop result k = assoc k ps)
            /\ (k <> "arguments" -> prop (prop result "params") k = assoc k qs)
            /\ (k <> "path" -> k <> "paths" -> k <> "source" -> k <> "destination" ->
                prop (prop (prop result "params") "arguments") k
                = prop (assoc "arguments" qs) k)).
  { intros args' message Hargs'. cbv zeta.
    destruct (Hkept args' Hargs') as (Htop & Hpar & Harg). revert Htop Hpar Harg.
    unfold pathSecurity.violation. simpl.
    intros Htop Hpar Harg. split; [|split].
    - intros H1 H2 H3. rewrite 2!assoc_set_other by congruence. now apply Htop.
    - intros Hk. rewrite !assoc_set_other by discriminate. now apply Hpar.
    - intros H1 H2 H3 H4. rewrite !assoc_set_other by discriminate. now apply Harg. }
  destruct (pathSecurity.checkPath cfg (assoc "arguments" qs)) as [args1 found1] eqn:E1.
  assert (Hk1 : k <> "path" -> prop args1 k = prop (assoc "arguments" qs) k)
    by (apply (checkPath_other cfg _ _ _ k E1)).
  assert (Hunmarked : forall args',
            (k <> "path" -> k <> "paths" -> k <> "source" -> k <> "destination" ->
             prop args' k = prop (assoc "arguments" qs) k) ->
            (k <> "params" -> k <> "__securityViolation" -> k <> "__errorMessage" ->
             prop (VObj (assoc_set ps "params" (VObj (assoc_set qs "arguments" args')))) k = assoc k ps)
            /\ (k <> "arguments" ->
                prop (prop (VObj (assoc_set ps "params" (VObj (assoc_set qs "arguments" args')))) "params") k
                = assoc k qs)
            /\ (k <> "path" -> k <> "paths" -> k <> "source" -> k <> "destination" ->
                prop (prop (prop (VObj (assoc_set ps "params" (VObj (assoc_set qs "arguments" args')))) "params")
                           "arguments") k
                = prop (assoc "arguments" qs) k)).
  { intros args' Hargs'. destruct (Hkept args' Hargs') as (Htop & Hpar & Harg).
    split; [|split]; auto. }
  destruct found1 as [message|]; [apply Hmarked; auto|].
  destruct (pathSecurity.checkPaths cfg args1) as [args2 found2] eqn:E2.
  assert (Hk2 : k <> "paths" -> prop args2 k = prop args1 k)
    by (apply (checkPaths_other cfg _ _ _ k E2)).
  destruct found2 as [message|].
  { destruct (joinable (prop args1 "paths")).
    - apply Hmarked. intros H1 H2 _ _. rewrite Hk2, Hk1; auto.
    - apply Hunmarked. auto. }
  unfold pathSecurity.and_then.
  destruct (pathSecurity.checkEndpoint cfg "source" _ args2) as [args3 found3] eqn:E3.
  assert (Hk3 : k <> "source" -> prop args3 k = prop args2 k)
    by (apply (checkEndpoint_other cfg _ _ _ _ _ k E3)).
  destruct found3 as [message|].
  { apply Hmarked. intros H1 H2 H3 _. rewrite Hk3, Hk2, Hk1; auto. }
  destruct (pathSecurity.checkEndpoint cfg "destination" _ args3) as [args4 found4] eqn:E4.
  assert (Hk4 : k <> "destination" -> prop args4 k = prop args3 k)
    by (apply (checkEndpoint_other cfg _ _ _ _ _ k E4)).
  destruct found4 as [message|].
  - apply Hmarked. intros H1 H2 H3 H4. rewrite Hk4, Hk3, Hk2, Hk1; auto.
  - apply Hunmarked. intros H1 H2 H3 H4. rewrite Hk4, Hk3, Hk2, Hk1; auto.
Qed.

(* ===================================================================== *)
(** ** The settings read from the environment *)
(* ===================================================================== *)

Section Numbers.

Lemma digit_not_space c :
  isDigit c = true ->
  isWhiteSpace c = false /\ Ascii.eqb c "-" = false /\ Ascii.eqb c "+" = false.
Proof.
  unfold isDigit, isWhiteSpace. intros H. apply andb_true_iff in H.
  destruct H as [Hlo Hhi]. apply Nat.leb_le in Hlo, Hhi.
  split; [|split].
  - repeat (apply orb_false_iff; split); apply Nat.eqb_neq; lia.
  - apply Ascii.eqb_neq. intros ->. vm_compute in Hlo. lia.
  - apply Ascii.eqb_neq. intros ->. vm_compute in Hlo. lia.
Qed.

Lemma digits_of_uint d :
  digitPrefix (NilEmpty.string_of_uint d) = NilEmpty.string_of_uint d.
Proof. induction d; simpl; congruence. Qed.

Lemma digits_head d :
  d <> Decimal.Nil ->
  exists c r, NilEmpty.string_of_uint d = String c r /\ isDigit c = true.
Proof. destruct d; [contradiction | ..]; intros _; eexists _, _; split; reflexivity. Qed.

(** [parseInt] reads a decimal numeral, with or without a sign. *)
Lemma parseInt10_numeral d (negative : bool) :
  d <> Decimal.Nil ->
  parseInt10 ((if negative then "-" else "") +:+ NilEmpty.string_of_uint d)
  = Some (if negative then - Z.of_uint d else Z.of_uint d).
Proof.
  intros Hd. destruct (digits_head d Hd) as (c & r & Hs & Hc).
  destruct (digit_not_space c Hc) as (Hspace & Hminus & Hplus).
  assert (Hparse : NilZero.uint_of_string (NilEmpty.string_of_uint d) = Some d).
  { pose proof (NilZero.usu d Hd) as Hu. destruct d; [contradiction | ..]; exact Hu. }
  unfold parseInt10. destruct negative.
  - change ("-" +:+ NilEmpty.string_of_uint d) with (String "-" (NilEmpty.string_of_uint d)).
    simpl trimStart. cbv beta iota zeta. rewrite Ascii.eqb_refl.
    now rewrite digits_of_uint, Hparse.
  - change ("" +:+ NilEmpty.string_of_uint d) with (NilEmpty.string_of_uint d).
    rewrite Hs. simpl trimStart. rewrite Hspace. cbv beta iota zeta.
    rewrite Hminus, Hplus. rewrite <- Hs.
    now rewrite digits_of_uint, Hparse.
Qed.

(** The decimal text of an integer is read back as that integer. *)
Lemma parseInt10_num_to_string n : parseInt10 (num_to_string n) = Some n.
Proof.
  destruct n as [|p|p]; [reflexivity | |].
  - unfold num_to_string. simpl Z.to_int. simpl NilZero.string_of_int.
    pose proof (DecimalPos.Unsigned.to_uint_nonnil p) as Hd.
    replace (NilZero.string_of_uint (Pos.to_uint p))
      with ("" +:+ NilEmpty.string_of_uint (Pos.to_uint p))
      by (now destruct (Pos.to_uint p)).
    rewrite (parseInt10_numeral _ false Hd). unfold Z.of_uint.
    now rewrite DecimalPos.Unsigned.of_to.
  - unfold num_to_string. simpl Z.to_int. simpl NilZero.string_of_int.
    pose proof (DecimalPos.Unsigned.to_uint_nonnil p) as Hd.
    replace (String "-" (NilZero.string_of_uint (Pos.to_uint p)))
      with ("-" +:+ NilEmpty.string_of_uint (Pos.to_uint p))
      by (now destruct (Pos.to_uint p)).
    rewrite (parseInt10_numeral _ true Hd). unfold Z.of_uint.
    now rewrite DecimalPos.Unsigned.of_to.
Qed.

Lemma int_or_law v dflt :
  dflt <> 0 ->
  int_or v dflt <> 0
  /\ (v = None -> int_or v dflt = dflt)
  /\ (forall s, v = Some s -> parseInt10 s = None -> int_or v dflt = dflt)
  /\ (forall n, v = Some (num_to_string n) -> int_or v dflt = if n =? 0 then dflt else n).
Proof.
  intros Hd. split; [|split; [|split]].
  - unfold int_or. destruct v as [s|]; [|exact Hd].
    destruct (parseInt10 s) as [n|]; [|exact Hd].
    destruct (n =? 0) eqn:E; [exact Hd | now apply Z.eqb_neq].
  - now intros ->.
  - intros s -> Hs. unfold int_or. now rewrite Hs.
  - intros n ->. unfold int_or. now rewrite parseInt10_num_to_string.
Qed.

End Numbers.

(** X18: the numeric settings.  For each of the seven numeric settings of
    [CONFIG], read by [parseInt(process.env.X, 10) || dflt]: the setting is
    never 0; it is the default when the variable is not set, and when its
    value does not start (after white space and a sign) with a digit; when
    the value is the decimal text of an integer [n] (one that a double
    holds exactly), the setting is [n], also for a negative [n], unless [n]
    is 0, which gives the default.  So
    [MCP_MAX_RETRIES=0] does not turn retries off, and [MCP_RATE_LIMIT=0] does
    not block every request. *)
Theorem CONFIG_numbers env :
  Forall (fun '(variable, field, dflt) =>
            field (CONFIG env) <> 0
            /\ (env !! variable = None -> field (CONFIG env) = dflt)
            /\ (forall s, env !! variable = Some s -> parseInt10 s = None ->
                          field (CONFIG env) = dflt)
            /\ (forall n, Z.abs n <= maxSafeInteger ->
                          env !! variable = Some (num_to_string n) ->
                          field (CONFIG env) = if n =? 0 then dflt else n))
         numericSettings.
Proof.
  assert (Hlaw : forall v dflt field,
             dflt <> 0 -> field = int_or v dflt ->
             field <> 0
             /\ (v = None -> field = dflt)
             /\ (forall s, v = Some s -> parseInt10 s = None -> field = dflt)
             /\ (forall n, Z.abs n <= maxSafeInteger -> v = Some (num_to_string n) ->
                           field = if n =? 0 then dflt else n)).
  { intros v dflt field Hd ->.
    destruct (int_or_law v dflt Hd) as (Hnz & Hunset & Hnan & Hnum).
    repeat split; auto. }
  unfold numericSettings.
  repeat (constructor; [apply Hlaw; [discriminate | reflexivity]|]). constructor.
Qed.

Section Lists.

Variable c : ascii.

Lemma splitOn_nonempty s : splitOn c s <> [].
Proof.
  destruct s as [|d s]; simpl; [discriminate|].
  destruct (Ascii.eqb d c); [discriminate|]. destruct (splitOn c s); discriminate.
Qed.

Lemma splitOn_lacks s : Forall (fun entry => lacks c entry = true) (splitOn c s).
Proof.
  induction s as [|d s IH]; simpl.
  - repeat constructor.
  - destruct (Ascii.eqb d c) eqn:E.
    + constructor; [reflexivity | exact IH].
    + destruct (splitOn c s) as [|x rest]; [repeat constructor; simpl; now rewrite E|].
      inversion IH; subst. constructor; [|assumption]. simpl. now rewrite E.
Qed.

Lemma splitOn_separator a b :
  splitOn c (a +:+ String c b) = (splitOn c a ++ splitOn c b)%list.
Proof.
  induction a as [|d a IH].
  - simpl. now rewrite Ascii.eqb_refl.
  - rewrite append_cons. simpl. rewrite IH.
    destruct (Ascii.eqb d c); [reflexivity|].
    pose proof (splitOn_nonempty a) as Hne. now destruct (splitOn c a).
Qed.

Lemma splitOn_entry entry : lacks c entry = true -> splitOn c entry = [entry].
Proof.
  induction entry as [|d entry IH]; simpl; [reflexivity|].
  intros H. apply andb_true_iff in H. destruct H as [Hd Hentry].
  apply negb_true_iff in Hd. rewrite Hd, (IH Hentry). reflexivity.
Qed.

(** Splitting what was joined gives the entries back. *)
Lemma splitOn_join entries :
  entries <> [] -> Forall (fun entry => lacks c entry = true) entries ->
  splitOn c (join (String c "") entries) = entries.
Proof.
  induction entries as [|x entries IH]; [contradiction|].
  intros _ Hall. inversion Hall as [|? ? Hx Hrest]; subst.
  destruct entries as [|y entries]; [now apply splitOn_entry|].
  change (join (String c "") (x :: y :: entries))
    with (x +:+ String c (join (String c "") (y :: entries))).
  rewrite splitOn_separator, (splitOn_entry x Hx), IH by (assumption || discriminate).
  reflexivity.
Qed.

End Lists.

(** X19: the allow-list and the cache switch.  [MCP_ALLOWED_PATHS] is split
    at its commas and the empty pieces are dropped: no entry of
    [CONFIG.allowedPaths] is empty or holds a comma; the list is empty when
    the variable is not set or empty; and a list of entries that are not
    empty and hold no comma, joined by commas, is read back as it is.
    Caching is on unless [MCP_CACHE] is exactly [false]. *)
Theorem CONFIG_allowedPaths env :
  Forall listable (allowedPaths (CONFIG env))
  /\ (text_or (env !! "MCP_ALLOWED_PATHS") "" = "" -> allowedPaths (CONFIG env) = [])
  /\ (forall entries,
         Forall listable entries ->
         env !! "MCP_ALLOWED_PATHS" = Some (join "," entries) ->
         allowedPaths (CONFIG env) = entries)
  /\ (responseCache (CONFIG env) = false <-> env !! "MCP_CACHE" = Some "false").
Proof.
  split; [|split; [|split]].
  - simpl. apply List.Forall_forall. intros entry Hin. apply filter_In in Hin.
    destruct Hin as [Hin Hne]. split.
    + intros ->. discriminate Hne.
    + pose proof (splitOn_lacks "," (text_or (env !! "MCP_ALLOWED_PATHS") "")) as Hall.
      rewrite List.Forall_forall in Hall. now apply Hall.
  - simpl. now intros ->.
  - intros entries Hall Henv. simpl. rewrite Henv.
    assert (Htext : text_or (Some (join "," entries)) "" = join "," entries).
    { simpl. destruct (String.eqb (join "," entries) "") eqn:E; [|reflexivity].
      apply String.eqb_eq in E. now rewrite E. }
    rewrite Htext. destruct entries as [|x entries]; [reflexivity|].
    rewrite (splitOn_join "," (x :: entries)).
    + clear Henv Htext. induction Hall as [|y l [Hy _] _ IH]; [reflexivity|].
      simpl. replace (String.eqb y "") with false by (symmetry; now apply String.eqb_neq).
      simpl. now rewrite IH.
    + discriminate.
    + eapply List.Forall_impl; [|exact Hall]. now intros entry [_ H].
  - simpl. destruct (env !! "MCP_CACHE") as [s|]; [|split; discriminate].
    split.
    + intros H. apply negb_false_iff, String.eqb_eq in H. now subst.
    + intros [= ->]. reflexivity.
Qed.

(* ===================================================================== *)
(** ** When the forwarder throws *)
(* ===================================================================== *)

Lemma loop_normal cfg request body cacheKey st remaining attempt lastError t res :
  loop_of cfg request body cacheKey st remaining attempt lastError t res ->
  exists response, fst res = Normal response.
Proof.
  intros Hloop. apply loop_body in Hloop.
  destruct (body_of t) as [v|]; [now exists v|].
  destruct Hloop as (response & Hres & _). now exists response.
Qed.

(** X20: [forwardToProxy] throws in two cases only: on [null], and when
    the cache key cannot be built because [request.method] has no string form
    (an object with an own property [toString]); in the second case the
    request has passed the rate limiter and has been counted, and nothing is
    posted.  For every other request, a request whose method is a string
    among them, it returns a response. *)
Theorem forward_throws_only cfg (W : Type) (h : handler W) (w : W) request st :
  let r := exec h (forwardToProxy cfg request st) w in
  (forall e,
      fst (result_of r) = Throw e ->
      (nullish request = true /\ name e = "TypeError" /\ trace_of r = []
       /\ snd (result_of r) = st)
      \/ (forwardable cfg request
          /\ cache.createKey request = Throw e
          /\ toString (prop request "method") = None
          /\ attempts (trace_of r) = 0%nat
          /\ exists now now',
               trace_of r = [ONow now; ONow now']
               /\ snd (result_of r) = recorded st now now'))
  /\ (nullish request = false -> toString (prop request "method") <> None ->
      exists response, fst (result_of r) = Normal response).
Proof.
  cbv zeta.
  pose proof (forwardToProxy_forward_of cfg h request st w) as Hrun. cbv zeta in Hrun.
  destruct (exec h (forwardToProxy cfg request st) w) as [[t [res st']] w'].
  unfold trace_of, result_of in *. simpl in *.
  assert (Hkey : forall e, cache.createKey request = Throw e ->
                           toString (prop request "method") = None).
  { intros e. unfold cache.createKey. destruct (cache.isUncacheable request); [discriminate|].
    now destruct (toString (prop request "method")). }
  inversion Hrun as [ Hnull | Hnull Hmark | Hnull Hmark Hsize | now Hf Hlim
                    | now now' e' Hf Hpass Hk
                    | now now' cacheKey tl cachedResponse st3 Hf Hpass Hk Hl
                    | now now' cacheKey tl st3 tp res' Hf Hpass Hk Hl Hloop ];
    subst.
  - split; [|congruence]. intros e [= <-]. left. auto.
  - split; [discriminate | eauto].
  - split; [discriminate | eauto].
  - split; [discriminate | eauto].
  - split.
    + intros e [= <-]. right. split; [exact Hf|]. split; [exact Hk|].
      split; [eauto|]. split; [reflexivity|]. eauto.
    + intros _ Hm. exfalso. apply Hm. eauto.
  - split; [discriminate | eauto].
  - destruct (loop_normal _ _ _ _ _ _ _ _ _ _ Hloop) as (response & Hres).
    simpl in Hres. subst res. split; [discriminate | eauto].
Qed.



(* ===================================================================== *)
(** ** One response, one line *)
(* ===================================================================== *)

Lemma printable_app a b : printable (a +:+ b) = printable a && printable b.
Proof.
  induction a as [|c a IH]; [reflexivity|].
  rewrite append_cons. simpl. rewrite IH. apply andb_assoc.
Qed.

Lemma hex_digit_printable k : (32 <=? nat_of_ascii (hex_digit k))%nat = true.
Proof. unfold hex_digit. do 15 (destruct k as [|k]; [reflexivity|]). reflexivity. Qed.

Lemma escape_char_printable c : printable (escape_char c) = true.
Proof.
  unfold escape_char. cbv zeta.
  destruct (nat_of_ascii c =? 34)%nat eqn:E34.
  { apply Nat.eqb_eq in E34. rewrite printable_app. cbn [printable]. now rewrite E34. }
  destruct (nat_of_ascii c =? 92)%nat; [reflexivity|].
  destruct (nat_of_ascii c =? 8)%nat; [reflexivity|].
  destruct (nat_of_ascii c =? 12)%nat; [reflexivity|].
  destruct (nat_of_ascii c =? 10)%nat; [reflexivity|].
  destruct (nat_of_ascii c =? 13)%nat; [reflexivity|].
  destruct (nat_of_ascii c =? 9)%nat; [reflexivity|].
  destruct (nat_of_ascii c <? 32)%nat eqn:Elow.
  - rewrite printable_app. change (printable "\u00") with true.
    cbn [printable andb]. now rewrite !hex_digit_printable.
  - apply Nat.ltb_ge in Elow. cbn [printable]. rewrite andb_true_r. now apply Nat.leb_le.
Qed.

Lemma escape_printable s : printable (escape s) = true.
Proof.
  induction s as [|c s IH]; [reflexivity|].
  simpl. now rewrite printable_app, escape_char_printable, IH.
Qed.

Lemma quote_printable s : printable (quote s) = true.
Proof.
  unfold quote. rewrite printable_app. cbn [printable].
  rewrite escape_printable. reflexivity.
Qed.

Lemma num_to_string_printable n : printable (num_to_string n) = true.
Proof.
  assert (Hd : forall d, printable (NilEmpty.string_of_uint d) = true)
    by (induction d; simpl; auto).
  assert (Hz : forall d, printable (NilZero.string_of_uint d) = true)
    by (destruct d; try reflexivity; apply (Hd (_ d))).
  unfold num_to_string. destruct (Z.to_int n); simpl; auto.
Qed.

Lemma join_printable sep xs :
  printable sep = true -> Forall (fun x => printable x = true) xs ->
  printable (join sep xs) = true.
Proof.
  intros Hsep. induction 1 as [|x xs Hx Hxs IH]; [reflexivity|].
  destruct xs as [|y xs]; [exact Hx|].
  change (join sep (x :: y :: xs)) with (x +:+ sep +:+ join sep (y :: xs)).
  now rewrite !printable_app, Hx, Hsep, IH.
Qed.

(** [JSON.stringify] escapes every control character. *)
Lemma stringify_printable : forall v s, stringify v = Some s -> printable s = true.
Proof.
  fix IH 1. intros v s. destruct v as [| |b|n|t|items|props]; simpl.
  - discriminate.
  - now intros [= <-].
  - destruct b; now intros [= <-].
  - intros [= <-]. apply num_to_string_printable.
  - intros [= <-]. apply quote_printable.
  - intros [= <-]. rewrite !printable_app. simpl. rewrite andb_true_r.
    apply join_printable; [reflexivity|].
    induction items as [|x items IHitems]; constructor; [|exact IHitems].
    destruct (stringify x) as [t|] eqn:E; [exact (IH x t E) | reflexivity].
  - intros [= <-]. rewrite !printable_app. simpl. rewrite andb_true_r.
    apply join_printable; [reflexivity|].
    induction props as [|[k x] props IHprops]; [constructor|].
    destruct (stringify x) as [t|] eqn:E; [|exact IHprops].
    constructor; [|exact IHprops].
    rewrite !printable_app, quote_printable. simpl. exact (IH x t E).
Qed.

Lemma template_printable v : printable (template (stringify v)) = true.
Proof.
  destruct (stringify v) as [s|] eqn:E; [|reflexivity].
  simpl. exact (stringify_printable v s E).
Qed.

Section LineTexts.

Context (cfg : Config) {W : Type} (h : handler W).

(** What the handler of a line writes is the JSON text of a value. *)
Lemma onLine_prints line st w :
  exists v, prints (trace_of (exec h (onLine cfg line st) w)) = [template (stringify v)].
Proof.
  destruct (Z.ltb_spec (maxRequestSize cfg) (strlen line)) as [Hlong|Hshort].
  - assert (Hrun : onLine cfg line st = Vis (ConsoleLog tooLargeText) (fun _ => Ret st)).
    { unfold onLine. apply Z.ltb_lt in Hlong. now rewrite Hlong. }
    rewrite Hrun. simpl. destruct (h _ (ConsoleLog tooLargeText) w) as [[] w1].
    now exists (createErrorResponse VNull (-32600) (VStr "Request too large")).
  - rewrite (exec_onLine cfg h line st w Hshort).
    destruct (h _ (JSONParse line) w) as [[e|request] w1].
    + now exists (parseError e).
    + pose proof (forwardToProxy_forward_of cfg h
                    (pathSecurity.processRequest cfg request) st w1) as Hrun.
      cbv zeta in Hrun.
      destruct (exec h (forwardToProxy cfg _ st) w1) as [[t [res st']] w2].
      unfold trace_of, result_of in *. simpl in *.
      apply forward_of_prints in Hrun.
      exists (match res with Normal response => response | Throw e => parseError e end).
      now rewrite prints_app, Hrun.
Qed.

End LineTexts.

(** X21: every response takes one line.  What the handler of a line writes
    to stdout is [JSON.stringify] of a value, and [JSON.stringify] escapes
    every control character: none of the texts written while handling any
    sequence of lines holds a line break (or any character below the space),
    whatever the proxy sent and whatever the request held.  (Strings being
    made of code units below 256, the separators U+2028 and U+2029 are not
    covered.) *)
Theorem onLines_answers_are_lines cfg (W : Type) (h : handler W) (w : W) lines st :
  Forall (fun text => printable text = true)
         (prints (trace_of (exec h (onLines cfg lines st) w))).
Proof.
  revert st w. induction lines as [|line rest IH]; intros st w; [constructor|].
  rewrite exec_onLines_cons.
  destruct (onLine_prints cfg h line st w) as (v & Hv).
  destruct (exec h (onLine cfg line st) w) as [[t1 st1] w1].
  specialize (IH st1 w1).
  destruct (exec h (onLines cfg rest st1) w1) as [[t2 st2] w2].
  unfold trace_of in *. simpl in *.
  rewrite prints_app, Hv. constructor; [apply template_printable | exact IH].
Qed.

(* ===================================================================== *)
(** ** What is logged *)
(* ===================================================================== *)

(** X22: the level filter of [logger.log].  Whatever [MCP_LOG_LEVEL] is,
    an entry of level [error] is written to stderr.  A level name that is
    none of the five (such as [INFO] or [verbose]) filters nothing: with a
    log file, every entry is written to it.  An entry of a level other than
    [error] and [warn] reaches stderr only when the configured level is
    [debug] or [trace]; so with the settings of an empty environment (level
    [info], no log file) the entries of level [info] are written nowhere.
    When an entry passes the filter, so does every entry of a level at
    least as high. *)
Theorem logger_log_levels configured toFile :
  In Stderr (logger.log configured toFile "error")
  /\ (LOG_LEVELS configured = None ->
      forall level, In LogFile (logger.log configured true level))
  /\ (forall level,
         level <> "error" -> level <> "warn" ->
         (In Stderr (logger.log configured toFile level)
          <-> logger.belowLevel configured level = false
              /\ (configured = "debug" \/ configured = "trace")))
  /\ logger.log (logLevel ∅) (logToFile ∅) "info" = []
  /\ (forall level level' l l',
         LOG_LEVELS level = Some l -> LOG_LEVELS level' = Some l' -> l <= l' ->
         logger.belowLevel configured level = false ->
         logger.belowLevel configured level' = false).
Proof.
  split; [|split; [|split; [|split]]].
  - unfold logger.log, logger.belowLevel.
    change (LOG_LEVELS "error") with (Some 4).
    change (String.eqb "error" "error") with true. simpl orb.
    destruct (LOG_LEVELS configured) as [c|] eqn:Hc; [|now left].
    replace (4 <? c) with false; [now left|].
    symmetry. apply Z.ltb_ge. unfold LOG_LEVELS in Hc.
    repeat match type of Hc with
           | (if ?b then _ else _) = _ => destruct b
           end; first [discriminate Hc | injection Hc as <-; lia].
  - intros Hnone level. unfold logger.log, logger.belowLevel. rewrite Hnone.
    destruct (LOG_LEVELS level); apply in_or_app; right; now left.
  - intros level He Hw. unfold logger.log.
    apply String.eqb_neq in He, Hw. rewrite He, Hw. simpl orb.
    destruct (logger.belowLevel configured level).
    + split; [intros [] | intros [H _]; discriminate H].
    + destruct (String.eqb configured "debug") eqn:Ed.
      * apply String.eqb_eq in Ed. split; [auto | intros _; now left].
      * destruct (String.eqb configured "trace") eqn:Et.
        -- apply String.eqb_eq in Et. split; [auto | intros _; now left].
        -- apply String.eqb_neq in Ed, Et. simpl. split.
           ++ destruct toFile; simpl; intros H; [destruct H as [H|[]]; discriminate H
                                               | destruct H].
           ++ intros [_ [H|H]]; contradiction.
  - reflexivity.
  - intros level level' l l' Hl Hl' Hle. unfold logger.belowLevel. rewrite Hl, Hl'.
    destruct (LOG_LEVELS configured) as [c|]; [|reflexivity].
    rewrite !Z.ltb_ge. lia.
Qed.
